(** * Coxeter groups as matrix groups, and regular supercrystals

    A shallow embedding of

      - [src/sage/groups/matrix_gps/coxeter_group.py]
        (class [CoxeterMatrixGroup]: argument normalisation in
        [__classcall_private__], the reflection representation, the bilinear
        form and the finite-type test of [__init__], [coxeter_graph],
        [bilinear_form]);
      - [src/sage/categories/regular_supercrystals.py]
        (method [digraph] of [RegularSuperCrystals.ParentMethods]).

    Integers are [Z], indices into matrices and lists are [nat], the
    coefficient ring is modelled by the real numbers [R] (every value
    [2 cos (pi / m)] is a real algebraic number), Python dictionaries are
    [gmap]s and Python sets are [gset]s.  An exception that ends a
    computation is an explicit error result. *)

From Stdlib Require Import ZArith List Bool Lia Reals Lra.
From stdpp Require Import base option list gmap sorting strings.

Open Scope Z_scope.

#[local] Set Warnings "-clear-no-such-hyp".

(* ===================================================================== *)
(** * Part I: definitions *)
(* ===================================================================== *)

(** ** Python list primitives *)

Module Py.

(** [l[-k]] for [k >= 1]: the [k]-th element from the end; [None] stands
    for the [IndexError] Python raises when the list is too short. *)
Definition index_neg {A} (l : list A) (k : nat) : option A :=
  if bool_decide (1 <= k <= length l)%nat then l !! (length l - k)%nat
  else None.

(** [l[k]] for [k >= 0], again with [None] for [IndexError]. *)
Definition index {A} (l : list A) (k : nat) : option A := l !! k.

(** [sorted(l)]: a stable sort; [leb x y] decides [x <= y]. *)
Fixpoint insert_sorted {A} (leb : A → A → bool) (x : A) (l : list A) : list A :=
  match l with
  | [] => [x]
  | y :: l' => if leb x y then x :: l else y :: insert_sorted leb x l'
  end.

Definition sorted {A} (leb : A → A → bool) (l : list A) : list A :=
  foldr (insert_sorted leb) [] l.

(** [enumerate(l)]. *)
Definition enumerate {A} (l : list A) : list (nat * A) :=
  zip (seq 0 (length l)) l.

(** [range(n)] as indices. *)
Definition range (n : nat) : list nat := seq 0 n.

End Py.

(** ** Integer matrices *)

(** A Sage integer matrix, given by its rows. *)
Abbreviation matrix := (list (list Z)).

Definition nrows (M : matrix) : nat := length M.

(** [M[i, j]]; every call site below has [i] and [j] in range. *)
Definition entry (M : matrix) (i j : nat) : Z := nth j (nth i M []) 0.

(** [M] is an [n] by [n] table. *)
Definition square (n : nat) (M : matrix) : Prop :=
  length M = n ∧ Forall (λ row, length row = n) M.

Definition squareb (n : nat) (M : matrix) : bool :=
  (length M =? n)%nat && forallb (λ row, (length row =? n)%nat) M.

(** Modelled from the spec: [M.is_symmetric()] of the generic matrix
    services (section 6), which are not under [src/]; on a square matrix it
    compares the entries below the diagonal with their mirror images. *)
Definition is_symmetric (M : matrix) : bool :=
  forallb (λ i, forallb (λ j, entry M i j =? entry M j i) (seq 0 i))
          (seq 0 (nrows M)).

(** Modelled from the spec: [M.diagonal()] of the generic matrix services
    (section 6): the list of the diagonal entries. *)
Definition diagonal (M : matrix) : list Z :=
  map (λ i, entry M i i) (seq 0 (nrows M)).


(** ** Argument normalisation: a literal matrix *)

Inductive result (A : Type) : Type :=
  | Ok (a : A)
  | ValueError (msg : string).
Arguments Ok {A} a.
Arguments ValueError {A} msg.

(** The [else] branch of [__classcall_private__] (lines 245-259), for
    [data] already a matrix: three checks, each raising [ValueError], then
    the default index set [range(data.nrows())]. *)
Definition classcall_private_matrix (data : matrix) (index_set : option (list Z))
  : result (matrix * list Z) :=
  if negb (is_symmetric data) then
    ValueError "the Coxeter matrix is not symmetric"
  else if existsb (λ d, negb (d =? 1)) (diagonal data) then
    ValueError "the Coxeter matrix diagonal is not all 1"
  else if existsb (λ '(i, row),
                     existsb (λ val, (val <=? 1) && negb (val =? -1))
                             (drop (i + 1) row))
                  (Py.enumerate data) then
    ValueError "invalid Coxeter label"
  else
    Ok (data, match index_set with
              | Some idx => idx
              | None => map Z.of_nat (Py.range (nrows data))
              end).

(** A valid Coxeter matrix of size [n] (section 3 of the specification):
    symmetric, ones on the diagonal, every other entry at least 2 or the
    infinity sentinel. *)
Record coxeter_matrix_valid (n : nat) (M : matrix) : Prop := {
  cm_square : square n M;
  cm_sym : ∀ i j, (i < n)%nat → (j < n)%nat → entry M i j = entry M j i;
  cm_diag : ∀ i, (i < n)%nat → entry M i i = 1;
  cm_off : ∀ i j, (i < n)%nat → (j < n)%nat → i ≠ j →
           2 <= entry M i j ∨ entry M i j = -1
}.

Definition coxeter_matrix_validb (n : nat) (M : matrix) : bool :=
  squareb n M
  && forallb (λ i, forallb (λ j,
        (entry M i j =? entry M j i)
        && (if (i =? j)%nat then entry M i i =? 1
            else (2 <=? entry M i j) || (entry M i j =? -1)))
      (seq 0 n)) (seq 0 n).

(** ** Python dictionaries *)

(** A dictionary comprehension [{k: v for ...}] over the list of its
    (key, value) pairs in generation order: a later pair overrides an
    earlier one with the same key. *)
Definition dict_of_pairs `{Countable K} {V} (l : list (K * V)) : gmap K V :=
  foldl (λ d kv, <[kv.1 := kv.2]> d) ∅ l.

(** ** Matrices over the coefficient ring *)

(** A matrix over the base ring, by rows. *)
Abbreviation rmatrix := (list (list R)).

Definition rentry (A : rmatrix) (i j : nat) : R := nth j (nth i A []) 0%R.

(** The [n] by [n] matrix with entry [f i j] at row [i], column [j]. *)
Definition mk_matrix (n : nat) (f : nat → nat → R) : rmatrix :=
  map (λ i, map (λ j, f i j) (seq 0 n)) (seq 0 n).

(** Modelled from the spec: the generic matrix construction of section 6,
    [MC(MS, entries=d, ...)]: the sparse [n] by [n] matrix holding the
    values of the dictionary [d] at its keys and zero elsewhere. *)
Definition matrix_of_entries (n : nat) (d : gmap (nat * nat) R) : rmatrix :=
  mk_matrix n (λ i j, default 0%R (d !! (i, j))).

(** Modelled from the spec: [MS.one()], the identity of the matrix space
    (generic matrix construction, section 6). *)
Definition matrix_one (n : nat) : rmatrix :=
  mk_matrix n (λ i j, if (i =? j)%nat then 1%R else 0%R).

(** Modelled from the spec: [A + B] (generic matrix arithmetic, section
    6). *)
Definition matrix_add (A B : rmatrix) : rmatrix :=
  zip_with (zip_with Rplus) A B.

Definition rsum (l : list R) : R := foldr Rplus 0%R l.

(** Modelled from the spec: the generic matrix-group law of section 6,
    [A * B], the product of two [n] by [n] matrices: the group law of the
    matrix group. *)
Definition matrix_mul (n : nat) (A B : rmatrix) : rmatrix :=
  mk_matrix n (λ i j, rsum (map (λ k, (rentry A i k * rentry B k j)%R) (seq 0 n))).

(** ** The reflection representation ([__init__], lines 333-360) *)

(** [val]: the entry [2 cos(pi / x)], and [2] for the infinity sentinel.
    Over the universal cyclotomic field the source writes the same number as
    [E(2x) + E(2x)^-1]. *)
Definition val (x : Z) : R :=
  if bool_decide (x ≠ -1) then (2 * cos (PI / IZR x))%R else 2%R.

(** [gens]: one matrix per index [i], the identity plus the sparse matrix
    with entries [{(i, j): val(coxeter_matrix[i, j]) for j in range(n)}]. *)
Definition gens (coxeter_matrix : matrix) : list rmatrix :=
  let n := nrows coxeter_matrix in
  map (λ i, matrix_add (matrix_one n)
              (matrix_of_entries n
                 (dict_of_pairs (map (λ j, ((i, j), val (entry coxeter_matrix i j)))
                                     (Py.range n)))))
      (Py.range n).

(** [self._bilinear]: entries
    [{(i, j): val(coxeter_matrix[i, j]) / base_ring(-2) for i in range(n)
      for j in range(n) if coxeter_matrix[i, j] != 2}]. *)
Definition bilinear (coxeter_matrix : matrix) : rmatrix :=
  let n := nrows coxeter_matrix in
  matrix_of_entries n
    (dict_of_pairs
       (i ← Py.range n; j ← Py.range n;
        if bool_decide (entry coxeter_matrix i j ≠ 2)
        then [((i, j), (val (entry coxeter_matrix i j) / -2)%R)] else [])).

(** [bilinear_form()] returns the stored matrix. *)
Definition bilinear_form (coxeter_matrix : matrix) : rmatrix :=
  bilinear coxeter_matrix.

(** Entry [(a, b)] of the [i]-th generator as the source builds it: the
    identity plus row [i] of the values [val (M[i, b])]. *)
Definition gen_entry (M : matrix) (i a b : nat) : R :=
  ((if (a =? b)%nat then 1 else 0)
   + (if decide (a = i) then val (entry M i b) else 0))%R.

(** Entry [(a, b)] of the [i]-th generator as the data model of the
    specification words it: the identity plus a matrix supported on column
    [i], holding [val (M[a, i])] at row [a] and [0] at row [i]. *)
Definition gen_entry_column (M : matrix) (i a b : nat) : R :=
  ((if (a =? b)%nat then 1 else 0)
   + (if decide (b = i)
      then (if decide (a = i) then 0 else val (entry M a i))
      else 0))%R.

(** ** Graphs and the graph services *)

(** Modelled from the spec: the generic graph data structure and its
    algorithms ([sage.graphs.graph.Graph], not under [src/]), which section
    6 lists as required services: [connected_components], [subgraph],
    [eccentricity], [diameter], [shortest_path], [is_tree].  A graph on
    natural-number vertices is its vertex list in increasing order and its
    adjacency test. *)
Record graph : Type := Graph {
  vertices : list nat;
  has_edge : nat → nat → bool
}.

(** Sage's [Integer] extended by [+Infinity], the value [eccentricity] and
    [diameter] take on a disconnected graph. *)
Inductive ext_nat : Type :=
  | Num (k : nat)
  | PlusInfinity.

Global Instance ext_nat_eq_dec : EqDecision ext_nat.
Proof. solve_decision. Defined.

Definition ext_leb (a b : ext_nat) : bool :=
  match a, b with
  | Num x, Num y => (x <=? y)%nat
  | _, PlusInfinity => true
  | PlusInfinity, Num _ => false
  end.

Definition ext_max (a b : ext_nat) : ext_nat :=
  if ext_leb a b then b else a.

Module GraphServices.

(** Modelled from the spec: the search behind [connected_components] and
    the distances.  One round of breadth-first growth: the vertices of [S]
    and their neighbours, listed in vertex order. *)
Definition grow (G : graph) (S : list nat) : list nat :=
  List.filter (λ w, bool_decide (w ∈ S) || existsb (λ v, has_edge G v w) S)
              (vertices G).

(** Modelled from the spec: the vertices at distance at most [k] from [u],
    used by the services below. *)
Definition ball (G : graph) (u : nat) (k : nat) : list nat :=
  Nat.iter k (grow G) (List.filter (λ w, (w =? u)%nat) (vertices G)).

(** Modelled from the spec: [G.connected_component_containing_vertex(v)],
    a sorted list. *)
Definition connected_component_containing_vertex (G : graph) (v : nat) : list nat :=
  ball G v (length (vertices G)).

(** Modelled from the spec: the loop of [G.connected_components()] over
    the vertices not seen yet. *)
Fixpoint components_from (G : graph) (vs seen : list nat) : list (list nat) :=
  match vs with
  | [] => []
  | v :: vs' =>
      if bool_decide (v ∈ seen) then components_from G vs' seen
      else let c := connected_component_containing_vertex G v in
           c :: components_from G vs' (seen ++ c)
  end.

(** Modelled from the spec: [G.connected_components()], the components in
    order of their least vertex, then sorted (stably) from the largest to
    the smallest. *)
Definition connected_components (G : graph) : list (list nat) :=
  Py.sorted (λ c1 c2, (length c2 <=? length c1)%nat)
            (components_from G (vertices G) []).

(** Modelled from the spec: [G.subgraph(comp)], the induced subgraph. *)
Definition subgraph (G : graph) (comp : list nat) : graph :=
  Graph (List.filter (λ v, bool_decide (v ∈ comp)) (vertices G)) (has_edge G).

(** Modelled from the spec: the length of a shortest path from [u] to [w],
    if there is one (the distances behind [eccentricity]). *)
Definition distance (G : graph) (u w : nat) : option nat :=
  List.find (λ k, bool_decide (w ∈ ball G u k)) (seq 0 (length (vertices G))).

(** Modelled from the spec: the eccentricity of one vertex, [+Infinity]
    when some vertex cannot be reached. *)
Definition eccentricity_of (G : graph) (v : nat) : ext_nat :=
  match mapM (distance G v) (vertices G) with
  | Some ds => Num (max_list ds)
  | None => PlusInfinity
  end.

(** Modelled from the spec: [G.eccentricity()], the list of eccentricities
    in vertex order. *)
Definition eccentricity (G : graph) : list ext_nat :=
  map (eccentricity_of G) (vertices G).

(** Modelled from the spec: [G.eccentricity(with_labels=True).items()]. *)
Definition eccentricity_items (G : graph) : list (nat * ext_nat) :=
  map (λ v, (v, eccentricity_of G v)) (vertices G).

(** Modelled from the spec: [G.diameter()], the largest eccentricity. *)
Definition diameter (G : graph) : ext_nat :=
  foldr ext_max (Num 0) (eccentricity G).

(** Modelled from the spec: a shortest path from [u] to a vertex [w] at
    distance [d], built from its end: the predecessor of [w] is the first
    vertex at distance [d - 1] adjacent to [w]. *)
Fixpoint path_back (G : graph) (u : nat) (d : nat) (w : nat) : list nat :=
  match d with
  | O => [w]
  | S d' =>
      let p := default u
                 (List.find (λ x, bool_decide (distance G u x = Some d')
                                  && has_edge G x w) (vertices G)) in
      path_back G u d' p ++ [w]
  end.

(** Modelled from the spec: [G.shortest_path(u, w)], the vertices of some
    shortest path, the empty list when there is none. *)
Definition shortest_path (G : graph) (u w : nat) : list nat :=
  match distance G u w with
  | Some d => path_back G u d w
  | None => []
  end.

(** Modelled from the spec: [G.num_verts()]. *)
Definition num_verts (G : graph) : nat := length (vertices G).

(** Modelled from the spec: [G.num_edges()], the adjacent pairs [i < j]
    (the diagram graph has no loops). *)
Definition num_edges (G : graph) : nat :=
  length (List.filter (λ '(i, j), (i <? j)%nat && has_edge G i j)
                      (i ← vertices G; j ← vertices G; [(i, j)])).

(** Modelled from the spec: [G.is_connected()]: the component of the first
    vertex is the whole graph. *)
Definition is_connected (G : graph) : bool :=
  match vertices G with
  | [] => true
  | v :: _ => (length (connected_component_containing_vertex G v) =? num_verts G)%nat
  end.

(** Modelled from the spec: [G.is_tree()]: connected, with one edge less
    than vertices. *)
Definition is_tree (G : graph) : bool :=
  is_connected G && (num_verts G =? num_edges G + 1)%nat.

End GraphServices.

(** ** The finite-type test ([__init__], lines 361-462) *)

(** [adjmat]: entry 1 at the pairs whose label is neither 1 nor 2. *)
Definition adjmat (coxeter_matrix : matrix) (i j : nat) : bool :=
  negb (bool_decide (entry coxeter_matrix i j ∈ [1; 2])).

(** Modelled from the spec: [Graph(adjmat, format="adjacency_matrix")],
    the graph on [range(n)] whose edges are the non-zero entries of the
    (symmetric) matrix [adjmat]. *)
Definition diagram_graph (coxeter_matrix : matrix) : graph :=
  Graph (Py.range (nrows coxeter_matrix)) (adjmat coxeter_matrix).

(** [mentries]: the labels of the pairs of a component,
    [[coxeter_matrix[comp[i], comp[j]] for j in range(l) for i in range(j)]]. *)
Definition mentries (coxeter_matrix : matrix) (comp : list nat) : list Z :=
  j ← Py.range (length comp); i ← Py.range j;
  [entry coxeter_matrix (nth i comp 0%nat) (nth j comp 0%nat)].

(** Order on the pairs [(eccentricity, vertex)]. *)
Definition ecc_item_leb (a b : ext_nat * nat) : bool :=
  if decide (a.1 = b.1) then (a.2 <=? b.2)%nat else ext_leb a.1 b.1.

(** The branch of the loop body for a component with five or more
    vertices (lines 418-460).  [Some true] is [continue], [Some false] is
    [finite = False; break], [None] is an [IndexError]. *)
Definition large_component_finite (coxeter_matrix : matrix) (G : graph)
    (comp : list nat) : option bool :=
  let l := length comp in
  let G0 := GraphServices.subgraph G comp in
  let mentries_s := Py.sorted Z.leb (mentries coxeter_matrix comp) in
  m_first ← Py.index mentries_s 0;
  if bool_decide (m_first < 0) then Some false else
  m_last ← Py.index_neg mentries_s 1;
  if bool_decide (m_last > 3) then
    m_last2 ← Py.index_neg mentries_s 2;
    if bool_decide (m_last2 > 3) then Some false else
    if bool_decide (m_last > 4) then Some false else
    let diameter := GraphServices.diameter G0 in
    if bool_decide (diameter ≠ Num (l - 1)) then Some false else
    let ecc := Py.sorted ecc_item_leb
                 (map (λ '(v, u), (u, v)) (GraphServices.eccentricity_items G0)) in
    left_end ← snd <$> Py.index_neg ecc 1;
    right_end ← snd <$> Py.index_neg ecc 2;
    let shortest_path := GraphServices.shortest_path G0 left_end right_end in
    left_almost_end ← Py.index shortest_path 1;
    right_almost_end ← Py.index_neg shortest_path 2;
    Some (bool_decide (entry coxeter_matrix left_end left_almost_end = 4
                       ∨ entry coxeter_matrix right_end right_almost_end = 4))
  else
    if negb (GraphServices.is_tree G0) then Some false else
    let ecc := Py.sorted ext_leb (GraphServices.eccentricity G0) in
    e1 ← Py.index_neg ecc 1;
    if bool_decide (e1 = Num (l - 1)) then Some true else
    e3 ← Py.index_neg ecc 3;
    if bool_decide (e3 = Num (l - 2)) then Some true else
    if bool_decide (l ≤ 8)%nat then
      e2 ← Py.index_neg ecc 2;
      if bool_decide (e2 = Num (l - 2)) then
        e5 ← Py.index_neg ecc 5;
        Some (bool_decide (e5 = Num (l - 3)))
      else Some false
    else Some false.

(** The loop body: is the component [comp] one of the finite-type
    diagrams? *)
Definition component_finite (coxeter_matrix : matrix) (G : graph)
    (comp : list nat) : option bool :=
  match comp with
  | [_] => Some true
  | [c0; c1] => Some (bool_decide (entry coxeter_matrix c0 c1 > 0))
  | [c0; c1; c2] =>
      let s := Py.sorted Z.leb [entry coxeter_matrix c0 c1;
                                entry coxeter_matrix c0 c2;
                                entry coxeter_matrix c1 c2] in
      s0 ← Py.index s 0; s1 ← Py.index s 1; s2 ← Py.index s 2;
      Some (bool_decide (s0 = 2) && bool_decide (s1 = 3)
            && bool_decide (s2 ∈ [3; 4; 5]))
  | [c0; c1; c2; c3] =>
      let u01 := entry coxeter_matrix c0 c1 in
      let u02 := entry coxeter_matrix c0 c2 in
      let u03 := entry coxeter_matrix c0 c3 in
      let u12 := entry coxeter_matrix c1 c2 in
      let u13 := entry coxeter_matrix c1 c3 in
      let u23 := entry coxeter_matrix c2 c3 in
      let s := Py.sorted Z.leb [u01; u02; u03; u12; u13; u23] in
      if bool_decide (take 5 s = [2; 2; 2; 3; 3]) then
        s5 ← Py.index s 5;
        if bool_decide (s5 = 3) then Some true else
        if bool_decide (s5 ∈ [4; 5]) then
          let u0 := u01 + u02 + u03 in
          let u1 := u01 + u12 + u13 in
          let u2 := u02 + u12 + u23 in
          let u3 := u03 + u13 + u23 in
          let ss := Py.sorted Z.leb [u0; u1; u2; u3] in
          Some (bool_decide (ss ∈ [[7; 7; 9; 9]; [7; 8; 8; 9]; [7; 8; 9; 10]]))
        else Some false
      else Some false
  | _ => large_component_finite coxeter_matrix G comp
  end.

(** The loop over the components: [finite] stays [True] as long as every
    component passes, and the first failure ends the loop. *)
Fixpoint finite_loop (coxeter_matrix : matrix) (G : graph)
    (comps : list (list nat)) : option bool :=
  match comps with
  | [] => Some true
  | comp :: rest =>
      b ← component_finite coxeter_matrix G comp;
      if b : bool then finite_loop coxeter_matrix G rest else Some false
  end.

(** The value of [finite] when the loop ends: the finiteness flag. *)
Definition finite (coxeter_matrix : matrix) : option bool :=
  let G := diagram_graph coxeter_matrix in
  finite_loop coxeter_matrix G (GraphServices.connected_components G).

(** The sum of the labels that join the vertex [v] to the other vertices
    of the component [comp]. *)
Definition vertex_label_sum (coxeter_matrix : matrix) (comp : list nat) (v : nat) : Z :=
  foldr Z.add 0 (map (λ w, entry coxeter_matrix v w)
                     (List.filter (λ w, negb (w =? v)%nat) comp)).

(** The [k]-th largest value of a list of eccentricities, for [k >= 1]. *)
Definition kth_largest (k : nat) (l : list ext_nat) : option ext_nat :=
  reverse (Py.sorted ext_leb l) !! (k - 1)%nat.

(** ** Labelled graphs: the Coxeter graph and back *)

Global Instance result_ret : MRet result := λ A a, Ok a.
Global Instance result_bind : MBind result := λ A B f r,
  match r with
  | Ok a => f a
  | ValueError msg => ValueError msg
  end.

(** An edge label of a Sage graph: [None], an integer, or [infinity]. *)
Inductive edge_label : Type :=
  | LabelNone
  | LabelInt (m : Z)
  | LabelInfinity.

(** Modelled from the spec: the labelled graph of section 6 ("vertex set +
    edge set with optional integer labels"), [sage.graphs.graph.Graph],
    which is not under [src/].  A simple undirected graph on integer vertex
    labels: a set of vertices and a dictionary from the edges, each stored
    once as (smaller end, larger end), to their labels. *)
Record lgraph : Type := LGraph {
  lverts : gset Z;
  ledges : gmap (Z * Z) edge_label
}.

Module LabelledGraph.

(** Modelled from the spec: [Graph()], the empty graph. *)
Definition empty : lgraph := LGraph ∅ ∅.

(** Modelled from the spec: [G.add_vertices(vs)]. *)
Definition add_vertices (vs : list Z) (G : lgraph) : lgraph :=
  LGraph (lverts G ∪ list_to_set vs) (ledges G).

(** Modelled from the spec: [G.add_edge(u, v, label)], which adds the two
    ends when they are new and sets the label of the edge. *)
Definition add_edge (u v : Z) (label : edge_label) (G : lgraph) : lgraph :=
  LGraph (lverts G ∪ {[u; v]})
         (<[(Z.min u v, Z.max u v) := label]> (ledges G)).

(** Modelled from the spec: [G.num_verts()] of a labelled graph. *)
Definition num_verts (G : lgraph) : nat := size (lverts G).

(** Modelled from the spec: [G.vertices()], the vertices in increasing
    order (the docstring example of lines 147-153 numbers the rows so). *)
Definition vertices (G : lgraph) : list Z :=
  Py.sorted Z.leb (elements (lverts G)).

(** Order of the edges by their ends. *)
Definition edge_leb (e1 e2 : Z * Z * edge_label) : bool :=
  (e1.1.1 <? e2.1.1) || ((e1.1.1 =? e2.1.1) && (e1.1.2 <=? e2.1.2)).

(** Modelled from the spec: [G.edges()], the triples [(u, v, label)] in
    increasing order. *)
Definition edges (G : lgraph) : list (Z * Z * edge_label) :=
  Py.sorted edge_leb (map_to_list (ledges G)).

End LabelledGraph.

(** [l.index(x)]: the first position of [x]; Python raises [ValueError]
    when there is none. *)
Definition list_index (l : list Z) (x : Z) : result nat :=
  match list_find (λ y, y = x) l with
  | Some (i, _) => Ok i
  | None => ValueError "x is not in list"
  end.

(** [data[i, j] = m]. *)
Definition set_entry (data : matrix) (i j : nat) (m : Z) : matrix :=
  alter (λ row, <[j := m]> row) i data.

(** The label test of the graph branch (lines 232-238). *)
Definition coxeter_label (label : edge_label) : result Z :=
  match label with
  | LabelNone => Ok 3
  | LabelInfinity => Ok (-1)
  | LabelInt m =>
      if bool_decide (m = -1) then Ok (-1)
      else if bool_decide (m <= 1) then ValueError "invalid Coxeter graph label"
      else Ok m
  end.

(** One round of [for e in G.edges()] (lines 231-241). *)
Definition graph_edge_step (verts : list Z) (data : matrix)
    (e : Z * Z * edge_label) : result matrix :=
  m ← coxeter_label e.2;
  i ← list_index verts e.1.1;
  j ← list_index verts e.1.2;
  mret (set_entry (set_entry data j i m) i j m).

(** The [Graph] branch of [__classcall_private__] (lines 221-244). *)
Definition classcall_private_graph (G : lgraph) (index_set : option (list Z))
  : result (matrix * list Z) :=
  let n := LabelledGraph.num_verts G in
  let data0 := map (λ i, map (λ j, if (i =? j)%nat then 1 else 2) (seq 0 n)) (seq 0 n) in
  let verts := LabelledGraph.vertices G in
  data ← foldl (λ r e, data ← r; graph_edge_step verts data e) (Ok data0)
               (LabelledGraph.edges G);
  mret (data, match index_set with
              | Some idx => idx
              | None => LabelledGraph.vertices G
              end).

(** The entries above the diagonal in the order the loops of
    [coxeter_graph] visit them: [(i, i+1+j, val)]. *)
Definition upper_entries (M : matrix) : list (nat * nat * Z) :=
  '(i, row) ← Py.enumerate M;
  '(j, val) ← Py.enumerate (drop (i + 1) row);
  [(i, (i + 1 + j)%nat, val)].

(** The loop body of [coxeter_graph] (lines 540-545); [None] is the
    [IndexError] of [self._index_set[...]]. *)
Definition coxeter_graph_step (index_set : list Z) (G : lgraph)
    (t : nat * nat * Z) : option lgraph :=
  let '(i, k, val) := t in
  if bool_decide (val = 3) then
    u ← index_set !! i; v ← index_set !! k;
    Some (LabelledGraph.add_edge u v LabelNone G)
  else if bool_decide (val > 3) then
    u ← index_set !! i; v ← index_set !! k;
    Some (LabelledGraph.add_edge u v (LabelInt val) G)
  else if bool_decide (val = -1) then
    u ← index_set !! i; v ← index_set !! k;
    Some (LabelledGraph.add_edge u v LabelInfinity G)
  else Some G.

(** [coxeter_graph()] (lines 516-546) of the group with Coxeter matrix [M]
    and the given index set. *)
Definition coxeter_graph (M : matrix) (index_set : list Z) : option lgraph :=
  foldl (λ r t, G ← r; coxeter_graph_step index_set G t)
        (Some (LabelledGraph.add_vertices index_set LabelledGraph.empty))
        (upper_entries M).

(** The edge label [coxeter_graph] gives to a matrix entry, if it adds an
    edge for it at all. *)
Definition diagram_label (val : Z) : option edge_label :=
  if bool_decide (val = 3) then Some LabelNone
  else if bool_decide (val > 3) then Some (LabelInt val)
  else if bool_decide (val = -1) then Some LabelInfinity
  else None.

(** ** Regular supercrystals: [digraph] *)

Section crystal.
Context {X : Type} `{Countable X}.

(** A finite crystal as [digraph] sees it: the elements that iterating
    over [self] yields, the index set, and the lowering operators, with
    [None] for Python's [None].  A lowering operator sends an element of the
    crystal to an element of the crystal. *)
Record crystal : Type := Crystal {
  elements_of : list X;
  index_set_of : list Z;
  f : X → Z → option X;
  f_closed : ∀ x i y, x ∈ elements_of → i ∈ index_set_of →
                      f x i = Some y → y ∈ elements_of
}.

(** Modelled from the spec: the directed graph [DiGraph(d,
    format='dict_of_dicts')] of [sage.graphs.digraph], which is not under
    [src/]: the keys of [d] and of its inner dictionaries are the
    vertices, and [d[x][y]] is the label of the edge from [x] to [y]. *)
Record digraph : Type := DiGraph {
  dvertices : gset X;
  dedges : gset (X * X * Z)
}.

Definition DiGraph_of_dict (d : gmap X (gmap X Z)) : digraph :=
  DiGraph
    (dom d ∪ list_to_set (xdx ← map_to_list d; (map_to_list xdx.2).*1))
    (list_to_set (xdx ← map_to_list d; yl ← map_to_list xdx.2;
                  [(xdx.1, yl.1, yl.2)])).

(** [d = {x: {} for x in self}]. *)
Definition digraph_init (C : crystal) : gmap X (gmap X Z) :=
  dict_of_pairs (map (λ x, (x, ∅)) (elements_of C)).

(** [y = x.f(i)], then [d[x][y] = i] unless [y is None]. *)
Definition digraph_visit (C : crystal) (i : Z) (d : gmap X (gmap X Z)) (x : X)
  : gmap X (gmap X Z) :=
  match f C x i with
  | Some y => alter (λ dx, <[y := i]> dx) x d
  | None => d
  end.

(** The effect of one visit on the inner dictionary [d[x]]. *)
Definition digraph_row_update (C : crystal) (i : Z) (x : X) (dx : gmap X Z)
  : gmap X Z :=
  match f C x i with
  | Some y => <[y := i]> dx
  | None => dx
  end.

(** The two nested loops of [digraph] (lines 52-56). *)
Definition digraph_dict (C : crystal) : gmap X (gmap X Z) :=
  foldl (λ d i, foldl (digraph_visit C i) d (map_to_list d).*1)
        (digraph_init C) (index_set_of C).

(** [digraph()] (lines 38-74), without the presentation options. *)
Definition crystal_digraph (C : crystal) : digraph :=
  DiGraph_of_dict (digraph_dict C).

(** The last index of the index set that lowers [x] to [y]. *)
Definition last_index_to (C : crystal) (x y : X) : option Z :=
  last (List.filter (λ i, bool_decide (f C x i = Some y)) (index_set_of C)).
End crystal.

Arguments crystal X : clear implicits.
Arguments digraph X {_ _}.

(** Two elements and two indices that both lower the first element to the
    second. *)
Definition two_arrows : crystal nat :=
  Crystal [0; 1]%nat [1; 2] (λ x _, if (x =? 0)%nat then Some 1%nat else None)
    ltac:(intros x i y _ _ Hf; cbv beta in Hf;
          destruct (x =? 0)%nat; [|discriminate Hf];
          injection Hf as <-; apply list_elem_of_In; simpl; tauto).

(** Two elements and a single arrow, with label 2. *)
Definition one_arrow : crystal nat :=
  Crystal [0; 1]%nat [1; 2]
    (λ x i, if (x =? 0)%nat && (i =? 2) then Some 1%nat else None)
    ltac:(intros x i y _ _ Hf; cbv beta in Hf;
          destruct ((x =? 0)%nat && (i =? 2));
          [|discriminate Hf];
          injection Hf as <-; apply list_elem_of_In; simpl; tauto).

(** Modelled from the spec: [A.transpose()] of the generic matrix services
    (section 6), for an [n] by [n] matrix. *)
Definition matrix_transpose (n : nat) (A : rmatrix) : rmatrix :=
  mk_matrix n (λ i j, rentry A j i).

(** ** Queries and element operations (lines 587-664) *)

(** [simple_reflection(i)] (lines 587-613): [ValueError] when [i] is not in
    the index set, otherwise [self.gen(self._index_set.index(i))].  The
    inner [None] is the [IndexError] of [gen] for a position beyond the
    generators, which an index set longer than the matrix can cause. *)
Definition simple_reflection (coxeter_matrix : matrix) (index_set : list Z) (i : Z)
  : result (option rmatrix) :=
  if bool_decide (i ∉ index_set) then ValueError "i is not in the index set"
  else k ← list_index index_set i; mret (gens coxeter_matrix !! k).

(** [x <= y] on the base ring. *)
Definition Rleb (x y : R) : bool := if Rle_dec x y then true else false.

(** Modelled from the spec: [A.column(k)] of the generic matrix services
    (section 6), for an [n] by [n] matrix; [None] is its [IndexError]. *)
Definition column (n : nat) (A : rmatrix) (k : nat) : option (list R) :=
  if bool_decide (k < n)%nat then Some (map (λ a, rentry A a k) (seq 0 n))
  else None.

(** [Element.has_right_descent(i)] (lines 619-647) for the element with
    matrix [w]: the position of [i] in the index set ([ValueError] when it
    is missing), then [all(x <= 0 for x in col)] on that column. *)
Definition has_right_descent (n : nat) (index_set : list Z) (w : rmatrix) (i : Z)
  : result (option bool) :=
  k ← list_index index_set i;
  mret (col ← column n w k; Some (forallb (λ x, Rleb x 0) col)).

(** A simple graph as [add_vertices] and [add_edge] build it from distinct
    ends: every edge joins two vertices and is stored smaller end first. *)
Definition lgraph_wf (G : lgraph) : Prop :=
  ∀ u v lab, ledges G !! (u, v) = Some lab →
             u < v ∧ u ∈ lverts G ∧ v ∈ lverts G.

(** The labels [coxeter_graph] writes: none for 3, the integer above 3,
    [infinity]. *)
Definition canonical_label (lab : edge_label) : Prop :=
  match lab with
  | LabelNone | LabelInfinity => True
  | LabelInt m => 3 < m
  end.

(** ** Regular supercrystals: [epsilon] and [phi] *)

(** The loop shared by [epsilon] and [phi] (lines 150-168): apply the
    operator until it returns [None] and count the successful applications.
    [fuel] bounds the number of rounds; the result [None] means that the
    loop is still running after [fuel] rounds. *)
Fixpoint string_length_loop {X : Type} (op : X → option X) (fuel : nat) (x : X)
    (string_length : nat) : option nat :=
  match fuel with
  | O => None
  | S fuel' =>
      match op x with
      | None => Some string_length
      | Some x' => string_length_loop op fuel' x' (S string_length)
      end
  end.

(** [x.epsilon(i)] (lines 150-158), for the raising operators [e]. *)
Definition epsilon {X : Type} (e : X → Z → option X) (fuel : nat) (x : X) (i : Z)
  : option nat :=
  string_length_loop (λ y, e y i) fuel x 0.

(** [x.phi(i)] (lines 160-168), with the lowering operators of the
    crystal. *)
Definition phi {X : Type} (C : crystal X) (fuel : nat) (x : X) (i : Z) : option nat :=
  string_length_loop (λ y, f C y i) fuel x 0.

(** [k] successive applications of an operator, [None] as soon as one of
    them returns [None]. *)
Fixpoint apply_times {X : Type} (op : X → option X) (k : nat) (x : X) : option X :=
  match k with
  | O => Some x
  | S k' => op x ≫= apply_times op k'
  end.

(** The position of the pair [(i, j)], [i < j], in the enumeration
    [for j in range(l) for i in range(j)] of [mentries] is
    [tri j + i]. *)
Fixpoint tri (b : nat) : nat :=
  match b with O => O | S b' => (tri b' + b')%nat end.

(* ===================================================================== *)
(** * Part II: theorems *)
(* ===================================================================== *)

Lemma squareb_spec n M : squareb n M = true ↔ square n M.
Proof.
  unfold squareb, square. rewrite andb_true_iff, Nat.eqb_eq, forallb_forall, Forall_forall.
  split; intros [H1 H2]; split; auto; intros x Hx.
  - apply Nat.eqb_eq, H2. by apply list_elem_of_In.
  - apply Nat.eqb_eq, H2. by apply list_elem_of_In.
Qed.

(** ** Matrix access *)

Lemma entry_lookup M i j row :
  M !! i = Some row → entry M i j = default 0 (row !! j).
Proof.
  intros Hrow. unfold entry. rewrite (nth_lookup M i), Hrow. simpl.
  apply nth_lookup.
Qed.

Lemma square_row n M i :
  square n M → (i < n)%nat → ∃ row, M !! i = Some row ∧ length row = n.
Proof.
  intros [Hlen Hrows] Hi.
  destruct (lookup_lt_is_Some_2 M i) as [row Hrow]; [lia|].
  exists row. split; [done|].
  rewrite Forall_forall in Hrows. apply Hrows.
  apply list_elem_of_lookup. eauto.
Qed.

Lemma lookup_enumerate {A} (l : list A) i x :
  Py.enumerate l !! i = Some x ↔ ∃ a, x = (i, a) ∧ l !! i = Some a.
Proof.
  unfold Py.enumerate. rewrite lookup_zip_with_Some. split.
  - intros (k & a & -> & Hk & Ha). apply lookup_seq in Hk as [-> _]. eauto.
  - intros (a & -> & Ha). exists i, a. split_and!; [done| |done].
    apply lookup_seq. split; [done|]. by apply lookup_lt_Some in Ha.
Qed.

(** ** Validation of a literal matrix *)

Lemma is_symmetric_spec n M :
  square n M →
  is_symmetric M = true ↔
  ∀ i j, (i < n)%nat → (j < n)%nat → entry M i j = entry M j i.
Proof.
  intros [Hlen _]. unfold is_symmetric, nrows. rewrite Hlen. split.
  - intros H i j Hi Hj.
    rewrite forallb_forall in H.
    destruct (Nat.lt_total i j) as [Hlt|[->|Hlt]]; [|done|].
    + symmetry. specialize (H j). rewrite forallb_forall in H.
      apply Z.eqb_eq, H; apply in_seq; lia.
    + specialize (H i). rewrite forallb_forall in H.
      apply Z.eqb_eq, H; apply in_seq; lia.
  - intros H. apply forallb_forall. intros i Hi%in_seq.
    apply forallb_forall. intros j Hj%in_seq.
    apply Z.eqb_eq, H; lia.
Qed.

Lemma diagonal_bad_spec n M :
  square n M →
  existsb (λ d, negb (d =? 1)) (diagonal M) = true ↔
  ∃ i, (i < n)%nat ∧ entry M i i ≠ 1.
Proof.
  intros [Hlen _]. unfold diagonal, nrows. rewrite Hlen, existsb_exists. split.
  - intros (d & Hd & Hne). apply in_map_iff in Hd as (i & <- & Hi%in_seq).
    exists i. split; [lia|]. by apply Z.eqb_neq, negb_true_iff.
  - intros (i & Hi & Hne). exists (entry M i i). split.
    + apply in_map_iff. exists i. split; [done|]. apply in_seq. lia.
    + by apply negb_true_iff, Z.eqb_neq.
Qed.

Lemma upper_bad_spec n M :
  square n M →
  existsb (λ '(i, row),
             existsb (λ val, (val <=? 1) && negb (val =? -1)) (drop (i + 1) row))
          (Py.enumerate M) = true ↔
  ∃ i j, (i < j)%nat ∧ (j < n)%nat ∧ entry M i j <= 1 ∧ entry M i j ≠ -1.
Proof.
  intros Hsq. rewrite existsb_exists. split.
  - intros ([i row] & Hin & Hex).
    apply list_elem_of_In, list_elem_of_lookup in Hin as [k Hk].
    apply lookup_enumerate in Hk as (row' & [= -> ->] & Hrow).
    apply existsb_exists in Hex as (val & Hval & Hbad).
    apply list_elem_of_In, list_elem_of_lookup in Hval as [d Hd].
    rewrite lookup_drop in Hd.
    assert (Hk : (k < n)%nat).
    { destruct Hsq as [<- _]. by apply lookup_lt_Some in Hrow. }
    destruct (square_row n M k Hsq Hk) as (row'' & Hrow'' & Hlen).
    assert (row'' = row') as -> by congruence.
    exists k, (k + 1 + d)%nat. split_and!.
    + lia.
    + apply lookup_lt_Some in Hd. lia.
    + rewrite (entry_lookup M k _ row' Hrow), Hd. simpl.
      apply andb_true_iff in Hbad as [H1 _]. by apply Z.leb_le.
    + rewrite (entry_lookup M k _ row' Hrow), Hd. simpl.
      apply andb_true_iff in Hbad as [_ H2]. by apply Z.eqb_neq, negb_true_iff.
  - intros (i & j & Hij & Hj & Hle & Hne).
    destruct (square_row n M i Hsq) as (row & Hrow & Hlen); [lia|].
    exists (i, row). split.
    + apply list_elem_of_In, list_elem_of_lookup. exists i.
      apply lookup_enumerate. eauto.
    + apply existsb_exists. exists (entry M i j). split.
      * apply list_elem_of_In, list_elem_of_lookup. exists (j - (i + 1))%nat.
        rewrite lookup_drop. replace (i + 1 + (j - (i + 1)))%nat with j by lia.
        rewrite (entry_lookup M i j row Hrow).
        destruct (lookup_lt_is_Some_2 row j) as [v Hv]; [lia|]. by rewrite Hv.
      * apply andb_true_iff. split; [by apply Z.leb_le|].
        by apply negb_true_iff, Z.eqb_neq.
Qed.

(** C9.  Building a group from a literal square integer matrix raises a
    validation error exactly when the matrix is not symmetric, or a diagonal
    entry differs from 1, or an off-diagonal entry is at most 1 without
    being the infinity sentinel -1; otherwise the validation stage returns
    the matrix (with the requested or the default index set). *)
Theorem classcall_matrix_error_iff (n : nat) (data : matrix) (index_set : option (list Z)) :
  square n data →
  ((∃ msg, classcall_private_matrix data index_set = ValueError msg) ↔
     (¬ (∀ i j, (i < n)%nat → (j < n)%nat → entry data i j = entry data j i)
      ∨ (∃ i, (i < n)%nat ∧ entry data i i ≠ 1)
      ∨ (∃ i j, (i < n)%nat ∧ (j < n)%nat ∧ i ≠ j ∧
                entry data i j <= 1 ∧ entry data i j ≠ -1)))
  ∧ ((∀ i j, (i < n)%nat → (j < n)%nat → entry data i j = entry data j i) →
     (∀ i, (i < n)%nat → entry data i i = 1) →
     (∀ i j, (i < n)%nat → (j < n)%nat → i ≠ j →
             ¬ (entry data i j <= 1 ∧ entry data i j ≠ -1)) →
     ∃ idx, classcall_private_matrix data index_set = Ok (data, idx)).
Proof.
  intros Hsq.
  pose proof (is_symmetric_spec n data Hsq) as Hsym.
  pose proof (diagonal_bad_spec n data Hsq) as Hdiag.
  pose proof (upper_bad_spec n data Hsq) as Hup.
  unfold classcall_private_matrix.
  destruct (is_symmetric data) eqn:Es; simpl.
  2:{ split.
      - split; [|eauto]. intros _. left. intros H. apply Hsym in H. done.
      - intros H. apply Hsym in H. done. }
  assert (Hs : ∀ i j, (i < n)%nat → (j < n)%nat → entry data i j = entry data j i)
    by by apply Hsym.
  destruct (existsb _ (diagonal data)) eqn:Ed.
  { split.
    - split; [|eauto]. intros _. right. left. by apply Hdiag.
    - intros _ H _. destruct Hdiag as [Hd _].
      destruct Hd as (i & Hi & Hne); [done|]. by specialize (H i Hi). }
  destruct (existsb _ (Py.enumerate data)) eqn:Eu.
  { destruct Hup as [Hu _]. destruct Hu as (i & j & Hij & Hj & Hle & Hne); [done|].
    split.
    - split; [|eauto]. intros _. right. right. exists i, j.
      split_and!; [lia|done|lia|done|done].
    - intros _ _ H. exfalso. apply (H i j); [lia|done|lia|done]. }
  split.
  - split.
    + intros [msg Hmsg]. discriminate.
    + intros [H|[H|H]].
      * done.
      * apply Hdiag in H. congruence.
      * destruct H as (i & j & Hi & Hj & Hne & Hle & Hinf).
        assert (false = true) as Habs; [|discriminate Habs].
        apply Hup.
        destruct (Nat.lt_total i j) as [Hlt|[->|Hlt]]; [|done|].
        -- exists i, j. done.
        -- exists j, i. rewrite <- (Hs i j) by done. done.
  - intros _ _ _. eauto.
Qed.

(** The matrix of type H_3, with the default index set, passes validation. *)
Lemma classcall_matrix_error_iff_witness :
  ∃ idx, classcall_private_matrix [[1;3;2];[3;1;5];[2;5;1]] None
         = Ok ([[1;3;2];[3;1;5];[2;5;1]], idx).
Proof.
  destruct (classcall_matrix_error_iff 3 [[1;3;2];[3;1;5];[2;5;1]] None) as [_ H].
  - apply squareb_spec. reflexivity.
  - apply H.
    + intros i j Hi Hj.
      destruct i as [|[|[|i]]]; destruct j as [|[|[|j]]]; try lia; reflexivity.
    + intros i Hi. destruct i as [|[|[|i]]]; try lia; reflexivity.
    + intros i j Hi Hj Hne.
      destruct i as [|[|[|i]]]; destruct j as [|[|[|j]]]; try lia;
        cbv [entry nth]; lia.
Defined.

(** ** Dictionaries built from lists of pairs *)

Section dict_of_pairs.
Context `{Countable K} {V : Type}.
Implicit Types (l : list (K * V)) (k : K) (v : V).

Lemma dict_of_pairs_snoc l k v :
  dict_of_pairs (l ++ [(k, v)]) = <[k := v]> (dict_of_pairs l).
Proof. unfold dict_of_pairs. by rewrite foldl_app. Qed.

Lemma dict_of_pairs_None l k :
  k ∉ l.*1 → dict_of_pairs l !! k = None.
Proof.
  induction l as [|[k' v'] l IH] using rev_ind; intros Hk.
  - apply lookup_empty.
  - rewrite dict_of_pairs_snoc. rewrite fmap_app in Hk. simpl in Hk.
    rewrite lookup_insert_ne; [apply IH|]; set_solver.
Qed.

Lemma dict_of_pairs_Some l k v :
  NoDup l.*1 → (k, v) ∈ l → dict_of_pairs l !! k = Some v.
Proof.
  induction l as [|[k' v'] l IH] using rev_ind; intros Hnd Hin.
  - by apply elem_of_nil in Hin.
  - rewrite dict_of_pairs_snoc. rewrite fmap_app in Hnd. simpl in Hnd.
    apply NoDup_app in Hnd as (Hnd & Hdisj & _).
    apply elem_of_app in Hin as [Hin|Hin].
    + rewrite lookup_insert_ne; [by apply IH|].
      intros ->. apply (Hdisj k); [|set_solver].
      apply list_elem_of_fmap. by exists (k, v).
    + apply list_elem_of_singleton in Hin as [= -> ->].
      apply lookup_insert_eq.
Qed.
End dict_of_pairs.

(** ** Matrices over the coefficient ring *)

Lemma rentry_mk_matrix n f i j :
  (i < n)%nat → (j < n)%nat → rentry (mk_matrix n f) i j = f i j.
Proof.
  intros Hi Hj. unfold rentry, mk_matrix.
  rewrite (nth_lookup _ i), list_lookup_fmap, lookup_seq_lt by done. simpl.
  rewrite (nth_lookup _ j), list_lookup_fmap, lookup_seq_lt by done. done.
Qed.

Lemma mk_matrix_ext n f g :
  (∀ i j, (i < n)%nat → (j < n)%nat → f i j = g i j) →
  mk_matrix n f = mk_matrix n g.
Proof.
  intros Hfg. unfold mk_matrix.
  apply map_ext_in. intros i Hi%in_seq.
  apply map_ext_in. intros j Hj%in_seq.
  apply Hfg; lia.
Qed.

Lemma zip_with_map_same {A B C D} (h : B → C → D) (f : A → B) (g : A → C) l :
  zip_with h (map f l) (map g l) = map (λ x, h (f x) (g x)) l.
Proof. induction l as [|x l IH]; simpl; [done|]. by rewrite IH. Qed.

Lemma matrix_add_mk n f g :
  matrix_add (mk_matrix n f) (mk_matrix n g)
  = mk_matrix n (λ i j, (f i j + g i j)%R).
Proof.
  unfold matrix_add, mk_matrix. rewrite zip_with_map_same.
  apply map_ext. intros i. apply zip_with_map_same.
Qed.

(** A sum with a single non-zero term. *)
Lemma rsum_single (f : nat → R) (s : nat) (l : list nat) :
  NoDup l → s ∈ l → (∀ k, k ∈ l → k ≠ s → f k = 0%R) →
  rsum (map f l) = f s.
Proof.
  induction l as [|k l IH]; intros Hnd Hs Hz.
  - by apply elem_of_nil in Hs.
  - apply NoDup_cons in Hnd as [Hk Hnd]. simpl.
    destruct (decide (k = s)) as [->|Hne].
    + assert (rsum (map f l) = 0%R) as ->; [|lra].
      clear IH Hs Hnd. induction l as [|k l IH]; simpl; [done|].
      rewrite IH.
      * rewrite (Hz k); [lra|set_solver|set_solver].
      * set_solver.
      * intros k' Hk' Hne. apply Hz; set_solver.
    + rewrite (Hz k); [|set_solver|done].
      rewrite IH; [lra|done|set_solver|]. intros k' Hk' Hne'. apply Hz; set_solver.
Qed.

Lemma rsum_plus (f g : nat → R) (l : list nat) :
  rsum (map (λ k, (f k + g k)%R) l) = (rsum (map f l) + rsum (map g l))%R.
Proof. induction l as [|k l IH]; simpl; [lra|]. rewrite IH. lra. Qed.

Lemma rsum_ext (f g : nat → R) (l : list nat) :
  (∀ k, k ∈ l → f k = g k) → rsum (map f l) = rsum (map g l).
Proof.
  intros Hfg. f_equal. apply map_ext_in. intros k Hk. apply Hfg.
  by apply list_elem_of_In.
Qed.

(** ** The reflection representation *)

Lemma val_one : val 1 = (-2)%R.
Proof.
  unfold val. rewrite bool_decide_true by lia.
  replace (PI / 1)%R with PI by (field). rewrite cos_PI. lra.
Qed.

Lemma val_two : val 2 = 0%R.
Proof.
  unfold val. rewrite bool_decide_true by lia.
  rewrite cos_PI2. lra.
Qed.

Lemma val_infinity : val (-1) = 2%R.
Proof. unfold val. by rewrite bool_decide_false by lia. Qed.

Lemma val_finite x : x ≠ -1 → val x = (2 * cos (PI / IZR x))%R.
Proof. intros Hx. unfold val. by rewrite bool_decide_true. Qed.

Lemma val_bound x : (-2 <= val x <= 2)%R.
Proof.
  unfold val. case_bool_decide; [|lra].
  pose proof (COS_bound (PI / IZR x)). lra.
Qed.

(** The sparse summand of the [i]-th generator has row [i] filled with the
    values [val (M[i, j])] and nothing else. *)
Lemma gens_entries_lookup (M : matrix) (n i a b : nat) :
  (b < n)%nat →
  dict_of_pairs (map (λ j, ((i, j), val (entry M i j))) (Py.range n)) !! (a, b)
  = if decide (a = i) then Some (val (entry M i b)) else None.
Proof.
  intros Hb. destruct (decide (a = i)) as [->|Hne].
  - apply dict_of_pairs_Some.
    + rewrite <- list_fmap_compose.
      apply NoDup_fmap_2; [by intros x y [= ->]|apply NoDup_seq].
    + apply list_elem_of_fmap. exists b. split; [done|].
      apply elem_of_seq. lia.
  - apply dict_of_pairs_None. rewrite <- list_fmap_compose.
    intros Hin. apply list_elem_of_fmap in Hin as (j & Hj & _).
    simpl in Hj. congruence.
Qed.

Lemma gens_lookup (M : matrix) (i : nat) :
  (i < nrows M)%nat →
  gens M !! i = Some (mk_matrix (nrows M) (gen_entry M i)).
Proof.
  intros Hi. unfold gens, Py.range.
  rewrite list_lookup_fmap, lookup_seq_lt by done. simpl. f_equal.
  unfold matrix_one, matrix_of_entries. rewrite matrix_add_mk.
  apply mk_matrix_ext. intros a b Ha Hb. unfold gen_entry.
  rewrite gens_entries_lookup by done. by destruct (decide (a = i)).
Qed.

Lemma coxeter_matrix_validb_spec n M :
  coxeter_matrix_validb n M = true → coxeter_matrix_valid n M.
Proof.
  unfold coxeter_matrix_validb. intros [Hsq Hall]%andb_true_iff.
  apply squareb_spec in Hsq.
  assert (Hij : ∀ i j, (i < n)%nat → (j < n)%nat →
    entry M i j = entry M j i ∧
    (if (i =? j)%nat then entry M i i = 1
     else 2 <= entry M i j ∨ entry M i j = -1)).
  { intros i j Hi Hj. rewrite forallb_forall in Hall.
    specialize (Hall i). rewrite forallb_forall in Hall.
    destruct (andb_prop _ _ (Hall ltac:(apply in_seq; lia) j ltac:(apply in_seq; lia)))
      as [H1 H2].
    split; [by apply Z.eqb_eq|].
    destruct (i =? j)%nat; [by apply Z.eqb_eq|].
    apply orb_true_iff in H2 as [H2|H2]; [left; by apply Z.leb_le|right; by apply Z.eqb_eq]. }
  split; [done|..].
  - intros i j Hi Hj. by apply Hij.
  - intros i Hi. destruct (Hij i i Hi Hi) as [_ H]. by rewrite Nat.eqb_refl in H.
  - intros i j Hi Hj Hne. destruct (Hij i j Hi Hj) as [_ H].
    apply Nat.eqb_neq in Hne. by rewrite Hne in H.
Qed.

Lemma valid_nrows n M : coxeter_matrix_valid n M → nrows M = n.
Proof. by intros [[Hlen _] _ _ _]. Qed.

(** C1 (as stated, refuted).  For the Coxeter matrix of type A_2 the first
    generator is not "identity plus a matrix supported on column 0 with a
    zero at (0, 0)": its entry at (0, 0) is [-1]. *)
Lemma gens_column_form_counterexample :
  ¬ (∃ g, gens [[1;3];[3;1]] !! 0%nat = Some g ∧
          ∀ a b, (a < 2)%nat → (b < 2)%nat →
                 rentry g a b = gen_entry_column [[1;3];[3;1]] 0 a b).
Proof.
  intros (g & Hg & Hent).
  rewrite gens_lookup in Hg by (simpl; lia). injection Hg as <-.
  specialize (Hent 0%nat 0%nat ltac:(lia) ltac:(lia)).
  rewrite rentry_mk_matrix in Hent by (simpl; lia).
  unfold gen_entry, gen_entry_column in Hent. simpl in Hent.
  change (entry [[1; 3]; [3; 1]] 0 0) with 1 in Hent.
  rewrite val_one in Hent. lra.
Qed.

(** C1 (amended).  For a valid Coxeter matrix [M] of size [n] and an index
    [i], the [i]-th generator is the identity plus a matrix [C_i] whose
    non-zero entries all lie in row [i]: [C_i[i][j] = 2 cos(pi / M[i][j])]
    for every [j] (the value 2 at the infinity sentinel), the diagonal one
    being [C_i[i][i] = 2 cos(pi) = -2], so that the generator has [-1] at
    [(i, i)]. *)
Theorem gens_row_form (n : nat) (M : matrix) (i : nat) :
  coxeter_matrix_valid n M → (i < n)%nat →
  ∃ g, gens M !! i = Some g ∧
    (∀ a b, (a < n)%nat → (b < n)%nat →
       rentry g a b =
       ((if (a =? b)%nat then 1 else 0) +
        (if decide (a = i) then val (entry M i b) else 0))%R) ∧
    (∀ j, (j < n)%nat → entry M i j ≠ -1 →
       val (entry M i j) = (2 * cos (PI / IZR (entry M i j)))%R) ∧
    (∀ j, (j < n)%nat → entry M i j = -1 → val (entry M i j) = 2%R) ∧
    val (entry M i i) = (-2)%R ∧
    rentry g i i = (-1)%R.
Proof.
  intros Hv Hi. pose proof (valid_nrows n M Hv) as Hn.
  exists (mk_matrix n (gen_entry M i)). split_and!.
  - rewrite <- Hn. apply gens_lookup. lia.
  - intros a b Ha Hb. by rewrite rentry_mk_matrix.
  - intros j _ Hj. by apply val_finite.
  - intros j _ ->. apply val_infinity.
  - rewrite (cm_diag n M Hv i Hi). apply val_one.
  - rewrite rentry_mk_matrix by done. unfold gen_entry.
    rewrite Nat.eqb_refl, decide_True by done.
    rewrite (cm_diag n M Hv i Hi), val_one. lra.
Qed.

Lemma gens_row_form_witness :
  ∃ g, gens [[1;3];[3;1]] !! 0%nat = Some g ∧ rentry g 0 0 = (-1)%R.
Proof.
  destruct (gens_row_form 2 [[1;3];[3;1]] 0) as (g & Hg & _ & _ & _ & _ & Hd).
  - apply coxeter_matrix_validb_spec. reflexivity.
  - lia.
  - exists g. split; [exact Hg|exact Hd].
Defined.

(** C10.  Every generator produced at construction is an involution: its
    square is the identity matrix. *)
Theorem gens_involution (n : nat) (M : matrix) (i : nat) :
  coxeter_matrix_valid n M → (i < n)%nat →
  ∃ g, gens M !! i = Some g ∧ matrix_mul n g g = matrix_one n.
Proof.
  intros Hv Hi. pose proof (valid_nrows n M Hv) as Hn.
  exists (mk_matrix n (gen_entry M i)). split.
  { rewrite <- Hn. apply gens_lookup. lia. }
  unfold matrix_mul, matrix_one. apply mk_matrix_ext. intros a b Ha Hb.
  rewrite (rsum_ext _ (λ k, (gen_entry M i a k * gen_entry M i k b)%R)).
  2:{ intros k Hk%elem_of_seq. by rewrite !rentry_mk_matrix by lia. }
  assert (Hseq : ∀ k, (k < n)%nat → k ∈ seq 0 n) by (intros; apply elem_of_seq; lia).
  pose proof (NoDup_seq 0 n) as Hnd.
  destruct (decide (a = i)) as [->|Hai].
  - (* row [i]: the sum splits into three single-term sums *)
    rewrite (rsum_ext _ (λ k,
      ((if (i =? k)%nat then gen_entry M i k b else 0)
       + ((if (k =? b)%nat then val (entry M i k) else 0)
          + (if (k =? i)%nat then val (entry M i k) * val (entry M i b) else 0)))%R)).
    2:{ intros k _. unfold gen_entry. rewrite decide_True by done.
        destruct (Nat.eqb_spec i k) as [->|Hik].
        - rewrite Nat.eqb_refl, decide_True by done.
          destruct (k =? b)%nat; lra.
        - rewrite decide_False by done.
          destruct (Nat.eqb_spec k i) as [->|_]; [done|].
          destruct (k =? b)%nat; lra. }
    rewrite rsum_plus, rsum_plus.
    rewrite (rsum_single _ i), (rsum_single _ b), (rsum_single _ i); auto.
    + rewrite !Nat.eqb_refl. unfold gen_entry. rewrite decide_True by done.
      rewrite (cm_diag n M Hv i Hi), val_one.
      destruct (i =? b)%nat; lra.
    + intros k _ Hk. apply Nat.eqb_neq in Hk. by rewrite Hk.
    + intros k _ Hk. apply Nat.eqb_neq in Hk. by rewrite Hk.
    + intros k _ Hk. assert (i ≠ k) as Hk'%Nat.eqb_neq by done. by rewrite Hk'.
  - (* any other row is a row of the identity *)
    rewrite (rsum_single _ a); auto.
    + unfold gen_entry. rewrite Nat.eqb_refl, !decide_False by done.
      destruct (a =? b)%nat; lra.
    + intros k _ Hk. unfold gen_entry at 1. rewrite decide_False by done.
      assert (a ≠ k) as Hk'%Nat.eqb_neq by done. rewrite Hk'. lra.
Qed.

Lemma gens_involution_witness :
  ∃ g, gens [[1;3;2];[3;1;5];[2;5;1]] !! 1%nat = Some g
       ∧ matrix_mul 3 g g = matrix_one 3.
Proof.
  apply (gens_involution 3 [[1;3;2];[3;1;5];[2;5;1]] 1).
  - apply coxeter_matrix_validb_spec. reflexivity.
  - lia.
Defined.

(** ** The bilinear form *)

Lemma dict_of_pairs_functional `{Countable K} {V} (l : list (K * V)) k v :
  (∀ k0 v1 v2, (k0, v1) ∈ l → (k0, v2) ∈ l → v1 = v2) →
  (k, v) ∈ l → dict_of_pairs l !! k = Some v.
Proof.
  induction l as [|[k' v'] l IH] using rev_ind; intros Hfun Hin.
  - by apply elem_of_nil in Hin.
  - rewrite dict_of_pairs_snoc.
    destruct (decide (k' = k)) as [->|Hne].
    + rewrite lookup_insert_eq. f_equal.
      apply (Hfun k); [set_solver|done].
    + rewrite lookup_insert_ne by done. apply IH.
      * intros k0 v1 v2 H1 H2. apply (Hfun k0); set_solver.
      * apply elem_of_app in Hin as [Hin|Hin]; [done|].
        apply list_elem_of_singleton in Hin. congruence.
Qed.

Lemma bilinear_pairs_elem (M : matrix) (n a b : nat) (x : R) :
  ((a, b), x) ∈ (i ← Py.range n; j ← Py.range n;
                 if bool_decide (entry M i j ≠ 2)
                 then [((i, j), (val (entry M i j) / -2)%R)] else [])
  ↔ (a < n)%nat ∧ (b < n)%nat ∧ entry M a b ≠ 2
    ∧ x = (val (entry M a b) / -2)%R.
Proof.
  unfold Py.range. rewrite list_elem_of_bind. split.
  - intros (i & Hin & Hi%elem_of_seq).
    apply list_elem_of_bind in Hin as (j & Hin & Hj%elem_of_seq).
    case_bool_decide as Hne; [|by apply elem_of_nil in Hin].
    apply list_elem_of_singleton in Hin as [= -> -> ->].
    split_and!; [lia|lia|done|done].
  - intros (Ha & Hb & Hne & ->). exists a. split; [|apply elem_of_seq; lia].
    apply list_elem_of_bind. exists b. split; [|apply elem_of_seq; lia].
    rewrite bool_decide_true by done. by apply list_elem_of_singleton.
Qed.

Lemma bilinear_entry (n : nat) (M : matrix) (a b : nat) :
  nrows M = n → (a < n)%nat → (b < n)%nat →
  rentry (bilinear M) a b
  = if decide (entry M a b = 2) then 0%R else (val (entry M a b) / -2)%R.
Proof.
  intros Hn Ha Hb. unfold bilinear, matrix_of_entries. rewrite Hn.
  rewrite rentry_mk_matrix by done.
  destruct (decide (entry M a b = 2)) as [He|He].
  - rewrite dict_of_pairs_None; [done|].
    intros Hin. apply list_elem_of_fmap in Hin as ([[a' b'] x] & [= <- <-] & Hin).
    apply bilinear_pairs_elem in Hin. tauto.
  - erewrite dict_of_pairs_functional; [done| |].
    + intros [a' b'] v1 v2 H1%bilinear_pairs_elem H2%bilinear_pairs_elem.
      destruct H1 as (_ & _ & _ & ->). by destruct H2 as (_ & _ & _ & ->).
    + by apply bilinear_pairs_elem.
Qed.

Lemma bilinear_entry_cos (x : Z) :
  x ≠ -1 →
  (if decide (x = 2) then 0%R else (val x / -2)%R) = (- cos (PI / IZR x))%R.
Proof.
  intros Hx. destruct (decide (x = 2)) as [->|_].
  - rewrite cos_PI2. lra.
  - rewrite val_finite by done. lra.
Qed.

(** C7.  The matrix returned by [bilinear_form()] is symmetric, has ones on
    the diagonal, and off the diagonal has [B[i][j] = -cos(pi / M[i][j])]
    ([-1] at the infinity sentinel), hence entries within [[-1, 1]]. *)
Theorem bilinear_form_spec (n : nat) (M : matrix) :
  coxeter_matrix_valid n M →
  (∀ i j, (i < n)%nat → (j < n)%nat →
     rentry (bilinear_form M) i j = rentry (bilinear_form M) j i)
  ∧ (∀ i, (i < n)%nat → rentry (bilinear_form M) i i = 1%R)
  ∧ (∀ i j, (i < n)%nat → (j < n)%nat → i ≠ j →
       (entry M i j ≠ -1 →
        rentry (bilinear_form M) i j = (- cos (PI / IZR (entry M i j)))%R)
       ∧ (entry M i j = -1 → rentry (bilinear_form M) i j = (-1)%R)
       ∧ (-1 <= rentry (bilinear_form M) i j <= 1)%R).
Proof.
  intros Hv. pose proof (valid_nrows n M Hv) as Hn. unfold bilinear_form.
  split_and!.
  - intros i j Hi Hj. rewrite !(bilinear_entry n) by done.
    by rewrite (cm_sym n M Hv i j).
  - intros i Hi. rewrite (bilinear_entry n) by done.
    rewrite (cm_diag n M Hv i Hi), decide_False by lia.
    rewrite val_one. lra.
  - intros i j Hi Hj Hne. rewrite (bilinear_entry n) by done.
    split; [|split].
    + apply bilinear_entry_cos.
    + intros ->. rewrite decide_False by lia. rewrite val_infinity. lra.
    + destruct (decide (entry M i j = 2)); [lra|].
      pose proof (val_bound (entry M i j)). lra.
Qed.

Lemma bilinear_form_spec_witness :
  rentry (bilinear_form [[1;3;2];[3;1;5];[2;5;1]]) 1 2
  = Ropp (cos (PI / IZR (entry [[1;3;2];[3;1;5];[2;5;1]] 1 2))).
Proof.
  destruct (bilinear_form_spec 3 [[1;3;2];[3;1;5];[2;5;1]]) as (_ & _ & H).
  - apply coxeter_matrix_validb_spec. reflexivity.
  - destruct (H 1%nat 2%nat) as (Hcos & _ & _); [lia|lia|lia|].
    apply Hcos. cbv [entry nth]. lia.
Defined.

(** ** [sorted] *)

Section sorted.
Context {A : Type} (leb : A → A → bool).

Lemma insert_sorted_perm x l : Py.insert_sorted leb x l ≡ₚ x :: l.
Proof.
  induction l as [|y l IH]; simpl; [done|].
  destruct (leb x y); [done|]. rewrite IH. apply Permutation_swap.
Qed.

Lemma sorted_perm l : Py.sorted leb l ≡ₚ l.
Proof.
  induction l as [|x l IH]; simpl; [done|].
  rewrite insert_sorted_perm. by rewrite IH.
Qed.

Lemma sorted_length l : length (Py.sorted leb l) = length l.
Proof. apply Permutation_length, sorted_perm. Qed.

Lemma sorted_elem_of x l : x ∈ Py.sorted leb l ↔ x ∈ l.
Proof. by rewrite sorted_perm. Qed.

Context (R : relation A).
Context (leb_spec : ∀ x y, leb x y = true ↔ R x y).
Context (R_total : ∀ x y, R x y ∨ R y x).

Lemma insert_sorted_HdRel x y l :
  R y x → HdRel R y l → HdRel R y (Py.insert_sorted leb x l).
Proof.
  intros Hyx Hhd. destruct l as [|z l]; simpl; [by constructor|].
  destruct (leb x z); constructor; [done|]. by inversion Hhd.
Qed.

Lemma insert_sorted_Sorted x l :
  Sorted R l → Sorted R (Py.insert_sorted leb x l).
Proof.
  induction 1 as [|y l Hl IH Hhd]; simpl.
  - by repeat constructor.
  - destruct (leb x y) eqn:E.
    + apply leb_spec in E. by repeat constructor.
    + constructor; [done|]. apply insert_sorted_HdRel; [|done].
      destruct (R_total x y) as [Hxy|Hyx]; [|done].
      apply leb_spec in Hxy. congruence.
Qed.

Lemma sorted_Sorted l : Sorted R (Py.sorted leb l).
Proof.
  induction l as [|x l IH]; simpl; [constructor|].
  by apply insert_sorted_Sorted.
Qed.
End sorted.

Lemma StronglySorted_lookup {A} (R : relation A) (s : list A) i j a b :
  StronglySorted R s → (i < j)%nat →
  s !! i = Some a → s !! j = Some b → R a b.
Proof.
  intros Hs. revert i j. induction Hs as [|x s Hs IH Hall]; intros i j Hij Hi Hj.
  - done.
  - destruct j as [|j]; [lia|]. simpl in Hj. destruct i as [|i].
    + injection Hi as ->. rewrite Forall_forall in Hall.
      apply Hall, list_elem_of_lookup. eauto.
    + simpl in Hi. apply (IH i j); [lia|done|done].
Qed.

Lemma sorted_Z_Sorted (l : list Z) : StronglySorted Z.le (Py.sorted Z.leb l).
Proof.
  apply Sorted_StronglySorted; [apply _|].
  apply sorted_Sorted.
  - intros x y. apply Z.leb_le.
  - intros x y. lia.
Qed.

(** Sorting forgets the order of its input. *)
Lemma sorted_Z_perm_eq (l1 l2 : list Z) :
  l1 ≡ₚ l2 → Py.sorted Z.leb l1 = Py.sorted Z.leb l2.
Proof.
  intros Hp. apply (Sorted_unique Z.le).
  - apply StronglySorted_Sorted, sorted_Z_Sorted.
  - apply StronglySorted_Sorted, sorted_Z_Sorted.
  - by rewrite !sorted_perm.
Qed.

Lemma sorted_Z_le (l : list Z) i j a b :
  (i <= j)%nat → Py.sorted Z.leb l !! i = Some a →
  Py.sorted Z.leb l !! j = Some b → a <= b.
Proof.
  intros Hij Hi Hj. destruct (decide (i = j)) as [->|Hne].
  - assert (a = b) by congruence. lia.
  - apply (StronglySorted_lookup Z.le _ i j a b (sorted_Z_Sorted l)); [lia|done|done].
Qed.

Lemma index_neg_lookup {A} (l : list A) k :
  (1 <= k <= length l)%nat → Py.index_neg l k = l !! (length l - k)%nat.
Proof. intros Hk. unfold Py.index_neg. by rewrite bool_decide_true. Qed.

Lemma index_neg_is_Some {A} (l : list A) k :
  (1 <= k <= length l)%nat → is_Some (Py.index_neg l k).
Proof.
  intros Hk. rewrite index_neg_lookup by done.
  apply lookup_lt_is_Some_2. lia.
Qed.

Lemma index_neg_Some {A} (l : list A) k x :
  Py.index_neg l k = Some x →
  (1 <= k <= length l)%nat ∧ l !! (length l - k)%nat = Some x.
Proof. unfold Py.index_neg. case_bool_decide; [done|discriminate]. Qed.

(** ** The finiteness flag on the reference matrices *)

(** C2 (as stated, refuted).  The four reference classifications do not
    all hold: the matrix with labels 6, 3, 10 is classified infinite. *)
Lemma finite_reference_cases_counterexample :
  ¬ (finite [[1;3];[3;1]] = Some true
     ∧ finite [[1;3;2];[3;1;3];[2;3;1]] = Some true
     ∧ finite [[1;6;3];[6;1;10];[3;10;1]] = Some true
     ∧ finite [[1;-1];[-1;1]] = Some false).
Proof. intros (_ & _ & H & _). vm_compute in H. discriminate H. Qed.

(** C2 (amended).  The group of [[1,3],[3,1]] and the group of
    [[1,3,2],[3,1,3],[2,3,1]] are classified finite; the group of
    [[1,6,3],[6,1,10],[3,10,1]] and the group of [[1,-1],[-1,1]] are
    classified infinite. *)
Theorem finite_reference_cases :
  finite [[1;3];[3;1]] = Some true
  ∧ finite [[1;3;2];[3;1;3];[2;3;1]] = Some true
  ∧ finite [[1;6;3];[6;1;10];[3;10;1]] = Some false
  ∧ finite [[1;-1];[-1;1]] = Some false.
Proof. split_and!; reflexivity. Qed.

(** ** Components with four vertices *)

Lemma NoDup_four {A} (a b c d : A) :
  NoDup [a; b; c; d] → a ≠ b ∧ a ≠ c ∧ a ≠ d ∧ b ≠ c ∧ b ≠ d ∧ c ≠ d.
Proof.
  rewrite !NoDup_cons, !elem_of_cons. intros (Ha & Hb & Hc & _).
  split_and!; intros ->; tauto.
Qed.

Lemma vertex_label_sums_four (n : nat) (M : matrix) (c0 c1 c2 c3 : nat) :
  coxeter_matrix_valid n M →
  (c0 < n)%nat → (c1 < n)%nat → (c2 < n)%nat → (c3 < n)%nat →
  NoDup [c0; c1; c2; c3] →
  map (vertex_label_sum M [c0; c1; c2; c3]) [c0; c1; c2; c3]
  = [entry M c0 c1 + entry M c0 c2 + entry M c0 c3;
     entry M c0 c1 + entry M c1 c2 + entry M c1 c3;
     entry M c0 c2 + entry M c1 c2 + entry M c2 c3;
     entry M c0 c3 + entry M c1 c3 + entry M c2 c3].
Proof.
  intros Hv H0 H1 H2 H3 Hnd.
  destruct (NoDup_four _ _ _ _ Hnd) as (N01 & N02 & N03 & N12 & N13 & N23).
  assert (∀ x y : nat, x ≠ y → (x =? y)%nat = false) as Hneq
    by (intros x y Hxy; by apply Nat.eqb_neq).
  unfold vertex_label_sum. simpl.
  rewrite !Nat.eqb_refl.
  rewrite (Hneq c1 c0), (Hneq c2 c0), (Hneq c3 c0), (Hneq c0 c1), (Hneq c2 c1),
    (Hneq c3 c1), (Hneq c0 c2), (Hneq c1 c2), (Hneq c3 c2), (Hneq c0 c3),
    (Hneq c1 c3), (Hneq c2 c3) by done.
  simpl.
  rewrite (cm_sym n M Hv c1 c0), (cm_sym n M Hv c2 c0), (cm_sym n M Hv c2 c1),
    (cm_sym n M Hv c3 c0), (cm_sym n M Hv c3 c1), (cm_sym n M Hv c3 c2) by done.
  f_equal; [lia|]. f_equal; [lia|]. f_equal; [lia|]. f_equal; lia.
Qed.

Lemma mentries_four (M : matrix) (c0 c1 c2 c3 : nat) :
  mentries M [c0; c1; c2; c3]
  ≡ₚ [entry M c0 c1; entry M c0 c2; entry M c0 c3;
      entry M c1 c2; entry M c1 c3; entry M c2 c3].
Proof.
  change (mentries M [c0; c1; c2; c3])
    with [entry M c0 c1; entry M c0 c2; entry M c1 c2;
          entry M c0 c3; entry M c1 c3; entry M c2 c3].
  do 2 apply Permutation_skip. apply Permutation_swap.
Qed.

(** C3.  A component with exactly four vertices is accepted as finite-type
    if and only if its six pairwise labels, sorted, begin with
    [2, 2, 2, 3, 3] and either end with 3, or end with 4 or 5 while the
    sorted per-vertex sums of the three labels at each vertex are
    [7, 7, 9, 9], [7, 8, 8, 9] or [7, 8, 9, 10]. *)
Theorem component_finite_four (n : nat) (M : matrix) (G : graph) (c0 c1 c2 c3 : nat) :
  coxeter_matrix_valid n M →
  (c0 < n)%nat → (c1 < n)%nat → (c2 < n)%nat → (c3 < n)%nat →
  NoDup [c0; c1; c2; c3] →
  let comp := [c0; c1; c2; c3] in
  let s := Py.sorted Z.leb (mentries M comp) in
  let ss := Py.sorted Z.leb (map (vertex_label_sum M comp) comp) in
  ∃ b, component_finite M G comp = Some b ∧
    (b = true ↔
       take 5 s = [2; 2; 2; 3; 3] ∧
       (s !! 5%nat = Some 3 ∨
        ((s !! 5%nat = Some 4 ∨ s !! 5%nat = Some 5) ∧
         (ss = [7; 7; 9; 9] ∨ ss = [7; 8; 8; 9] ∨ ss = [7; 8; 9; 10])))).
Proof.
  intros Hv H0 H1 H2 H3 Hnd comp s ss. subst comp s ss.
  rewrite (sorted_Z_perm_eq _ _ (mentries_four M c0 c1 c2 c3)).
  rewrite (vertex_label_sums_four n M c0 c1 c2 c3) by done.
  unfold component_finite, Py.index.
  set (s := Py.sorted Z.leb _).
  set (ss := Py.sorted Z.leb [_; _; _; _]).
  assert (Hlen : length s = 6%nat) by (unfold s; by rewrite sorted_length).
  destruct (lookup_lt_is_Some_2 s 5) as [s5 Hs5]; [lia|]. rewrite Hs5.
  case_bool_decide as Htake; simpl.
  2:{ exists false. split; [done|]. split; [done|]. tauto. }
  case_bool_decide as H53.
  { subst s5. exists true. split; [done|]. split; [|done]. intros _. eauto. }
  case_bool_decide as H545.
  - eexists. split; [done|]. rewrite bool_decide_eq_true.
    rewrite !elem_of_cons, elem_of_nil. split.
    + intros Hss. split; [done|]. right. split.
      * rewrite !elem_of_cons, elem_of_nil in H545.
        destruct H545 as [->|[->|[]]]; eauto.
      * tauto.
    + intros (_ & [[= ?]|[_ Hss]]); [done|]. tauto.
  - exists false. split; [done|]. split; [done|].
    intros (_ & [[= ?]|[Hs _]]); [done|]. exfalso. apply H545.
    rewrite !elem_of_cons. destruct Hs as [[= ->]|[= ->]]; eauto.
Qed.

(** The component {0, 1, 2, 3} of the Coxeter matrix of type F_4. *)
Lemma component_finite_four_witness :
  ∃ b, component_finite [[1;3;2;2];[3;1;4;2];[2;4;1;3];[2;2;3;1]]
         (diagram_graph [[1;3;2;2];[3;1;4;2];[2;4;1;3];[2;2;3;1]])
         [0; 1; 2; 3]%nat = Some b.
Proof.
  destruct (component_finite_four 4 [[1;3;2;2];[3;1;4;2];[2;4;1;3];[2;2;3;1]]
              (diagram_graph [[1;3;2;2];[3;1;4;2];[2;4;1;3];[2;2;3;1]])
              0 1 2 3) as (b & Hb & _).
  - apply coxeter_matrix_validb_spec. reflexivity.
  - lia.
  - lia.
  - lia.
  - lia.
  - apply (bool_decide_unpack _). vm_compute. exact I.
  - exists b. exact Hb.
Defined.

(** ** The graph services on the diagram graph *)

Section graph_services.
Import GraphServices.
Implicit Types (G : graph) (u v w : nat).

Lemma ball_is_filter G u k :
  ∃ Q, ball G u k = List.filter Q (vertices G).
Proof. destruct k as [|k]; simpl; eauto. Qed.

Lemma ball_subset G u k w : w ∈ ball G u k → w ∈ vertices G.
Proof.
  destruct (ball_is_filter G u k) as [Q ->].
  intros Hw%list_elem_of_In%filter_In. apply list_elem_of_In, Hw.
Qed.

Lemma ball_centre G u k : u ∈ vertices G → u ∈ ball G u k.
Proof.
  intros Hu. induction k as [|k IH].
  - apply list_elem_of_In, filter_In. split; [by apply list_elem_of_In|].
    apply Nat.eqb_refl.
  - change (ball G u (S k)) with (grow G (ball G u k)).
    apply list_elem_of_In, filter_In. split; [by apply list_elem_of_In|].
    by rewrite bool_decide_true.
Qed.

Lemma ball_zero G u w : w ∈ ball G u 0 → w = u.
Proof. intros Hw%list_elem_of_In%filter_In. by apply Nat.eqb_eq, Hw. Qed.

Lemma components_from_elem G vs seen c :
  c ∈ components_from G vs seen →
  ∃ v, v ∈ vs ∧ c = connected_component_containing_vertex G v.
Proof.
  revert seen. induction vs as [|v vs IH]; intros seen Hc; simpl in Hc.
  - by apply elem_of_nil in Hc.
  - case_bool_decide.
    + destruct (IH _ Hc) as (v' & Hv' & ->). exists v'. set_solver.
    + apply elem_of_cons in Hc as [->|Hc].
      * exists v. set_solver.
      * destruct (IH _ Hc) as (v' & Hv' & ->). exists v'. set_solver.
Qed.

Lemma connected_components_elem G c :
  c ∈ connected_components G →
  ∃ v, v ∈ vertices G ∧ c = connected_component_containing_vertex G v.
Proof.
  unfold connected_components. rewrite sorted_elem_of.
  apply components_from_elem.
Qed.

(** A component is a non-empty selection of the vertex list. *)
Lemma connected_components_filter G c :
  c ∈ connected_components G →
  c ≠ [] ∧ ∃ Q, c = List.filter Q (vertices G).
Proof.
  intros (v & Hv & ->)%connected_components_elem. split.
  - intros Hnil. pose proof (ball_centre G v (length (vertices G)) Hv) as Hin.
    unfold connected_component_containing_vertex in Hnil.
    rewrite Hnil in Hin. by apply elem_of_nil in Hin.
  - apply ball_is_filter.
Qed.

Lemma subgraph_vertices_filter G Q :
  vertices (subgraph G (List.filter Q (vertices G))) = List.filter Q (vertices G).
Proof.
  simpl. apply filter_ext_in. intros v Hv.
  destruct (Q v) eqn:E.
  - apply bool_decide_eq_true, list_elem_of_In, filter_In. done.
  - apply bool_decide_eq_false. intros Hin%list_elem_of_In%filter_In.
    destruct Hin. congruence.
Qed.

Lemma distance_zero G u w : distance G u w = Some 0%nat → w = u.
Proof.
  intros [_ Hw]%find_some. apply bool_decide_eq_true in Hw.
  by apply ball_zero in Hw.
Qed.

Lemma path_back_length G u d w : length (path_back G u d w) = S d.
Proof.
  revert w. induction d as [|d IH]; intros w; simpl; [done|].
  rewrite length_app, IH. simpl. lia.
Qed.

Lemma ext_max_Num a b k :
  ext_max a b = Num k → (∃ x, a = Num x) ∧ (∃ y, b = Num y).
Proof. destruct a, b; unfold ext_max; simpl; try case_match; intros; simplify_eq; eauto. Qed.

Lemma diameter_Num G k v :
  diameter G = Num k → v ∈ vertices G → ∃ x, eccentricity_of G v = Num x.
Proof.
  unfold diameter, eccentricity. generalize (vertices G). intros vs. revert k.
  induction vs as [|v' vs IH]; intros k Hd Hv; simpl in *.
  - by apply elem_of_nil in Hv.
  - apply ext_max_Num in Hd as [Ha [y Hb]].
    apply elem_of_cons in Hv as [->|Hv]; [done|]. by apply (IH y).
Qed.

Lemma eccentricity_of_Num G v k w :
  eccentricity_of G v = Num k → w ∈ vertices G → is_Some (distance G v w).
Proof.
  unfold eccentricity_of. destruct (mapM _ _) as [ds|] eqn:E; [|done].
  intros _ Hw. apply mapM_Some in E.
  apply list_elem_of_lookup in Hw as [i Hi].
  destruct (Forall2_lookup_l _ _ _ _ _ E Hi) as (d & _ & Hd). eauto.
Qed.

(** On a graph of finite diameter a shortest path between two distinct
    vertices has at least two vertices. *)
Lemma shortest_path_length G k u w :
  diameter G = Num k → u ∈ vertices G → w ∈ vertices G → u ≠ w →
  (2 <= length (shortest_path G u w))%nat.
Proof.
  intros Hd Hu Hw Hne.
  destruct (diameter_Num G k u Hd Hu) as [x Hx].
  destruct (eccentricity_of_Num G u x w Hx Hw) as [d Hdist].
  unfold shortest_path. rewrite Hdist, path_back_length.
  destruct d; [|lia]. apply distance_zero in Hdist. congruence.
Qed.
End graph_services.

(** ** Totality of the finite-type test *)

Lemma bind_singleton_length {A} (g : nat → A) (l : list nat) :
  length (i ← l; [g i]) = length l.
Proof. induction l as [|x l IH]; csimpl; [done|]. by rewrite IH. Qed.

Lemma pairs_below_length {A} (g : nat → nat → A) (l : nat) :
  (2 * length (j ← seq 0 l; i ← seq 0 j; [g i j]) = l * (l - 1))%nat.
Proof.
  induction l as [|l IH]; [done|].
  rewrite seq_S, bind_app, length_app. csimpl.
  rewrite app_nil_r, bind_singleton_length, length_seq.
  destruct l; simpl in *; lia.
Qed.

Lemma mentries_length M comp :
  (2 * length (mentries M comp) = length comp * (length comp - 1))%nat.
Proof. apply pairs_below_length. Qed.

Lemma mentries_elem M comp m :
  m ∈ mentries M comp ↔
  ∃ i j, (i < j)%nat ∧ (j < length comp)%nat
         ∧ m = entry M (nth i comp 0%nat) (nth j comp 0%nat).
Proof.
  unfold mentries, Py.range. rewrite list_elem_of_bind. split.
  - intros (j & Hin & Hj%elem_of_seq).
    apply list_elem_of_bind in Hin as (i & Hin & Hi%elem_of_seq).
    apply list_elem_of_singleton in Hin. exists i, j. split_and!; [lia|lia|done].
  - intros (i & j & Hij & Hj & ->). exists j. split; [|apply elem_of_seq; lia].
    apply list_elem_of_bind. exists i. split; [|apply elem_of_seq; lia].
    by apply list_elem_of_singleton.
Qed.

Lemma ecc_items_last_two (G : graph) (a b : ext_nat * nat) :
  NoDup (vertices G) →
  let ecc := Py.sorted ecc_item_leb
               (map (λ '(v, u), (u, v)) (GraphServices.eccentricity_items G)) in
  Py.index_neg ecc 1 = Some a → Py.index_neg ecc 2 = Some b →
  a.2 ∈ vertices G ∧ b.2 ∈ vertices G ∧ a.2 ≠ b.2.
Proof.
  intros Hnd ecc Ha Hb.
  assert (Hitems : map (λ '(v, u), (u, v)) (GraphServices.eccentricity_items G)
                   = map (λ v, (GraphServices.eccentricity_of G v, v)) (vertices G)).
  { unfold GraphServices.eccentricity_items. rewrite map_map. done. }
  assert (Hshape : ∀ x, x ∈ ecc →
            x.2 ∈ vertices G ∧ x = (GraphServices.eccentricity_of G x.2, x.2)).
  { intros x Hx. unfold ecc in Hx. rewrite sorted_elem_of, Hitems in Hx.
    apply list_elem_of_fmap in Hx as (v & -> & Hv). done. }
  assert (Hnd' : NoDup ecc).
  { unfold ecc. rewrite sorted_perm, Hitems.
    apply NoDup_fmap_2; [by intros x y [= _ ->]|done]. }
  apply index_neg_Some in Ha as [Hka Ha]. apply index_neg_Some in Hb as [Hkb Hb].
  destruct (Hshape a) as [Hav Hae]; [apply list_elem_of_lookup; eauto|].
  destruct (Hshape b) as [Hbv Hbe]; [apply list_elem_of_lookup; eauto|].
  split_and!; [done|done|]. intros Heq.
  assert (a = b) as Hab by congruence. rewrite Hab in Ha.
  pose proof (NoDup_lookup _ _ _ _ Hnd' Ha Hb). lia.
Qed.

Lemma NoDup_List_filter {A} (f : A → bool) (l : list A) :
  NoDup l → NoDup (List.filter f l).
Proof. rewrite !NoDup_ListNoDup. apply List.NoDup_filter. Qed.

Lemma large_component_finite_total (M : matrix) (G : graph) (Q : nat → bool) :
  NoDup (vertices G) →
  let comp := List.filter Q (vertices G) in
  (5 <= length comp)%nat →
  is_Some (large_component_finite M G comp).
Proof.
  intros Hnd comp Hl. unfold large_component_finite.
  pose proof (mentries_length M comp) as Hm.
  assert (Hms : (10 <= length (Py.sorted Z.leb (mentries M comp)))%nat).
  { rewrite sorted_length. nia. }
  set (ms := Py.sorted Z.leb (mentries M comp)) in *.
  set (G0 := GraphServices.subgraph G comp).
  assert (HG0 : vertices G0 = comp) by apply subgraph_vertices_filter.
  assert (Hnd0 : NoDup (vertices G0)).
  { rewrite HG0. unfold comp. by apply NoDup_List_filter. }
  destruct (lookup_lt_is_Some_2 ms 0) as [m0 Hm0]; [lia|].
  unfold Py.index. rewrite Hm0. simpl.
  case_bool_decide; [done|].
  destruct (index_neg_is_Some ms 1) as [m1 Hm1]; [lia|]. rewrite Hm1. simpl.
  case_bool_decide.
  - destruct (index_neg_is_Some ms 2) as [m2 Hm2]; [lia|]. rewrite Hm2. simpl.
    case_bool_decide; [done|]. case_bool_decide; [done|].
    case_bool_decide as Hdiam; [done|].
    set (ecc := Py.sorted ecc_item_leb _).
    assert (Hecc : length ecc = length comp).
    { unfold ecc, GraphServices.eccentricity_items.
      by rewrite sorted_length, !length_map, HG0. }
    destruct (index_neg_is_Some ecc 1) as [a Ha]; [lia|].
    destruct (index_neg_is_Some ecc 2) as [b Hb]; [lia|].
    rewrite Ha, Hb. simpl.
    destruct (ecc_items_last_two G0 a b Hnd0 Ha Hb) as (Hav & Hbv & Hab).
    pose proof (shortest_path_length G0 _ a.2 b.2 Hdiam Hav Hbv Hab) as Hsp.
    destruct (lookup_lt_is_Some_2 (GraphServices.shortest_path G0 a.2 b.2) 1)
      as [x Hx]; [lia|].
    destruct (index_neg_is_Some (GraphServices.shortest_path G0 a.2 b.2) 2)
      as [y Hy]; [lia|].
    rewrite Hx, Hy. simpl. done.
  - destruct (GraphServices.is_tree G0); simpl; [|done].
    set (ecc := Py.sorted ext_leb _).
    assert (Hecc : length ecc = length comp).
    { unfold ecc, GraphServices.eccentricity.
      by rewrite sorted_length, !length_map, HG0. }
    destruct (index_neg_is_Some ecc 1) as [e1 He1]; [lia|].
    destruct (index_neg_is_Some ecc 2) as [e2 He2]; [lia|].
    destruct (index_neg_is_Some ecc 3) as [e3 He3]; [lia|].
    destruct (index_neg_is_Some ecc 5) as [e5 He5]; [lia|].
    rewrite He1. simpl. case_bool_decide; [done|].
    rewrite He3. simpl. case_bool_decide; [done|].
    case_bool_decide; [|done].
    rewrite He2. simpl. case_bool_decide; [|done].
    rewrite He5. simpl. done.
Qed.

Lemma component_finite_total (M : matrix) (comp : list nat) :
  comp ∈ GraphServices.connected_components (diagram_graph M) →
  is_Some (component_finite M (diagram_graph M) comp).
Proof.
  intros (Hne & Q & Hcomp)%connected_components_filter.
  destruct comp as [|c0 [|c1 [|c2 [|c3 [|c4 rest]]]]]; [done|..].
  - by eexists.
  - by eexists.
  - unfold component_finite, Py.index.
    set (s := Py.sorted Z.leb _).
    assert (Hlen : length s = 3%nat) by (unfold s; by rewrite sorted_length).
    destruct (lookup_lt_is_Some_2 s 0) as [s0 ->]; [lia|].
    destruct (lookup_lt_is_Some_2 s 1) as [s1 ->]; [lia|].
    destruct (lookup_lt_is_Some_2 s 2) as [s2 ->]; [lia|].
    by eexists.
  - unfold component_finite, Py.index.
    set (s := Py.sorted Z.leb _).
    assert (Hlen : length s = 6%nat) by (unfold s; by rewrite sorted_length).
    destruct (lookup_lt_is_Some_2 s 5) as [s5 ->]; [lia|]. simpl.
    repeat case_bool_decide; by eexists.
  - change (is_Some (large_component_finite M (diagram_graph M)
                       (c0 :: c1 :: c2 :: c3 :: c4 :: rest))).
    rewrite Hcomp. apply large_component_finite_total.
    + apply NoDup_seq.
    + rewrite <- Hcomp. simpl. lia.
Qed.

Lemma finite_loop_false (M : matrix) (G : graph) (comps : list (list nat)) comp :
  (∀ c, c ∈ comps → is_Some (component_finite M G c)) →
  comp ∈ comps → component_finite M G comp = Some false →
  finite_loop M G comps = Some false.
Proof.
  induction comps as [|c comps IH]; intros Htot Hin Hfalse.
  - by apply elem_of_nil in Hin.
  - simpl. destruct (Htot c) as [b Hb]; [set_solver|]. rewrite Hb. simpl.
    destruct b; [|done].
    apply elem_of_cons in Hin as [->|Hin]; [congruence|].
    apply IH; [|done|done]. intros c' Hc'. apply Htot. set_solver.
Qed.

(** The flag is [True] exactly when every component passes the test. *)
Lemma finite_loop_true (M : matrix) (G : graph) (comps : list (list nat)) :
  finite_loop M G comps = Some true ↔
  ∀ c, c ∈ comps → component_finite M G c = Some true.
Proof.
  induction comps as [|c comps IH]; simpl.
  - split; [|done]. intros _ c Hc. by apply elem_of_nil in Hc.
  - destruct (component_finite M G c) as [[]|] eqn:E; simpl.
    + rewrite IH. split.
      * intros H c' [->|Hc']%elem_of_cons; [done|by apply H].
      * intros H c' Hc'. apply H. set_solver.
    + split; [done|]. intros H. specialize (H c ltac:(set_solver)). congruence.
    + split; [done|]. intros H. specialize (H c ltac:(set_solver)). congruence.
Qed.

(** The finite-type test of [__init__] always runs to completion. *)
Lemma finite_total (M : matrix) : is_Some (finite M).
Proof.
  unfold finite.
  pose proof (component_finite_total M) as Htot.
  induction (GraphServices.connected_components (diagram_graph M)) as [|c comps IH].
  - by eexists.
  - simpl. destruct (Htot c) as [b Hb]; [set_solver|]. rewrite Hb. simpl.
    destruct b; [|by eexists]. apply IH. intros c' Hc'. apply Htot. set_solver.
Qed.

(** ** Rejection of large components by their labels *)

Lemma sorted_Z_first_le (l : list Z) m0 m :
  Py.sorted Z.leb l !! 0%nat = Some m0 → m ∈ l → m0 <= m.
Proof.
  intros H0 Hm. apply (sorted_elem_of Z.leb) in Hm.
  apply list_elem_of_lookup in Hm as [i Hi].
  apply (sorted_Z_le l 0 i); [lia|done|done].
Qed.

Lemma sorted_Z_last_ge (l : list Z) m1 m :
  Py.index_neg (Py.sorted Z.leb l) 1 = Some m1 → m ∈ l → m <= m1.
Proof.
  intros [Hk H1]%index_neg_Some Hm. apply (sorted_elem_of Z.leb) in Hm.
  apply list_elem_of_lookup in Hm as [i Hi].
  apply (sorted_Z_le l i (length (Py.sorted Z.leb l) - 1)); [|done|done].
  apply lookup_lt_Some in Hi. lia.
Qed.

(** Of two entries at distinct positions, the smaller is at most the
    second largest entry. *)
Lemma sorted_Z_second_last_ge (l : list Z) m2 p q a b :
  Py.index_neg (Py.sorted Z.leb l) 2 = Some m2 →
  p ≠ q → l !! p = Some a → l !! q = Some b →
  Z.min a b <= m2.
Proof.
  intros [Hk H2]%index_neg_Some Hpq Hp Hq.
  destruct (proj1 (Permutation_inj l (Py.sorted Z.leb l)))
    as (Hlen & f & Hinj & Hf); [by rewrite sorted_perm|].
  rewrite Hf in Hp, Hq.
  assert (f p ≠ f q) as Hfpq by (intros Heq; by apply Hinj in Heq).
  pose proof (lookup_lt_Some _ _ _ Hp) as Hlp.
  pose proof (lookup_lt_Some _ _ _ Hq) as Hlq.
  destruct (decide (f p < f q)%nat).
  - pose proof (sorted_Z_le l (f p) (length (Py.sorted Z.leb l) - 2) a m2
                  ltac:(lia) Hp H2). lia.
  - pose proof (sorted_Z_le l (f q) (length (Py.sorted Z.leb l) - 2) b m2
                  ltac:(lia) Hq H2). lia.
Qed.

Lemma large_component_reject (M : matrix) (G : graph) (comp : list nat) :
  is_Some (large_component_finite M G comp) →
  (∃ m, m ∈ mentries M comp ∧ m < 0)
  ∨ (∃ p q a b, p ≠ q ∧ mentries M comp !! p = Some a
                ∧ mentries M comp !! q = Some b ∧ a > 3 ∧ b > 3)
  ∨ (∃ m, m ∈ mentries M comp ∧ m > 5) →
  large_component_finite M G comp = Some false.
Proof.
  intros [r Hr] Hbad. rewrite Hr. f_equal. revert Hr.
  unfold large_component_finite, Py.index.
  set (ms := Py.sorted Z.leb (mentries M comp)).
  destruct (ms !! 0%nat) as [m0|] eqn:H0; simpl; [|done].
  case_bool_decide as Hneg; [congruence|].
  destruct (Py.index_neg ms 1) as [m1|] eqn:H1; simpl; [|done].
  assert (Hm1 : m1 > 3 ∧ (m1 > 4 ∨ ∀ m2, Py.index_neg ms 2 = Some m2 → m2 > 3)).
  { destruct Hbad as [(m & Hm & Hlt)|[(p & q & a & b & Hpq & Hp & Hq & Ha & Hb)|(m & Hm & Hgt)]].
    - pose proof (sorted_Z_first_le _ _ _ H0 Hm). lia.
    - assert (a ∈ mentries M comp) as Hain by (apply list_elem_of_lookup; eauto).
      pose proof (sorted_Z_last_ge _ _ _ H1 Hain). split; [lia|]. right.
      intros m2 H2.
      pose proof (sorted_Z_second_last_ge _ _ _ _ _ _ H2 Hpq Hp Hq). lia.
    - pose proof (sorted_Z_last_ge _ _ _ H1 Hm). lia. }
  destruct Hm1 as [Hgt3 Hrest].
  rewrite bool_decide_true by done.
  destruct (Py.index_neg ms 2) as [m2|] eqn:H2; simpl; [|done].
  case_bool_decide as Hm2; [congruence|].
  case_bool_decide as Hm4; [congruence|].
  destruct Hrest as [?|Hall]; [lia|].
  specialize (Hall m2 eq_refl). lia.
Qed.

(** C4.  If a component of the diagram graph with five or more vertices
    carries a negative (infinity) label, or two labels greater than 3, or a
    label greater than 5, the finiteness flag is false. *)
Theorem finite_large_component_reject (n : nat) (M : matrix) (comp : list nat) :
  coxeter_matrix_valid n M →
  comp ∈ GraphServices.connected_components (diagram_graph M) →
  (5 <= length comp)%nat →
  (∃ m, m ∈ mentries M comp ∧ m < 0)
  ∨ (∃ p q a b, p ≠ q ∧ mentries M comp !! p = Some a
                ∧ mentries M comp !! q = Some b ∧ a > 3 ∧ b > 3)
  ∨ (∃ m, m ∈ mentries M comp ∧ m > 5) →
  finite M = Some false.
Proof.
  intros _ Hcomp Hl Hbad. unfold finite.
  apply (finite_loop_false M _ _ comp); [apply component_finite_total|done|].
  pose proof (component_finite_total M comp Hcomp) as Htot.
  destruct comp as [|c0 [|c1 [|c2 [|c3 [|c4 rest]]]]]; simpl in Hl; try lia.
  by apply large_component_reject.
Qed.

(** The component {0, ..., 4} of a path whose last edge carries the
    infinity label. *)
Lemma finite_large_component_reject_witness :
  finite [[1;3;2;2;2];[3;1;3;2;2];[2;3;1;3;2];[2;2;3;1;-1];[2;2;2;-1;1]]
  = Some false.
Proof.
  apply (finite_large_component_reject 5
           [[1;3;2;2;2];[3;1;3;2;2];[2;3;1;3;2];[2;2;3;1;-1];[2;2;2;-1;1]]
           [0; 1; 2; 3; 4]%nat).
  - apply coxeter_matrix_validb_spec. reflexivity.
  - apply list_elem_of_In. vm_compute. left. reflexivity.
  - simpl. lia.
  - left. exists (-1). split; [|lia].
    apply list_elem_of_In. vm_compute. tauto.
Defined.

(** ** Large components with labels 2 and 3 only *)

Lemma kth_largest_index_neg (l : list ext_nat) (k : nat) :
  (1 <= k <= length l)%nat →
  Py.index_neg (Py.sorted ext_leb l) k = kth_largest k l.
Proof.
  intros Hk. unfold kth_largest.
  rewrite index_neg_lookup by (by rewrite sorted_length).
  rewrite reverse_lookup by (rewrite sorted_length; lia).
  f_equal. lia.
Qed.

Lemma large_component_simply_laced (M : matrix) (G : graph) (Q : nat → bool) :
  let comp := List.filter Q (vertices G) in
  let l := length comp in
  let G0 := GraphServices.subgraph G comp in
  let kth k := kth_largest k (GraphServices.eccentricity G0) in
  (5 <= l)%nat →
  (∀ m, m ∈ mentries M comp → m = 2 ∨ m = 3) →
  ∃ b, large_component_finite M G comp = Some b ∧
    (b = true ↔
       GraphServices.is_tree G0 = true ∧
       (kth 1%nat = Some (Num (l - 1))
        ∨ kth 3%nat = Some (Num (l - 2))
        ∨ ((l <= 8)%nat ∧ kth 2%nat = Some (Num (l - 2))
           ∧ kth 5%nat = Some (Num (l - 3))))).
Proof.
  intros comp l G0 kth Hl Hlab. unfold large_component_finite, Py.index.
  fold comp. fold G0. fold l.
  pose proof (mentries_length M comp) as Hm. fold l in Hm.
  set (ms := Py.sorted Z.leb (mentries M comp)).
  assert (Hms : (10 <= length ms)%nat) by (unfold ms; rewrite sorted_length; nia).
  destruct (lookup_lt_is_Some_2 ms 0) as [m0 Hm0]; [lia|].
  destruct (index_neg_is_Some ms 1) as [m1 Hm1]; [lia|].
  rewrite Hm0, Hm1. simpl.
  assert (m0 ∈ mentries M comp) as H0%Hlab.
  { apply (sorted_elem_of Z.leb), list_elem_of_lookup. eauto. }
  assert (m1 ∈ mentries M comp) as H1%Hlab.
  { apply index_neg_Some in Hm1 as [_ Hm1].
    apply (sorted_elem_of Z.leb), list_elem_of_lookup. eauto. }
  rewrite (bool_decide_false (m0 < 0)) by lia.
  rewrite (bool_decide_false (m1 > 3)) by lia.
  assert (Hecc : length (GraphServices.eccentricity G0) = l).
  { unfold GraphServices.eccentricity. rewrite length_map.
    unfold G0, comp. by rewrite subgraph_vertices_filter. }
  rewrite !kth_largest_index_neg by lia. fold (kth 1%nat) (kth 2%nat) (kth 3%nat) (kth 5%nat).
  assert (Hk : ∀ k, (1 <= k <= 5)%nat → is_Some (kth k)).
  { intros k Hk. unfold kth. rewrite <- kth_largest_index_neg by lia.
    apply index_neg_is_Some. rewrite sorted_length. lia. }
  destruct (Hk 1%nat) as [e1 He1]; [lia|]. destruct (Hk 2%nat) as [e2 He2]; [lia|].
  destruct (Hk 3%nat) as [e3 He3]; [lia|]. destruct (Hk 5%nat) as [e5 He5]; [lia|].
  rewrite He1, He2, He3, He5.
  destruct (GraphServices.is_tree G0); simpl.
  2:{ exists false. split; [done|]. split; [done|]. intros [? _]. done. }
  case_bool_decide as E1.
  { exists true. split; [done|]. split; [|done]. intros _. split; [done|].
    left. by rewrite E1. }
  case_bool_decide as E3.
  { exists true. split; [done|]. split; [|done]. intros _. split; [done|].
    right. left. by rewrite E3. }
  case_bool_decide as E8; simpl.
  2:{ exists false. split; [done|]. split; [done|].
      intros (_ & [[= ?]|[[= ?]|(? & _)]]); done. }
  case_bool_decide as E2; simpl.
  2:{ exists false. split; [done|]. split; [done|].
      intros (_ & [[= ?]|[[= ?]|(_ & [= ?] & _)]]); done. }
  eexists. split; [done|]. rewrite bool_decide_eq_true. split.
  - intros ->. split; [done|]. right. right. by rewrite E2.
  - intros (_ & [[= ?]|[[= ?]|(_ & _ & [= ?])]]); done.
Qed.

(** C5.  A component of the diagram graph with [l >= 5] vertices all of whose
    pairwise labels are 2 or 3 is accepted as finite-type if and only if its
    induced subgraph is a tree and its largest eccentricity is [l - 1], or
    its third largest is [l - 2], or [l <= 8] with second largest [l - 2]
    and fifth largest [l - 3]. *)
Theorem component_finite_simply_laced (n : nat) (M : matrix) (comp : list nat) :
  coxeter_matrix_valid n M →
  comp ∈ GraphServices.connected_components (diagram_graph M) →
  let l := length comp in
  let G0 := GraphServices.subgraph (diagram_graph M) comp in
  let kth k := kth_largest k (GraphServices.eccentricity G0) in
  (5 <= l)%nat →
  (∀ m, m ∈ mentries M comp → m = 2 ∨ m = 3) →
  ∃ b, component_finite M (diagram_graph M) comp = Some b ∧
    (b = true ↔
       GraphServices.is_tree G0 = true ∧
       (kth 1%nat = Some (Num (l - 1))
        ∨ kth 3%nat = Some (Num (l - 2))
        ∨ ((l <= 8)%nat ∧ kth 2%nat = Some (Num (l - 2))
           ∧ kth 5%nat = Some (Num (l - 3))))).
Proof.
  intros _ (_ & Q & Hcomp)%connected_components_filter l G0 kth Hl Hlab.
  assert (component_finite M (diagram_graph M) comp
          = large_component_finite M (diagram_graph M) comp) as ->.
  { subst l. destruct comp as [|c0 [|c1 [|c2 [|c3 [|c4 rest]]]]]; simpl in Hl; try lia.
    done. }
  subst l G0 kth. revert Hl Hlab. rewrite Hcomp. intros Hl Hlab.
  by apply large_component_simply_laced.
Qed.

(** The single component of the Coxeter matrix of type D_5, a tree with
    eccentricities 3, 2, 2, 3, 3. *)
Lemma component_finite_simply_laced_witness :
  ∃ b, component_finite
         [[1;3;2;2;2];[3;1;3;2;2];[2;3;1;3;3];[2;2;3;1;2];[2;2;3;2;1]]
         (diagram_graph [[1;3;2;2;2];[3;1;3;2;2];[2;3;1;3;3];[2;2;3;1;2];[2;2;3;2;1]])
         [0; 1; 2; 3; 4]%nat = Some b.
Proof.
  destruct (component_finite_simply_laced 5
              [[1;3;2;2;2];[3;1;3;2;2];[2;3;1;3;3];[2;2;3;1;2];[2;2;3;2;1]]
              [0; 1; 2; 3; 4]%nat) as (b & Hb & _).
  - apply coxeter_matrix_validb_spec. reflexivity.
  - apply list_elem_of_In. vm_compute. left. reflexivity.
  - simpl. lia.
  - intros m Hm. apply list_elem_of_In in Hm. vm_compute in Hm.
    intuition lia.
  - exists b. exact Hb.
Defined.

(** ** Matrix update and extensionality *)

Lemma entry_alt (M : matrix) (a b : nat) :
  entry M a b = default 0 (M !! a ≫= λ row, row !! b).
Proof.
  unfold entry. rewrite (nth_lookup M a).
  destruct (M !! a) as [row|]; simpl; [apply nth_lookup|].
  by destruct b.
Qed.

Lemma entry_set_entry (n : nat) (data : matrix) (i j a b : nat) (m : Z) :
  square n data → (i < n)%nat → (j < n)%nat →
  entry (set_entry data i j m) a b
  = if decide (a = i ∧ b = j) then m else entry data a b.
Proof.
  intros Hsq Hi Hj. rewrite !entry_alt. unfold set_entry.
  rewrite list_lookup_alter.
  destruct (decide (i = a)) as [->|Hne].
  - destruct (square_row n data a Hsq Hi) as (row & Hrow & Hlen).
    rewrite Hrow. simpl. rewrite list_lookup_insert.
    destruct (decide (j = b)) as [->|Hjb].
    + by rewrite !decide_True by (split; [done|lia]).
    + by rewrite !decide_False by (intros [? ?]; done).
  - by rewrite decide_False by (intros [-> _]; done).
Qed.

Lemma square_set_entry (n : nat) (data : matrix) (i j : nat) (m : Z) :
  square n data → square n (set_entry data i j m).
Proof.
  intros [Hlen Hrows]. unfold set_entry. split.
  - by rewrite length_alter.
  - apply Forall_alter; [done|]. intros row _ Hrow. by rewrite length_insert.
Qed.

Lemma matrix_ext (n : nat) (A B : matrix) :
  square n A → square n B →
  (∀ a b, (a < n)%nat → (b < n)%nat → entry A a b = entry B a b) →
  A = B.
Proof.
  intros HA HB Hent. apply list_eq. intros a.
  destruct (decide (a < n)%nat) as [Ha|Ha].
  - destruct (square_row n A a HA Ha) as (ra & Hra & Hla).
    destruct (square_row n B a HB Ha) as (rb & Hrb & Hlb).
    rewrite Hra, Hrb. f_equal. apply list_eq. intros b.
    destruct (decide (b < n)%nat) as [Hb|Hb].
    + specialize (Hent a b Ha Hb). rewrite !entry_alt, Hra, Hrb in Hent.
      simpl in Hent.
      destruct (lookup_lt_is_Some_2 ra b) as [x Hx]; [lia|].
      destruct (lookup_lt_is_Some_2 rb b) as [y Hy]; [lia|].
      rewrite Hx, Hy in *. simpl in Hent. by subst.
    + rewrite !lookup_ge_None_2 by lia. done.
  - destruct HA as [HA _], HB as [HB _]. rewrite !lookup_ge_None_2 by lia. done.
Qed.

Lemma upper_entries_elem (n : nat) (M : matrix) (i k : nat) (val : Z) :
  square n M →
  (i, k, val) ∈ upper_entries M ↔
  (i < k)%nat ∧ (k < n)%nat ∧ val = entry M i k.
Proof.
  intros Hsq. unfold upper_entries. rewrite list_elem_of_bind. split.
  - intros ([i' row] & Hin & Hrow).
    apply list_elem_of_lookup in Hrow as [x Hx].
    apply lookup_enumerate in Hx as (row' & Heq & Hrow).
    injection Heq as -> ->.
    apply list_elem_of_bind in Hin as ([j v] & Hin & Hv).
    apply list_elem_of_singleton in Hin. injection Hin as -> -> ->.
    apply list_elem_of_lookup in Hv as [y Hy].
    apply lookup_enumerate in Hy as (v' & Heq & Hv).
    injection Heq as -> ->.
    rewrite lookup_drop in Hv.
    assert (Hi : (x < n)%nat).
    { destruct Hsq as [<- _]. by apply lookup_lt_Some in Hrow. }
    destruct (square_row n M x Hsq Hi) as (row'' & Hrow'' & Hlen).
    assert (row'' = row') as -> by congruence.
    split_and!; [lia|apply lookup_lt_Some in Hv; lia|].
    by rewrite (entry_lookup M x _ row' Hrow), Hv.
  - intros (Hik & Hk & ->).
    destruct (square_row n M i Hsq) as (row & Hrow & Hlen); [lia|].
    exists (i, row). split.
    + apply list_elem_of_bind. exists ((k - (i + 1))%nat, entry M i k). split.
      * apply list_elem_of_singleton. repeat f_equal. lia.
      * apply list_elem_of_lookup. exists (k - (i + 1))%nat.
        apply lookup_enumerate. eexists. split; [done|].
        rewrite lookup_drop. replace (i + 1 + (k - (i + 1)))%nat with k by lia.
        rewrite (entry_lookup M i k row Hrow).
        destruct (lookup_lt_is_Some_2 row k) as [v Hv]; [lia|]. by rewrite Hv.
    + apply list_elem_of_lookup. exists i. apply lookup_enumerate. eauto.
Qed.

(** ** From the matrix to the Coxeter graph *)

(** The labels of [index_set] are listed in strictly increasing order. *)
Lemma increasing_lookup (index_set : list Z) i k u v :
  Sorted Z.lt index_set → (i < k)%nat →
  index_set !! i = Some u → index_set !! k = Some v → u < v.
Proof.
  intros Hs. apply StronglySorted_lookup.
  apply Sorted_StronglySorted; [|done]. intros x y z. lia.
Qed.

Lemma increasing_inj (index_set : list Z) i k u :
  Sorted Z.lt index_set →
  index_set !! i = Some u → index_set !! k = Some u → i = k.
Proof.
  intros Hs Hi Hk. destruct (Nat.lt_total i k) as [Hlt|[->|Hlt]]; [|done|].
  - pose proof (increasing_lookup _ _ _ _ _ Hs Hlt Hi Hk). lia.
  - pose proof (increasing_lookup _ _ _ _ _ Hs Hlt Hk Hi). lia.
Qed.

Lemma increasing_NoDup (index_set : list Z) :
  Sorted Z.lt index_set → NoDup index_set.
Proof.
  intros Hs. apply NoDup_alt. intros i k u. by apply increasing_inj.
Qed.

Lemma coxeter_graph_step_spec (index_set : list Z) (G : lgraph) i k val u v :
  index_set !! i = Some u → index_set !! k = Some v →
  coxeter_graph_step index_set G (i, k, val)
  = Some (match diagram_label val with
          | Some lab => LabelledGraph.add_edge u v lab G
          | None => G
          end).
Proof.
  intros Hi Hk. unfold coxeter_graph_step, diagram_label. rewrite Hi, Hk.
  repeat case_bool_decide; done.
Qed.

Lemma coxeter_graph_loop_spec (index_set : list Z) (ts : list (nat * nat * Z)) :
  Sorted Z.lt index_set →
  (∀ i k val, (i, k, val) ∈ ts → (i < k)%nat ∧ (k < length index_set)%nat) →
  (∀ i k v1 v2, (i, k, v1) ∈ ts → (i, k, v2) ∈ ts → v1 = v2) →
  ∃ G,
    foldl (λ r t, G ← r; coxeter_graph_step index_set G t)
          (Some (LabelledGraph.add_vertices index_set LabelledGraph.empty)) ts
    = Some G
    ∧ lverts G = list_to_set index_set
    ∧ ∀ κ lab, ledges G !! κ = Some lab ↔
        ∃ i k val u v, (i, k, val) ∈ ts ∧ index_set !! i = Some u
                       ∧ index_set !! k = Some v ∧ κ = (u, v)
                       ∧ diagram_label val = Some lab.
Proof.
  intros Hs. induction ts as [|[[i k] val] ts IH] using rev_ind; intros Hrange Hfun.
  - eexists. split; [done|]. split.
    + simpl. apply union_empty_l_L.
    + intros κ lab. simpl. rewrite lookup_empty. split; [done|].
      intros (i & k & val & u & v & Hin & _). by apply elem_of_nil in Hin.
  - destruct IH as (G & HG & Hverts & Hedges).
    { intros i' k' val' Hin. apply (Hrange i' k' val'). set_solver. }
    { intros i' k' v1 v2 H1 H2. apply (Hfun i' k'); set_solver. }
    destruct (Hrange i k val) as [Hik Hk]; [set_solver|].
    destruct (lookup_lt_is_Some_2 index_set i) as [u Hu]; [lia|].
    destruct (lookup_lt_is_Some_2 index_set k) as [v Hv]; [lia|].
    pose proof (increasing_lookup _ _ _ _ _ Hs Hik Hu Hv) as Huv.
    rewrite foldl_app, HG.
    change (foldl _ (Some G) [(i, k, val)])
      with (coxeter_graph_step index_set G (i, k, val)).
    rewrite (coxeter_graph_step_spec index_set G i k val u v Hu Hv).
    eexists. split; [done|].
    destruct (diagram_label val) as [lab_t|] eqn:Elab.
    + split.
      * simpl. rewrite Hverts.
        assert (u ∈ index_set) by (apply list_elem_of_lookup; eauto).
        assert (v ∈ index_set) by (apply list_elem_of_lookup; eauto).
        set_solver.
      * intros κ lab. simpl. rewrite Z.min_l, Z.max_r by lia.
        rewrite lookup_insert. case_decide as Hκ.
        -- subst κ. split.
           ++ intros [= <-]. exists i, k, val, u, v. split_and!; try done. set_solver.
           ++ intros (i' & k' & val' & u' & v' & Hin & Hu' & Hv' & [= <- <-] & Hlab).
              assert (i' = i) as -> by (by apply (increasing_inj index_set _ _ u)).
              assert (k' = k) as -> by (by apply (increasing_inj index_set _ _ v)).
              assert (val' = val) as ->; [|congruence].
              apply (Hfun i k); [done|set_solver].
        -- rewrite Hedges. split.
           ++ intros (i' & k' & val' & u' & v' & Hin & Hrest).
              exists i', k', val', u', v'. split; [set_solver|done].
           ++ intros (i' & k' & val' & u' & v' & Hin & Hu' & Hv' & -> & Hlab).
              exists i', k', val', u', v'. split_and!; try done.
              apply elem_of_app in Hin as [Hin|Hin]; [done|].
              apply list_elem_of_singleton in Hin as [= -> -> ->].
              congruence.
    + split; [done|]. intros κ lab. rewrite Hedges. split.
      * intros (i' & k' & val' & u' & v' & Hin & Hrest).
        exists i', k', val', u', v'. split; [set_solver|done].
      * intros (i' & k' & val' & u' & v' & Hin & Hu' & Hv' & -> & Hlab).
        exists i', k', val', u', v'. split_and!; try done.
        apply elem_of_app in Hin as [Hin|Hin]; [done|].
        apply list_elem_of_singleton in Hin as [= -> -> ->].
        congruence.
Qed.

(** The Coxeter graph of a valid matrix with an increasing index set: its
    vertices are the index set, and its edges are the pairs whose label is
    not 2. *)
Lemma coxeter_graph_spec (n : nat) (M : matrix) (index_set : list Z) :
  coxeter_matrix_valid n M → length index_set = n → Sorted Z.lt index_set →
  ∃ G, coxeter_graph M index_set = Some G
    ∧ lverts G = list_to_set index_set
    ∧ ∀ κ lab, ledges G !! κ = Some lab ↔
        ∃ i k u v, (i < k)%nat ∧ (k < n)%nat ∧ index_set !! i = Some u
                   ∧ index_set !! k = Some v ∧ κ = (u, v)
                   ∧ diagram_label (entry M i k) = Some lab.
Proof.
  intros Hv Hlen Hs. pose proof (cm_square n M Hv) as Hsq.
  destruct (coxeter_graph_loop_spec index_set (upper_entries M) Hs)
    as (G & HG & Hverts & Hedges).
  - intros i k val Hin%(upper_entries_elem n); [|done]. lia.
  - intros i k v1 v2 H1%(upper_entries_elem n) H2%(upper_entries_elem n); try done.
    destruct H1 as (_ & _ & ->). by destruct H2 as (_ & _ & ->).
  - exists G. split; [done|]. split; [done|]. intros κ lab. rewrite Hedges. split.
    + intros (i & k & val & u & v & Hin%(upper_entries_elem n) & Hu & Hk & -> & Hlab);
        [|done].
      destruct Hin as (Hik & Hkn & ->). exists i, k, u, v. done.
    + intros (i & k & u & v & Hik & Hkn & Hu & Hk & -> & Hlab).
      exists i, k, (entry M i k), u, v. split_and!; try done.
      by apply (upper_entries_elem n).
Qed.

(** ** From the Coxeter graph back to the matrix *)

Lemma Sorted_lt_le (l : list Z) : Sorted Z.lt l → Sorted Z.le l.
Proof.
  induction 1 as [|x l Hl IH Hhd]; constructor; [done|].
  destruct Hhd; constructor. lia.
Qed.

Lemma vertices_increasing (G : lgraph) (index_set : list Z) :
  Sorted Z.lt index_set → lverts G = list_to_set index_set →
  LabelledGraph.vertices G = index_set
  ∧ LabelledGraph.num_verts G = length index_set.
Proof.
  intros Hs Hv. pose proof (increasing_NoDup _ Hs) as Hnd.
  unfold LabelledGraph.vertices, LabelledGraph.num_verts. rewrite Hv. split.
  - apply (Sorted_unique Z.le).
    + apply StronglySorted_Sorted, sorted_Z_Sorted.
    + by apply Sorted_lt_le.
    + rewrite sorted_perm. by apply elements_list_to_set.
  - by apply size_list_to_set.
Qed.

Lemma list_index_lookup (index_set : list Z) i u :
  Sorted Z.lt index_set → index_set !! i = Some u →
  list_index index_set u = Ok i.
Proof.
  intros Hs Hi. unfold list_index.
  destruct (list_find _ index_set) as [[j y]|] eqn:E.
  - apply list_find_Some in E as (Hj & -> & _).
    f_equal. by apply (increasing_inj index_set _ _ u).
  - apply list_find_None in E. rewrite Forall_forall in E.
    exfalso. apply (E u); [|done]. apply list_elem_of_lookup. eauto.
Qed.

Lemma diagram_label_coxeter_label (val : Z) (lab : edge_label) :
  diagram_label val = Some lab → coxeter_label lab = Ok val.
Proof.
  unfold diagram_label, coxeter_label.
  repeat case_bool_decide; intros [= <-]; subst; try done.
  rewrite !bool_decide_false by lia. done.
Qed.

Lemma initial_data_entry (n a b : nat) :
  (a < n)%nat → (b < n)%nat →
  entry (map (λ i, map (λ j, if (i =? j)%nat then 1 else 2) (seq 0 n)) (seq 0 n)) a b
  = if (a =? b)%nat then 1 else 2.
Proof.
  intros Ha Hb. unfold entry.
  rewrite (nth_lookup _ a), list_lookup_fmap, lookup_seq_lt by done. simpl.
  rewrite (nth_lookup _ b), list_lookup_fmap, lookup_seq_lt by done. done.
Qed.

Lemma initial_data_square (n : nat) :
  square n (map (λ i, map (λ j, if (i =? j)%nat then 1 else 2) (seq 0 n)) (seq 0 n)).
Proof.
  split; [by rewrite length_map, length_seq|].
  apply Forall_forall. intros row (i & -> & _)%list_elem_of_fmap.
  by rewrite length_map, length_seq.
Qed.

Lemma graph_edge_step_spec (n : nat) (index_set : list Z) (data : matrix)
    u v lab i k m :
  Sorted Z.lt index_set →
  index_set !! i = Some u → index_set !! k = Some v →
  coxeter_label lab = Ok m →
  graph_edge_step index_set data (u, v, lab)
  = Ok (set_entry (set_entry data k i m) i k m).
Proof.
  intros Hs Hu Hv Hm. unfold graph_edge_step. simpl.
  rewrite Hm, (list_index_lookup _ _ _ Hs Hu), (list_index_lookup _ _ _ Hs Hv).
  done.
Qed.

Lemma graph_edges_loop_spec (n : nat) (index_set : list Z)
    (es : list (Z * Z * edge_label)) :
  Sorted Z.lt index_set → length index_set = n →
  (∀ u v lab, (u, v, lab) ∈ es →
     ∃ i k m, (i < k)%nat ∧ (k < n)%nat ∧ index_set !! i = Some u
              ∧ index_set !! k = Some v ∧ coxeter_label lab = Ok m) →
  (∀ κ l1 l2, (κ, l1) ∈ es → (κ, l2) ∈ es → l1 = l2) →
  ∃ data,
    foldl (λ r e, data ← r; graph_edge_step index_set data e)
          (Ok (map (λ i, map (λ j, if (i =? j)%nat then 1 else 2) (seq 0 n)) (seq 0 n)))
          es = Ok data
    ∧ square n data
    ∧ (∀ a, (a < n)%nat → entry data a a = 1)
    ∧ (∀ a b, (a < b)%nat → (b < n)%nat → entry data b a = entry data a b)
    ∧ (∀ a b u v, (a < b)%nat → (b < n)%nat →
         index_set !! a = Some u → index_set !! b = Some v →
         (∀ lab, (u, v, lab) ∈ es → coxeter_label lab = Ok (entry data a b))
         ∧ ((∀ lab, (u, v, lab) ∉ es) → entry data a b = 2)).
Proof.
  intros Hs Hlen. induction es as [|[[u v] lab] es IH] using rev_ind; intros Hwf Hfun.
  - eexists. split; [done|]. split; [apply initial_data_square|]. split_and!.
    + intros a Ha. by rewrite initial_data_entry, Nat.eqb_refl.
    + intros a b Hab Hb. rewrite !initial_data_entry by lia.
      destruct (Nat.eqb_spec a b), (Nat.eqb_spec b a); done || lia.
    + intros a b u v Hab Hb _ _. split.
      * intros lab Hin. by apply elem_of_nil in Hin.
      * intros _. rewrite initial_data_entry by lia.
        destruct (Nat.eqb_spec a b); [lia|done].
  - destruct IH as (data & Hdata & Hsq & Hdiag & Hsym & Hlab).
    { intros u' v' lab' Hin. apply (Hwf u' v' lab'). set_solver. }
    { intros κ l1 l2 H1 H2. apply (Hfun κ); set_solver. }
    destruct (Hwf u v lab) as (i & k & m & Hik & Hk & Hu & Hv & Hm); [set_solver|].
    rewrite foldl_app, Hdata.
    change (foldl _ (Ok data) [(u, v, lab)])
      with (graph_edge_step index_set data (u, v, lab)).
    rewrite (graph_edge_step_spec n index_set data u v lab i k m) by done.
    eexists. split; [done|].
    assert (Hent : ∀ a b, entry (set_entry (set_entry data k i m) i k m) a b
              = if decide (a = i ∧ b = k) then m
                else if decide (a = k ∧ b = i) then m else entry data a b).
    { intros a b. rewrite (entry_set_entry n); [|by apply square_set_entry|lia|lia].
      case_decide; [done|]. by rewrite (entry_set_entry n) by (done || lia). }
    split; [by do 2 apply square_set_entry|]. split_and!.
    + intros a Ha. rewrite Hent, !decide_False by lia. by apply Hdiag.
    + intros a b Hab Hb. rewrite !Hent.
      rewrite (decide_False (P := b = i ∧ a = k)) by lia.
      rewrite (decide_False (P := a = k ∧ b = i)) by lia.
      destruct (decide (a = i ∧ b = k)) as [[-> ->]|Hne].
      * by rewrite decide_True.
      * rewrite decide_False by tauto. by apply Hsym.
    + intros a b u' v' Hab Hb Hu' Hv'. rewrite Hent.
      rewrite (decide_False (P := a = k ∧ b = i)) by lia.
      destruct (Hlab a b u' v' Hab Hb Hu' Hv') as [Hl1 Hl2].
      destruct (decide (a = i ∧ b = k)) as [[-> ->]|Hne].
      * assert (u' = u) as -> by congruence. assert (v' = v) as -> by congruence.
        split.
        -- intros lab' Hin. rewrite <- Hm. f_equal.
           apply (Hfun (u, v)); [done|set_solver].
        -- intros Hnone. exfalso. apply (Hnone lab). set_solver.
      * split.
        -- intros lab' [Hin|Hin]%elem_of_app; [by apply Hl1|].
           apply list_elem_of_singleton in Hin as [= -> -> ->].
           exfalso. apply Hne. split.
           ++ by apply (increasing_inj index_set _ _ u).
           ++ by apply (increasing_inj index_set _ _ v).
        -- intros Hnone. apply Hl2. intros lab' Hin. apply (Hnone lab'). set_solver.
Qed.

Lemma classcall_private_matrix_valid (n : nat) (M : matrix) (index_set : list Z) :
  coxeter_matrix_valid n M →
  classcall_private_matrix M (Some index_set) = Ok (M, index_set).
Proof.
  intros Hv. pose proof (cm_square n M Hv) as Hsq.
  unfold classcall_private_matrix.
  rewrite (proj2 (is_symmetric_spec n M Hsq)) by apply (cm_sym n M Hv). simpl.
  destruct (existsb _ (diagonal M)) eqn:Ed.
  { apply (diagonal_bad_spec n M Hsq) in Ed as (i & Hi & Hne).
    by rewrite (cm_diag n M Hv i Hi) in Hne. }
  destruct (existsb _ (Py.enumerate M)) eqn:Eu; [|done].
  apply (upper_bad_spec n M Hsq) in Eu as (i & j & Hij & Hj & Hle & Hne).
  destruct (cm_off n M Hv i j) as [H2| Hinf]; lia.
Qed.

Lemma edges_elem (G : lgraph) u v lab :
  (u, v, lab) ∈ LabelledGraph.edges G ↔ ledges G !! (u, v) = Some lab.
Proof.
  unfold LabelledGraph.edges. rewrite sorted_elem_of.
  apply elem_of_map_to_list.
Qed.

(** C6 (as stated, refuted).  With the index set (2, 1, 0) the graph of the
    Coxeter matrix [[1,3,2],[3,1,4],[2,4,1]] gives back another matrix:
    the graph lists its vertices in increasing order. *)
Lemma graph_roundtrip_counterexample :
  ¬ (∃ G idx,
       classcall_private_matrix [[1;3;2];[3;1;4];[2;4;1]] (Some [2; 1; 0])
       = Ok ([[1;3;2];[3;1;4];[2;4;1]], [2; 1; 0])
       ∧ coxeter_graph [[1;3;2];[3;1;4];[2;4;1]] [2; 1; 0] = Some G
       ∧ classcall_private_graph G None = Ok ([[1;3;2];[3;1;4];[2;4;1]], idx)).
Proof.
  intros (G & idx & _ & HG & Hc).
  assert (classcall_private_graph G None
          = Ok ([[1;4;2];[4;1;3];[2;3;1]], [0; 1; 2])) as Hreal.
  { injection HG as <-. vm_compute. reflexivity. }
  rewrite Hreal in Hc. discriminate Hc.
Qed.

(** C6 (amended).  For a valid Coxeter matrix [M] and an index set of
    integer labels listed in strictly increasing order (such as the default
    0, ..., n-1), building the group from [M], reading back its diagram
    graph with [coxeter_graph()] and building a group from that graph gives
    the matrix [M] and the same index set again. *)
Theorem graph_roundtrip (n : nat) (M : matrix) (index_set : list Z) :
  coxeter_matrix_valid n M → length index_set = n → Sorted Z.lt index_set →
  ∃ G,
    classcall_private_matrix M (Some index_set) = Ok (M, index_set)
    ∧ coxeter_graph M index_set = Some G
    ∧ classcall_private_graph G None = Ok (M, index_set).
Proof.
  intros Hv Hlen Hs.
  destruct (coxeter_graph_spec n M index_set Hv Hlen Hs) as (G & HG & Hverts & Hedges).
  exists G. split; [by apply (classcall_private_matrix_valid n)|]. split; [done|].
  destruct (vertices_increasing G index_set Hs Hverts) as [HV HN].
  unfold classcall_private_graph. rewrite HV, HN, Hlen.
  destruct (graph_edges_loop_spec n index_set (LabelledGraph.edges G) Hs Hlen)
    as (data & Hdata & Hsq & Hdiag & Hsym & Hlab).
  { intros u v lab Hin%edges_elem.
    apply Hedges in Hin as (i & k & u' & v' & Hik & Hk & Hu & Hv' & [= -> ->] & Hl).
    exists i, k, (entry M i k). split_and!; try done.
    by apply diagram_label_coxeter_label. }
  { intros [u v] l1 l2 H1%edges_elem H2%edges_elem. congruence. }
  rewrite Hdata. simpl. do 2 f_equal.
  assert (Hupper : ∀ a b, (a < b)%nat → (b < n)%nat → entry data a b = entry M a b).
  { intros a b Hab Hb.
    destruct (lookup_lt_is_Some_2 index_set a) as [u Hu]; [lia|].
    destruct (lookup_lt_is_Some_2 index_set b) as [v Hv']; [lia|].
    destruct (Hlab a b u v Hab Hb Hu Hv') as [Hl1 Hl2].
    destruct (diagram_label (entry M a b)) as [lab|] eqn:Elab.
    - assert ((u, v, lab) ∈ LabelledGraph.edges G) as Hin.
      { apply edges_elem, Hedges. exists a, b, u, v. done. }
      apply Hl1 in Hin. apply diagram_label_coxeter_label in Elab. congruence.
    - rewrite Hl2.
      + unfold diagram_label in Elab. repeat case_bool_decide; try done.
        destruct (cm_off n M Hv a b) as [H2|Hinf]; lia.
      + intros lab Hin%edges_elem.
        apply Hedges in Hin as (i & k & u' & v' & Hik & Hk & Hu' & Hv'' & [= <- <-] & Hl).
        assert (i = a) as -> by (by apply (increasing_inj index_set _ _ u)).
        assert (k = b) as -> by (by apply (increasing_inj index_set _ _ v)).
        congruence. }
  apply (matrix_ext n); [done|apply (cm_square n M Hv)|].
  intros a b Ha Hb. destruct (Nat.lt_total a b) as [Hlt|[->|Hlt]].
  - by apply Hupper.
  - by rewrite Hdiag, (cm_diag n M Hv).
  - rewrite Hsym, (cm_sym n M Hv a b) by done. by apply Hupper.
Qed.

(** The Coxeter matrix of type H_3 with the index set (1, 2, 3). *)
Lemma graph_roundtrip_witness :
  ∃ G, coxeter_graph [[1;3;2];[3;1;5];[2;5;1]] [1; 2; 3] = Some G
       ∧ classcall_private_graph G None
         = Ok ([[1;3;2];[3;1;5];[2;5;1]], [1; 2; 3]).
Proof.
  destruct (graph_roundtrip 3 [[1;3;2];[3;1;5];[2;5;1]] [1; 2; 3])
    as (G & _ & HG & Hc).
  - apply coxeter_matrix_validb_spec. reflexivity.
  - reflexivity.
  - repeat constructor; lia.
  - exists G. split; [exact HG|exact Hc].
Defined.

(** ** The crystal digraph *)

Section crystal_digraph.
Context {X : Type} `{Countable X}.
Implicit Types (C : crystal X) (d : gmap X (gmap X Z)) (x y : X) (i l : Z).

Lemma digraph_visit_lookup C i d x' x :
  digraph_visit C i d x' !! x
  = if decide (x = x') then digraph_row_update C i x <$> d !! x else d !! x.
Proof.
  unfold digraph_visit, digraph_row_update.
  destruct (decide (x = x')) as [->|Hne].
  - destruct (f C x' i) as [y|].
    + apply lookup_alter_eq.
    + by rewrite option_fmap_id.
  - destruct (f C x' i) as [y|]; [|done]. by apply lookup_alter_ne.
Qed.

Lemma digraph_row_update_lookup C i x (dx : gmap X Z) y :
  digraph_row_update C i x dx !! y
  = if bool_decide (f C x i = Some y) then Some i else dx !! y.
Proof.
  unfold digraph_row_update. destruct (f C x i) as [y'|].
  - rewrite lookup_insert. case_decide as Hy.
    + subst y'. by rewrite bool_decide_true.
    + rewrite bool_decide_false; [done|]. congruence.
  - by rewrite bool_decide_false.
Qed.

Lemma digraph_row_update_idemp C i x (dx : gmap X Z) :
  digraph_row_update C i x (digraph_row_update C i x dx)
  = digraph_row_update C i x dx.
Proof.
  unfold digraph_row_update. destruct (f C x i); [|done].
  apply insert_insert_eq.
Qed.

Lemma digraph_visits_lookup C i d (xs : list X) x :
  foldl (digraph_visit C i) d xs !! x
  = if decide (x ∈ xs) then digraph_row_update C i x <$> d !! x else d !! x.
Proof.
  revert d. induction xs as [|x' xs IH]; intros d.
  - destruct (decide (x ∈ [])) as [Hx|Hx]; [by apply elem_of_nil in Hx|done].
  - change (foldl (digraph_visit C i) d (x' :: xs))
      with (foldl (digraph_visit C i) (digraph_visit C i d x') xs).
    rewrite IH, digraph_visit_lookup.
    destruct (decide (x = x')) as [->|Hne].
    + rewrite (decide_True (P := x' ∈ x' :: xs)) by set_solver.
      case_decide; [|done]. rewrite <- option_fmap_compose.
      apply option_fmap_ext. intros dx. apply digraph_row_update_idemp.
    + destruct (decide (x ∈ xs)).
      * by rewrite decide_True by set_solver.
      * by rewrite decide_False by set_solver.
Qed.

(** One round of the outer loop updates every inner dictionary once. *)
Lemma digraph_round_lookup C i d x :
  foldl (digraph_visit C i) d (map_to_list d).*1 !! x
  = digraph_row_update C i x <$> d !! x.
Proof.
  rewrite digraph_visits_lookup. case_decide as Hx; [done|].
  destruct (d !! x) as [dx|] eqn:E; [|done].
  exfalso. apply Hx. apply list_elem_of_fmap. exists (x, dx). split; [done|].
  by apply elem_of_map_to_list.
Qed.

Lemma digraph_init_lookup C x :
  digraph_init C !! x = if decide (x ∈ elements_of C) then Some ∅ else None.
Proof.
  unfold digraph_init. case_decide as Hx.
  - apply dict_of_pairs_functional.
    + intros k v1 v2 (? & [= -> ->] & _)%list_elem_of_fmap
                     (? & [= _ ->] & _)%list_elem_of_fmap. done.
    + apply list_elem_of_fmap. by exists x.
  - apply dict_of_pairs_None. rewrite <- list_fmap_compose.
    intros (x' & -> & Hx')%list_elem_of_fmap. done.
Qed.

(** The dictionary after the rounds for a list [idxs] of indices. *)
Lemma digraph_rounds_lookup C (idxs : list Z) x :
  let d := foldl (λ d i, foldl (digraph_visit C i) d (map_to_list d).*1)
                 (digraph_init C) idxs in
  (x ∉ elements_of C → d !! x = None)
  ∧ (x ∈ elements_of C →
     ∃ dx, d !! x = Some dx ∧
       ∀ y, dx !! y = last (List.filter (λ i, bool_decide (f C x i = Some y)) idxs)).
Proof.
  induction idxs as [|i idxs IH] using rev_ind; simpl.
  - rewrite digraph_init_lookup. split; intros Hx.
    + by rewrite decide_False.
    + rewrite decide_True by done. exists ∅. split; [done|].
      intros y. apply lookup_empty.
  - rewrite foldl_app. simpl. rewrite digraph_round_lookup.
    destruct IH as [IH1 IH2]. split; intros Hx.
    + by rewrite IH1.
    + destruct (IH2 Hx) as (dx & -> & Hdx). simpl. eexists. split; [done|].
      intros y. rewrite digraph_row_update_lookup, List.filter_app. simpl.
      case_bool_decide.
      * by rewrite last_snoc.
      * by rewrite app_nil_r.
Qed.

Lemma DiGraph_of_dict_edges d x y l :
  (x, y, l) ∈ dedges (DiGraph_of_dict d)
  ↔ ∃ dx, d !! x = Some dx ∧ dx !! y = Some l.
Proof.
  simpl. rewrite elem_of_list_to_set, list_elem_of_bind. split.
  - intros ([x' dx] & Hin & Hx%elem_of_map_to_list).
    apply list_elem_of_bind in Hin as ([y' l'] & Hin & Hy%elem_of_map_to_list).
    apply list_elem_of_singleton in Hin as [= -> -> ->]. eauto.
  - intros (dx & Hx & Hy). exists (x, dx). split; [|by apply elem_of_map_to_list].
    apply list_elem_of_bind. exists (y, l). split; [|by apply elem_of_map_to_list].
    by apply list_elem_of_singleton.
Qed.

Lemma DiGraph_of_dict_vertices d v :
  v ∈ dvertices (DiGraph_of_dict d)
  ↔ is_Some (d !! v) ∨ ∃ x dx, d !! x = Some dx ∧ is_Some (dx !! v).
Proof.
  simpl. rewrite elem_of_union, elem_of_dom, elem_of_list_to_set, list_elem_of_bind.
  apply or_iff_compat_l. split.
  - intros ([x dx] & Hin & Hx%elem_of_map_to_list).
    apply list_elem_of_fmap in Hin as ([v' l] & -> & Hv%elem_of_map_to_list).
    exists x, dx. eauto.
  - intros (x & dx & Hx & [l Hl]). exists (x, dx).
    split; [|by apply elem_of_map_to_list].
    apply list_elem_of_fmap. exists (v, l). split; [done|].
    by apply elem_of_map_to_list.
Qed.

(** The edges of the digraph: one per ordered pair, labelled by the last
    index that lowers the source to the target. *)
Lemma crystal_digraph_edges C x y l :
  (x, y, l) ∈ dedges (crystal_digraph C)
  ↔ x ∈ elements_of C ∧ last_index_to C x y = Some l.
Proof.
  unfold crystal_digraph, digraph_dict, last_index_to.
  rewrite DiGraph_of_dict_edges.
  destruct (digraph_rounds_lookup C (index_set_of C) x) as [H1 H2]. split.
  - intros (dx & Hx & Hy). destruct (decide (x ∈ elements_of C)) as [Hin|Hin].
    + split; [done|]. destruct (H2 Hin) as (dx' & Hx' & Hdx).
      rewrite <- Hdx. congruence.
    + rewrite H1 in Hx by done. discriminate.
  - intros [Hin Hl]. destruct (H2 Hin) as (dx & Hx & Hdx).
    exists dx. split; [done|]. by rewrite Hdx.
Qed.

Lemma last_index_to_Some C x y l :
  last_index_to C x y = Some l → l ∈ index_set_of C ∧ f C x l = Some y.
Proof.
  unfold last_index_to. intros Hl.
  assert (l ∈ List.filter (λ i, bool_decide (f C x i = Some y)) (index_set_of C))
    as Hin.
  { apply last_Some in Hl as [l' ->]. set_solver. }
  apply list_elem_of_In, filter_In in Hin as [Hin Hf].
  split; [by apply list_elem_of_In|]. by apply bool_decide_eq_true in Hf.
Qed.
End crystal_digraph.

(** C8 (as stated, refuted).  In the crystal [two_arrows] the indices 1 and
    2 both lower the element 0 to the element 1, and the digraph has no edge
    from 0 to 1 with label 1: the assignment [d[x][y] = i] for the index 2
    replaced it. *)
Lemma crystal_digraph_multigraph_counterexample :
  ¬ (dvertices (crystal_digraph two_arrows) = list_to_set (elements_of two_arrows)
     ∧ ∀ x i y, x ∈ elements_of two_arrows → i ∈ index_set_of two_arrows →
                f two_arrows x i = Some y →
                (x, y, i) ∈ dedges (crystal_digraph two_arrows)).
Proof.
  intros [_ Hedges].
  assert ((0%nat, 1%nat, 1) ∈ dedges (crystal_digraph two_arrows)) as Hin.
  { apply Hedges; [set_solver|set_solver|reflexivity]. }
  apply crystal_digraph_edges in Hin as [_ Hlast].
  vm_compute in Hlast. discriminate Hlast.
Qed.

(** C8 (amended).  For every finite crystal, the graph returned by
    [digraph()] has the element set as vertex set; it has an edge from [x]
    to [y] exactly when some index of the index set lowers [x] to [y], and
    then exactly one, labelled by the last such index in index-set order; so
    an index that is the only one lowering [x] to [y] labels the edge from
    [x] to [y]. *)
Theorem crystal_digraph_spec {X : Type} `{Countable X} (C : crystal X) :
  let G := crystal_digraph C in
  (∀ v, v ∈ dvertices G ↔ v ∈ elements_of C)
  ∧ (∀ x y l, (x, y, l) ∈ dedges G ↔
       x ∈ elements_of C ∧ last_index_to C x y = Some l)
  ∧ (∀ x i y, x ∈ elements_of C → i ∈ index_set_of C → f C x i = Some y →
       ∃ l, (x, y, l) ∈ dedges G ∧ l ∈ index_set_of C ∧ f C x l = Some y)
  ∧ (∀ x y l1 l2, (x, y, l1) ∈ dedges G → (x, y, l2) ∈ dedges G → l1 = l2)
  ∧ (∀ x i y, x ∈ elements_of C → i ∈ index_set_of C → f C x i = Some y →
       (∀ j, j ∈ index_set_of C → f C x j = Some y → j = i) →
       (x, y, i) ∈ dedges G).
Proof.
  intros G.
  assert (Hex : ∀ x i y, x ∈ elements_of C → i ∈ index_set_of C →
            f C x i = Some y →
            ∃ l, (x, y, l) ∈ dedges G ∧ l ∈ index_set_of C ∧ f C x l = Some y).
  { intros x i y Hx Hi Hf.
    destruct (last_index_to C x y) as [l|] eqn:El.
    - exists l. destruct (last_index_to_Some C x y l El) as [Hl Hfl].
      split; [|done]. by apply crystal_digraph_edges.
    - exfalso. unfold last_index_to in El. apply last_None in El.
      assert (i ∈ List.filter (λ i, bool_decide (f C x i = Some y)) (index_set_of C))
        as Hin; [|rewrite El in Hin; by apply elem_of_nil in Hin].
      apply list_elem_of_In, filter_In. split; [by apply list_elem_of_In|].
      by apply bool_decide_eq_true. }
  split_and!.
  - intros v. unfold G, crystal_digraph. rewrite DiGraph_of_dict_vertices. split.
    + intros [[dv Hv]|(x & dx & Hx & [l Hl])].
      * destruct (decide (v ∈ elements_of C)) as [|Hn]; [done|].
        destruct (digraph_rounds_lookup C (index_set_of C) v) as [H1 _].
        unfold digraph_dict in Hv. rewrite H1 in Hv by done. discriminate.
      * assert ((x, v, l) ∈ dedges (crystal_digraph C)) as Hin.
        { apply DiGraph_of_dict_edges. eauto. }
        apply crystal_digraph_edges in Hin as [Hxin Hlast].
        destruct (last_index_to_Some C x v l Hlast) as [Hl' Hf].
        by apply (f_closed C x l v).
    + intros Hv. left.
      destruct (digraph_rounds_lookup C (index_set_of C) v) as [_ H2].
      destruct (H2 Hv) as (dx & Hdx & _). unfold digraph_dict. by rewrite Hdx.
  - intros x y l. apply crystal_digraph_edges.
  - done.
  - intros x y l1 l2 [_ H1]%crystal_digraph_edges [_ H2]%crystal_digraph_edges.
    congruence.
  - intros x i y Hx Hi Hf Honly.
    destruct (Hex x i y Hx Hi Hf) as (l & Hin & Hl & Hfl).
    by rewrite <- (Honly l Hl Hfl).
Qed.

(** The single arrow of [one_arrow] is an edge with its own label, and the
    two arrows of [two_arrows] give one edge, labelled 2. *)
Example crystal_digraph_examples :
  (0%nat, 1%nat, 2) ∈ dedges (crystal_digraph one_arrow)
  ∧ elements (dedges (crystal_digraph two_arrows)) = [(0%nat, 1%nat, 2)].
Proof.
  split.
  - apply crystal_digraph_edges. split; [set_solver|reflexivity].
  - reflexivity.
Qed.

Lemma crystal_digraph_spec_witness :
  (0%nat, 1%nat, 2) ∈ dedges (crystal_digraph one_arrow).
Proof.
  destruct (crystal_digraph_spec one_arrow) as (_ & _ & _ & _ & Honly).
  apply Honly.
  - apply list_elem_of_In. simpl. tauto.
  - apply list_elem_of_In. simpl. tauto.
  - reflexivity.
  - intros j Hj Hf. simpl in Hf. destruct (Z.eqb_spec j 2) as [->|Hne]; [reflexivity|].
    simpl in Hf. discriminate Hf.
Defined.

(** ** The examples of the docstrings *)

Lemma val_three : val 3 = 1%R.
Proof. rewrite val_finite by lia. rewrite cos_PI3. lra. Qed.

(** [W.gens()] for the matrix [m] of the class docstring (lines 97-105):
    the first generator has the row [-1 1 1 1] and rows of the identity
    below it. *)
Example gens_docstring :
  ∃ a, gens [[1;3;3;3];[3;1;3;2];[3;3;1;2];[3;2;2;1]] !! 0%nat = Some a
       ∧ rentry a 0 0 = (-1)%R ∧ rentry a 0 1 = 1%R ∧ rentry a 0 2 = 1%R
       ∧ rentry a 0 3 = 1%R ∧ rentry a 1 0 = 0%R ∧ rentry a 1 1 = 1%R
       ∧ length (gens [[1;3;3;3];[3;1;3;2];[3;3;1;2];[3;2;2;1]]) = 4%nat.
Proof.
  eexists. split; [by apply gens_lookup; simpl; lia|].
  rewrite !rentry_mk_matrix by (simpl; lia). unfold gen_entry. simpl.
  change (entry _ 0 0) with 1. change (entry _ 0 1) with 3.
  change (entry _ 0 2) with 3. change (entry _ 0 3) with 3.
  rewrite val_one, val_three. split_and!; lra || done.
Qed.

(** [W.bilinear_form()] for type D_4 (lines 565-570). *)
Example bilinear_form_docstring :
  rentry (bilinear_form [[1;3;2;2];[3;1;3;3];[2;3;1;2];[2;3;2;1]]) 0 1 = (-1 / 2)%R
  ∧ rentry (bilinear_form [[1;3;2;2];[3;1;3;3];[2;3;1;2];[2;3;2;1]]) 0 2 = 0%R
  ∧ rentry (bilinear_form [[1;3;2;2];[3;1;3;3];[2;3;1;2];[2;3;2;1]]) 1 1 = 1%R.
Proof.
  unfold bilinear_form. rewrite !(bilinear_entry 4) by (done || lia).
  change (entry _ 0 1) with 3. change (entry _ 0 2) with 2.
  change (entry _ 1 1) with 1.
  rewrite decide_False, decide_True, decide_False by lia.
  rewrite val_one, val_three. split_and!; lra.
Qed.

(** The graph of the class docstring (lines 147-153),
    [Graph([(0,3,None), (1,3,15), (2,3,7), (0,1,3)])], and its matrix. *)
Example classcall_graph_docstring :
  classcall_private_graph
    (LabelledGraph.add_edge 0 1 (LabelInt 3)
       (LabelledGraph.add_edge 2 3 (LabelInt 7)
          (LabelledGraph.add_edge 1 3 (LabelInt 15)
             (LabelledGraph.add_edge 0 3 LabelNone LabelledGraph.empty))))
    None
  = Ok ([[1;3;2;3];[3;1;2;15];[2;2;1;7];[3;15;7;1]], [0; 1; 2; 3]).
Proof. reflexivity. Qed.

(** The graph with an infinity label (lines 161-166). *)
Example classcall_graph_infinity_docstring :
  classcall_private_graph
    (LabelledGraph.add_edge 0 2 LabelInfinity
       (LabelledGraph.add_edge 1 2 (LabelInt 4)
          (LabelledGraph.add_edge 0 1 LabelNone LabelledGraph.empty)))
    None
  = Ok ([[1;3;-1];[3;1;4];[-1;4;1]], [0; 1; 2]).
Proof. reflexivity. Qed.

(** [coxeter_graph()] for type H_3 with the index set (1, 2, 3)
    (lines 522-526). *)
Example coxeter_graph_docstring :
  LabelledGraph.edges <$> coxeter_graph [[1;3;2];[3;1;5];[2;5;1]] [1; 2; 3]
  = Some [(1, 2, LabelNone); (2, 3, LabelInt 5)].
Proof. reflexivity. Qed.

(** The categories of the [__init__] docstring: types D_5 and H_3 (by their
    Coxeter matrices of lines 173-184) are finite; the matrix [m] of the
    end-to-end example is not. *)
Example finite_docstring :
  finite [[1;3;2;2;2];[3;1;3;2;2];[2;3;1;3;3];[2;2;3;1;2];[2;2;3;2;1]] = Some true
  ∧ finite [[1;3;2];[3;1;5];[2;5;1]] = Some true
  ∧ finite [[1;3;3;3];[3;1;3;2];[3;3;1;2];[3;2;2;1]] = Some false.
Proof. split_and!; reflexivity. Qed.

(* ===================================================================== *)
(** * Part III: further properties of the code *)
(* ===================================================================== *)

(** ** Products with a generator *)

(** Multiplying on the right by the [i]-th generator adds to each column
    [b] the column [i] scaled by [val (M[i, b])]. *)
Lemma rsum_mul_gen_entry (n : nat) (M : matrix) (i b : nat) (P : nat → R) :
  (i < n)%nat → (b < n)%nat →
  rsum (map (λ k, (P k * gen_entry M i k b)%R) (seq 0 n))
  = (P b + P i * val (entry M i b))%R.
Proof.
  intros Hi Hb.
  rewrite (rsum_ext _ (λ k, ((if (k =? b)%nat then P k else 0)
                            + (if (k =? i)%nat then P k * val (entry M i b) else 0))%R)).
  2:{ intros k _. unfold gen_entry.
      destruct (Nat.eqb_spec k b) as [Hkb|Hkb], (Nat.eqb_spec k i) as [Hki|Hki];
        rewrite ?decide_True, ?decide_False by done; subst; lra. }
  rewrite rsum_plus.
  rewrite (rsum_single _ b), (rsum_single _ i);
    try apply NoDup_seq; try (apply elem_of_seq; lia).
  - by rewrite !Nat.eqb_refl.
  - intros k _ Hk. apply Nat.eqb_neq in Hk. by rewrite Hk.
  - intros k _ Hk. apply Nat.eqb_neq in Hk. by rewrite Hk.
Qed.

(** Multiplying on the left by the transpose of the [i]-th generator adds
    to each row [a] the row [i] scaled by [val (M[i, a])]. *)
Lemma rsum_gen_entry_mul (n : nat) (M : matrix) (i a : nat) (Q : nat → R) :
  (i < n)%nat → (a < n)%nat →
  rsum (map (λ k, (gen_entry M i k a * Q k)%R) (seq 0 n))
  = (Q a + val (entry M i a) * Q i)%R.
Proof.
  intros Hi Ha.
  rewrite (rsum_ext _ (λ k, (Q k * gen_entry M i k a)%R)) by (intros; lra).
  rewrite (rsum_mul_gen_entry n) by done. lra.
Qed.

(** Entry [(a, b)] of the product of the [i]-th and the [j]-th generator. *)
Lemma gens_product_entry (n : nat) (M : matrix) (i j a b : nat) :
  (j < n)%nat → (b < n)%nat →
  rsum (map (λ k, (gen_entry M i a k * gen_entry M j k b)%R) (seq 0 n))
  = (gen_entry M i a b + gen_entry M i a j * val (entry M j b))%R.
Proof. intros Hj Hb. by apply (rsum_mul_gen_entry n M j b (gen_entry M i a)). Qed.

Lemma matrix_mul_gens (n : nat) (M : matrix) (i j : nat) :
  (j < n)%nat →
  matrix_mul n (mk_matrix n (gen_entry M i)) (mk_matrix n (gen_entry M j))
  = mk_matrix n (λ a b, (gen_entry M i a b
                         + gen_entry M i a j * val (entry M j b))%R).
Proof.
  intros Hj. unfold matrix_mul. apply mk_matrix_ext. intros a b Ha Hb.
  rewrite <- (gens_product_entry n) by done.
  apply rsum_ext. intros k Hk%elem_of_seq. by rewrite !rentry_mk_matrix by lia.
Qed.

Lemma bilinear_entry_val (n : nat) (M : matrix) (a b : nat) :
  coxeter_matrix_valid n M → (a < n)%nat → (b < n)%nat →
  rentry (bilinear M) a b = (- val (entry M a b) / 2)%R.
Proof.
  intros Hv Ha Hb. rewrite (bilinear_entry n) by (done || by apply (valid_nrows n)).
  destruct (decide (entry M a b = 2)) as [->|_].
  - rewrite val_two. lra.
  - lra.
Qed.

(** X1.  The generators are the reflections of the class docstring,
    [sigma_i v = v - 2 B(alpha_i, v) alpha_i], written with the bilinear
    form the constructor stores: the [i]-th generator is the identity minus
    twice row [i] of [bilinear_form()], placed in row [i]. *)
Theorem gens_reflection_formula (n : nat) (M : matrix) (i : nat) :
  coxeter_matrix_valid n M → (i < n)%nat →
  ∃ g, gens M !! i = Some g ∧
    ∀ a b, (a < n)%nat → (b < n)%nat →
      rentry g a b
      = ((if (a =? b)%nat then 1 else 0)
         - 2 * (if (a =? i)%nat then rentry (bilinear_form M) i b else 0))%R.
Proof.
  intros Hv Hi. pose proof (valid_nrows n M Hv) as Hn.
  exists (mk_matrix n (gen_entry M i)). split.
  { rewrite <- Hn. apply gens_lookup. lia. }
  intros a b Ha Hb. rewrite rentry_mk_matrix by done. unfold gen_entry, bilinear_form.
  rewrite (bilinear_entry_val n) by done.
  destruct (Nat.eqb_spec a i) as [->|Hai].
  - rewrite decide_True by done. lra.
  - rewrite decide_False by done. lra.
Qed.

Lemma gens_reflection_formula_witness :
  ∃ g, gens [[1;3;2];[3;1;5];[2;5;1]] !! 1%nat = Some g
       ∧ rentry g 1 2
         = Rminus 0%R
             (Rmult 2%R (rentry (bilinear_form [[1;3;2];[3;1;5];[2;5;1]]) 1 2)).
Proof.
  destruct (gens_reflection_formula 3 [[1;3;2];[3;1;5];[2;5;1]] 1) as (g & Hg & He).
  - apply coxeter_matrix_validb_spec. reflexivity.
  - lia.
  - exists g. split; [exact Hg|]. apply (He 1%nat 2%nat); lia.
Defined.

(** X2.  Every generator preserves the bilinear form: with [g] the [i]-th
    generator and [B] the matrix of [bilinear_form()], [g^T B g = B]. *)
Theorem gens_preserve_bilinear_form (n : nat) (M : matrix) (i : nat) :
  coxeter_matrix_valid n M → (i < n)%nat →
  ∃ g, gens M !! i = Some g ∧
    matrix_mul n (matrix_mul n (matrix_transpose n g) (bilinear_form M)) g
    = bilinear_form M.
Proof.
  intros Hv Hi. pose proof (valid_nrows n M Hv) as Hn.
  exists (mk_matrix n (gen_entry M i)). split.
  { rewrite <- Hn. apply gens_lookup. lia. }
  unfold bilinear_form.
  assert (HB : bilinear M = mk_matrix n (rentry (bilinear M))).
  { unfold bilinear, matrix_of_entries. rewrite Hn. apply mk_matrix_ext.
    intros a b Ha Hb. by rewrite rentry_mk_matrix. }
  rewrite HB at 2. unfold matrix_mul, matrix_transpose.
  apply mk_matrix_ext. intros a c Ha Hc.
  rewrite (rsum_ext _ (λ d, ((rentry (bilinear M) a d
                              + val (entry M i a) * rentry (bilinear M) i d)
                             * gen_entry M i d c)%R)).
  2:{ intros d Hd%elem_of_seq. rewrite !rentry_mk_matrix by lia. f_equal.
      rewrite <- (rsum_gen_entry_mul n M i a (λ k, rentry (bilinear M) k d))
        by (done || lia).
      apply rsum_ext. intros k Hk%elem_of_seq. by rewrite !rentry_mk_matrix by lia. }
  rewrite (rsum_mul_gen_entry n) by done.
  rewrite !(bilinear_entry_val n) by done.
  rewrite (cm_diag n M Hv i Hi), val_one.
  rewrite (cm_sym n M Hv a i) by done. lra.
Qed.

Lemma gens_preserve_bilinear_form_witness :
  ∃ g, gens [[1;3;2];[3;1;5];[2;5;1]] !! 2%nat = Some g
       ∧ matrix_mul 3 (matrix_mul 3 (matrix_transpose 3 g)
                         (bilinear_form [[1;3;2];[3;1;5];[2;5;1]])) g
         = bilinear_form [[1;3;2];[3;1;5];[2;5;1]].
Proof.
  apply (gens_preserve_bilinear_form 3 [[1;3;2];[3;1;5];[2;5;1]] 2).
  - apply coxeter_matrix_validb_spec. reflexivity.
  - lia.
Defined.

(** X3.  Two generators whose label is 2 commute. *)
Theorem gens_commute (n : nat) (M : matrix) (i j : nat) :
  coxeter_matrix_valid n M → (i < n)%nat → (j < n)%nat → entry M i j = 2 →
  ∃ gi gj, gens M !! i = Some gi ∧ gens M !! j = Some gj
           ∧ matrix_mul n gi gj = matrix_mul n gj gi.
Proof.
  intros Hv Hi Hj Hij. pose proof (valid_nrows n M Hv) as Hn.
  exists (mk_matrix n (gen_entry M i)), (mk_matrix n (gen_entry M j)).
  split; [rewrite <- Hn; apply gens_lookup; lia|].
  split; [rewrite <- Hn; apply gens_lookup; lia|].
  assert (i ≠ j) as Hne.
  { intros ->. rewrite (cm_diag n M Hv j Hj) in Hij. lia. }
  rewrite !(matrix_mul_gens n) by done. apply mk_matrix_ext. intros a b Ha Hb.
  unfold gen_entry.
  assert (entry M j i = 2) as Hji by (by rewrite <- (cm_sym n M Hv i j)).
  rewrite Hij, Hji, val_two.
  destruct (Nat.eqb_spec a i) as [Hai|Hai], (Nat.eqb_spec a j) as [Haj|Haj];
    try congruence;
    destruct (decide (a = i)), (decide (a = j)); try congruence;
    destruct (a =? b)%nat; lra.
Qed.

Lemma gens_commute_witness :
  ∃ gi gj, gens [[1;3;2];[3;1;5];[2;5;1]] !! 0%nat = Some gi
           ∧ gens [[1;3;2];[3;1;5];[2;5;1]] !! 2%nat = Some gj
           ∧ matrix_mul 3 gi gj = matrix_mul 3 gj gi.
Proof.
  apply (gens_commute 3 [[1;3;2];[3;1;5];[2;5;1]] 0 2).
  - apply coxeter_matrix_validb_spec. reflexivity.
  - lia.
  - lia.
  - reflexivity.
Defined.

Lemma matrix_mul_gen_r (n : nat) (M : matrix) (i : nat) (P : nat → nat → R) :
  (i < n)%nat →
  matrix_mul n (mk_matrix n P) (mk_matrix n (gen_entry M i))
  = mk_matrix n (λ a b, (P a b + P a i * val (entry M i b))%R).
Proof.
  intros Hi. unfold matrix_mul. apply mk_matrix_ext. intros a b Ha Hb.
  rewrite <- (rsum_mul_gen_entry n M i b (P a)) by done.
  apply rsum_ext. intros k Hk%elem_of_seq. by rewrite !rentry_mk_matrix by lia.
Qed.

(** X4.  Two generators whose label is 3 satisfy the braid relation
    [g_i g_j g_i = g_j g_i g_j] (the docstring checks [a*c*a == c*a*c]). *)
Theorem gens_braid_three (n : nat) (M : matrix) (i j : nat) :
  coxeter_matrix_valid n M → (i < n)%nat → (j < n)%nat → entry M i j = 3 →
  ∃ gi gj, gens M !! i = Some gi ∧ gens M !! j = Some gj
           ∧ matrix_mul n (matrix_mul n gi gj) gi
             = matrix_mul n (matrix_mul n gj gi) gj.
Proof.
  intros Hv Hi Hj Hij. pose proof (valid_nrows n M Hv) as Hn.
  exists (mk_matrix n (gen_entry M i)), (mk_matrix n (gen_entry M j)).
  split; [rewrite <- Hn; apply gens_lookup; lia|].
  split; [rewrite <- Hn; apply gens_lookup; lia|].
  assert (i ≠ j) as Hne.
  { intros ->. rewrite (cm_diag n M Hv j Hj) in Hij. lia. }
  assert (entry M j i = 3) as Hji by (by rewrite <- (cm_sym n M Hv i j)).
  rewrite !(matrix_mul_gens n), !(matrix_mul_gen_r n) by done.
  apply mk_matrix_ext. intros a b Ha Hb. unfold gen_entry.
  rewrite Hij, Hji, (cm_diag n M Hv i Hi), (cm_diag n M Hv j Hj), val_one, val_three.
  destruct (Nat.eqb_spec a i) as [Hai|Hai], (Nat.eqb_spec a j) as [Haj|Haj];
    try congruence;
    destruct (decide (a = i)), (decide (a = j)); try congruence;
    destruct (a =? b)%nat; lra.
Qed.

Lemma gens_braid_three_witness :
  ∃ gi gj, gens [[1;3;2];[3;1;5];[2;5;1]] !! 0%nat = Some gi
           ∧ gens [[1;3;2];[3;1;5];[2;5;1]] !! 1%nat = Some gj
           ∧ matrix_mul 3 (matrix_mul 3 gi gj) gi
             = matrix_mul 3 (matrix_mul 3 gj gi) gj.
Proof.
  apply (gens_braid_three 3 [[1;3;2];[3;1;5];[2;5;1]] 0 1).
  - apply coxeter_matrix_validb_spec. reflexivity.
  - lia.
  - lia.
  - reflexivity.
Defined.

(** ** Simple reflections and right descents *)

Lemma list_index_NoDup (l : list Z) (k : nat) (x : Z) :
  NoDup l → l !! k = Some x → list_index l x = Ok k.
Proof.
  intros Hnd Hk. unfold list_index.
  destruct (list_find _ l) as [[j y]|] eqn:E.
  - apply list_find_Some in E as (Hj & -> & _).
    f_equal. by apply (NoDup_lookup l j k x).
  - apply list_find_None in E. rewrite Forall_forall in E.
    exfalso. apply (E x); [|done]. apply list_elem_of_lookup. eauto.
Qed.

Lemma list_index_Ok (l : list Z) (k : nat) (x : Z) :
  list_index l x = Ok k → l !! k = Some x.
Proof.
  unfold list_index. destruct (list_find _ l) as [[j y]|] eqn:E; [|done].
  intros [= <-]. by apply list_find_Some in E as (Hj & -> & _).
Qed.

Lemma list_index_elem (l : list Z) (x : Z) :
  x ∈ l → ∃ k, list_index l x = Ok k.
Proof.
  intros Hx. unfold list_index.
  destruct (list_find _ l) as [[j y]|] eqn:E; [eauto|].
  apply list_find_None in E. rewrite Forall_forall in E. by destruct (E x).
Qed.

(** X5.  [simple_reflection] raises its [ValueError] exactly for the labels
    outside the index set, and for the [k]-th label of a duplicate-free
    index set it returns the [k]-th generator. *)
Theorem simple_reflection_spec (n : nat) (M : matrix) (index_set : list Z) :
  nrows M = n → NoDup index_set →
  (∀ i, (∃ msg, simple_reflection M index_set i = ValueError msg) ↔ i ∉ index_set)
  ∧ (∀ k i, (k < n)%nat → index_set !! k = Some i →
       ∃ g, simple_reflection M index_set i = Ok (Some g) ∧ gens M !! k = Some g).
Proof.
  intros Hn Hnd. split.
  - intros i. unfold simple_reflection. case_bool_decide as Hi.
    + split; [done|eauto].
    + destruct (list_index_elem _ _ Hi) as [k ->]. simpl.
      split; [intros [msg Hmsg]; discriminate|done].
  - intros k i Hk Hi. unfold simple_reflection.
    rewrite bool_decide_false.
    2:{ intros Hni. apply Hni, list_elem_of_lookup. eauto. }
    rewrite (list_index_NoDup _ _ _ Hnd Hi). simpl.
    exists (mk_matrix (nrows M) (gen_entry M k)).
    rewrite gens_lookup by lia. done.
Qed.

Lemma simple_reflection_spec_witness :
  ∃ g, simple_reflection [[1;3;2];[3;1;5];[2;5;1]] [1; 2; 3] 2 = Ok (Some g)
       ∧ gens [[1;3;2];[3;1;5];[2;5;1]] !! 1%nat = Some g.
Proof.
  destruct (simple_reflection_spec 3 [[1;3;2];[3;1;5];[2;5;1]] [1; 2; 3])
    as [_ H].
  - reflexivity.
  - apply (bool_decide_unpack _). vm_compute. exact I.
  - apply (H 1%nat 2); [lia|reflexivity].
Defined.

Lemma Rleb_true (x y : R) : Rleb x y = true ↔ (x <= y)%R.
Proof. unfold Rleb. destruct (Rle_dec x y); split; done || lra. Qed.

Lemma has_right_descent_column (n : nat) (index_set : list Z) (w : rmatrix)
    (k : nat) (j : Z) :
  NoDup index_set → (k < n)%nat → index_set !! k = Some j →
  has_right_descent n index_set w j
  = Ok (Some (forallb (λ x, Rleb x 0) (map (λ a, rentry w a k) (seq 0 n)))).
Proof.
  intros Hnd Hk Hj. unfold has_right_descent, column.
  rewrite (list_index_NoDup _ _ _ Hnd Hj). simpl.
  by rewrite bool_decide_true.
Qed.

Lemma column_nonpositive (n : nat) (w : rmatrix) (k : nat) :
  forallb (λ x, Rleb x 0) (map (λ a, rentry w a k) (seq 0 n)) = true
  ↔ ∀ a, (a < n)%nat → (rentry w a k <= 0)%R.
Proof.
  rewrite forallb_forall. split.
  - intros H a Ha. apply Rleb_true, H, in_map_iff. exists a. split; [done|].
    apply in_seq. lia.
  - intros H x (a & <- & Ha%in_seq)%in_map_iff. apply Rleb_true, H. lia.
Qed.

(** X6.  The identity element has no right descent, and the only right
    descent of a simple reflection is its own label. *)
Theorem has_right_descent_simple (n : nat) (M : matrix) (index_set : list Z)
    (k l : nat) (i j : Z) :
  coxeter_matrix_valid n M → NoDup index_set →
  (k < n)%nat → (l < n)%nat →
  index_set !! k = Some i → index_set !! l = Some j →
  has_right_descent n index_set (matrix_one n) j = Ok (Some false)
  ∧ ∃ g, simple_reflection M index_set i = Ok (Some g)
         ∧ has_right_descent n index_set g j = Ok (Some (bool_decide (j = i))).
Proof.
  intros Hv Hnd Hk Hl Hi Hj. pose proof (valid_nrows n M Hv) as Hn. split.
  - rewrite (has_right_descent_column n index_set _ l j) by done.
    do 2 f_equal. apply not_true_is_false. intros Hall.
    pose proof (proj1 (column_nonpositive n _ l) Hall l Hl) as Hle.
    unfold matrix_one in Hle. rewrite rentry_mk_matrix, Nat.eqb_refl in Hle by done.
    lra.
  - exists (mk_matrix n (gen_entry M k)). split.
    { unfold simple_reflection. rewrite bool_decide_false.
      2:{ intros Hni. apply Hni, list_elem_of_lookup. eauto. }
      rewrite (list_index_NoDup _ _ _ Hnd Hi). simpl.
      rewrite <- Hn. by rewrite gens_lookup by lia. }
    rewrite (has_right_descent_column n index_set _ l j) by done.
    do 2 f_equal. case_bool_decide as Hji.
    + subst j. assert (l = k) as -> by (by apply (NoDup_lookup index_set l k i)).
      apply column_nonpositive. intros a Ha.
      rewrite rentry_mk_matrix by done. unfold gen_entry.
      destruct (Nat.eqb_spec a k) as [->|Hak].
      * rewrite decide_True by done. rewrite (cm_diag n M Hv k Hk), val_one. lra.
      * rewrite decide_False by done. lra.
    + apply not_true_is_false. intros Hall.
      pose proof (proj1 (column_nonpositive n _ l) Hall l Hl) as Hle.
      rewrite rentry_mk_matrix in Hle by done. unfold gen_entry in Hle.
      rewrite Nat.eqb_refl, decide_False in Hle; [lra|].
      intros ->. apply Hji. congruence.
Qed.

Lemma has_right_descent_simple_witness :
  ∃ g, simple_reflection [[1;3;2];[3;1;5];[2;5;1]] [1; 2; 3] 2 = Ok (Some g)
       ∧ has_right_descent 3 [1; 2; 3] g 3 = Ok (Some (bool_decide (3 = 2))).
Proof.
  destruct (has_right_descent_simple 3 [[1;3;2];[3;1;5];[2;5;1]] [1; 2; 3]
              1 2 2 3) as [_ H].
  - apply coxeter_matrix_validb_spec. reflexivity.
  - apply (bool_decide_unpack _). vm_compute. exact I.
  - lia.
  - lia.
  - reflexivity.
  - reflexivity.
  - exact H.
Defined.

(** X7.  Multiplying an element on the right by the generator of [j]
    negates column [j] of its matrix; so [j] is a right descent of both
    [w] and [w * s_j] only if that column of [w] vanishes. *)
Theorem has_right_descent_mul_gen (n : nat) (M : matrix) (index_set : list Z)
    (k : nat) (j : Z) (w g : rmatrix) :
  coxeter_matrix_valid n M → NoDup index_set → (k < n)%nat →
  index_set !! k = Some j → gens M !! k = Some g →
  (∀ a, (a < n)%nat → rentry (matrix_mul n w g) a k = (- rentry w a k)%R)
  ∧ (has_right_descent n index_set w j = Ok (Some true) →
     has_right_descent n index_set (matrix_mul n w g) j = Ok (Some true) →
     ∀ a, (a < n)%nat → rentry w a k = 0%R).
Proof.
  intros Hv Hnd Hk Hj Hg. pose proof (valid_nrows n M Hv) as Hn.
  rewrite gens_lookup in Hg by lia. injection Hg as <-. rewrite Hn.
  assert (Hneg : ∀ a, (a < n)%nat →
            rentry (matrix_mul n w (mk_matrix n (gen_entry M k))) a k
            = (- rentry w a k)%R).
  { intros a Ha. unfold matrix_mul. rewrite rentry_mk_matrix by done.
    rewrite (rsum_ext _ (λ c, (rentry w a c * gen_entry M k c k)%R)).
    2:{ intros c Hc%elem_of_seq. by rewrite rentry_mk_matrix by lia. }
    rewrite (rsum_mul_gen_entry n) by done.
    rewrite (cm_diag n M Hv k Hk), val_one. lra. }
  split; [done|]. intros H1 H2 a Ha.
  rewrite (has_right_descent_column n index_set _ k j) in H1 by done.
  rewrite (has_right_descent_column n index_set _ k j) in H2 by done.
  injection H1 as H1. injection H2 as H2.
  pose proof (proj1 (column_nonpositive n _ k) H1 a Ha).
  pose proof (proj1 (column_nonpositive n _ k) H2 a Ha) as H'.
  rewrite Hneg in H' by done. lra.
Qed.

Lemma has_right_descent_mul_gen_witness :
  rentry (matrix_mul 3 (matrix_one 3)
            (mk_matrix 3 (gen_entry [[1;3;2];[3;1;5];[2;5;1]] 0))) 0 0
  = Ropp (rentry (matrix_one 3) 0 0).
Proof.
  destruct (has_right_descent_mul_gen 3 [[1;3;2];[3;1;5];[2;5;1]] [1; 2; 3]
              0 1 (matrix_one 3)
              (mk_matrix 3 (gen_entry [[1;3;2];[3;1;5];[2;5;1]] 0))) as [H _].
  - apply coxeter_matrix_validb_spec. reflexivity.
  - apply (bool_decide_unpack _). vm_compute. exact I.
  - lia.
  - reflexivity.
  - apply (gens_lookup [[1;3;2];[3;1;5];[2;5;1]] 0). simpl. lia.
  - apply (H 0%nat). lia.
Defined.

(** ** The graph branch of the constructor *)

Lemma vertices_elem (G : lgraph) (v : Z) :
  v ∈ LabelledGraph.vertices G ↔ v ∈ lverts G.
Proof.
  unfold LabelledGraph.vertices. by rewrite sorted_elem_of, elem_of_elements.
Qed.

Lemma vertices_length (G : lgraph) :
  length (LabelledGraph.vertices G) = LabelledGraph.num_verts G.
Proof. unfold LabelledGraph.vertices. by rewrite sorted_length. Qed.

Lemma StronglySorted_le_lt (l : list Z) :
  StronglySorted Z.le l → NoDup l → Sorted Z.lt l.
Proof.
  induction 1 as [|x l Hl IH Hall]; intros Hnd; [constructor|].
  apply NoDup_cons in Hnd as [Hx Hnd]. constructor; [by apply IH|].
  destruct l as [|y l]; constructor.
  apply Forall_cons in Hall as [Hxy _].
  assert (x ≠ y) by (intros ->; apply Hx; set_solver). lia.
Qed.

(** [G.vertices()] is strictly increasing. *)
Lemma vertices_Sorted (G : lgraph) : Sorted Z.lt (LabelledGraph.vertices G).
Proof.
  apply StronglySorted_le_lt; [apply sorted_Z_Sorted|].
  unfold LabelledGraph.vertices. rewrite sorted_perm. apply NoDup_elements.
Qed.

Lemma lgraph_wf_positions (G : lgraph) u v lab :
  lgraph_wf G → ledges G !! (u, v) = Some lab →
  ∃ i k, (i < k)%nat ∧ (k < length (LabelledGraph.vertices G))%nat
         ∧ LabelledGraph.vertices G !! i = Some u
         ∧ LabelledGraph.vertices G !! k = Some v.
Proof.
  intros Hwf Hlab. destruct (Hwf u v lab Hlab) as (Huv & Hu & Hv).
  apply vertices_elem, list_elem_of_lookup in Hu as [i Hi].
  apply vertices_elem, list_elem_of_lookup in Hv as [k Hk].
  exists i, k. split_and!; [|by apply lookup_lt_Some in Hk|done|done].
  destruct (decide (i < k)%nat) as [|Hge]; [done|]. exfalso.
  destruct (decide (i = k)) as [->|Hne]; [simplify_eq; lia|].
  pose proof (increasing_lookup _ k i v u (vertices_Sorted G) ltac:(lia) Hk Hi).
  lia.
Qed.

Lemma coxeter_label_error (lab : edge_label) :
  (∃ msg, coxeter_label lab = ValueError msg)
  ↔ ∃ m, lab = LabelInt m ∧ m <= 1 ∧ m ≠ -1.
Proof.
  destruct lab as [|m|]; simpl.
  - split; [intros [msg [=]]|intros (m & [=] & _)].
  - case_bool_decide as H1; [|case_bool_decide as H2].
    + split; [intros [msg [=]]|intros (m' & [= <-] & _ & Hne); done].
    + split; [intros _; exists m; done|intros _; eauto].
    + split; [intros [msg [=]]|intros (m' & [= <-] & Hle & _); lia].
  - split; [intros [msg [=]]|intros (m & [=] & _)].
Qed.

Lemma coxeter_label_Ok (lab : edge_label) :
  (∃ m, coxeter_label lab = Ok m)
  ∨ (∃ m, lab = LabelInt m ∧ m <= 1 ∧ m ≠ -1).
Proof.
  unfold coxeter_label. destruct lab as [|m|]; [eauto| |eauto].
  case_bool_decide as H1; [eauto|]. case_bool_decide as H2; [|eauto].
  right. exists m. done.
Qed.

Lemma coxeter_label_range (lab : edge_label) (m : Z) :
  coxeter_label lab = Ok m → 2 <= m ∨ m = -1.
Proof.
  unfold coxeter_label. destruct lab as [|m'|]; repeat case_bool_decide;
    intros [= <-]; lia.
Qed.

(** Once an edge is refused the loop over the edges ends with the error. *)
Lemma graph_edges_loop_error (verts : list Z) (es : list (Z * Z * edge_label))
    (r : result matrix) (e : Z * Z * edge_label) :
  e ∈ es → (∃ msg, coxeter_label e.2 = ValueError msg) →
  ∃ msg, foldl (λ r e, data ← r; graph_edge_step verts data e) r es
         = ValueError msg.
Proof.
  intros Hin [msg Hmsg]. revert Hin.
  induction es as [|e' es IH] using rev_ind; intros Hin.
  - by apply elem_of_nil in Hin.
  - rewrite foldl_app. simpl.
    apply elem_of_app in Hin as [Hin|Hin].
    + destruct (IH Hin) as [msg' ->]. eauto.
    + apply list_elem_of_singleton in Hin as <-.
      destruct (foldl _ r es) as [data|msg']; simpl; [|eauto].
      unfold graph_edge_step. rewrite Hmsg. eauto.
Qed.

(** The matrix the graph branch builds from a simple graph with admissible
    labels. *)
Lemma classcall_private_graph_entries (G : lgraph) :
  lgraph_wf G →
  (∀ u v lab, ledges G !! (u, v) = Some lab → ∃ m, coxeter_label lab = Ok m) →
  let V := LabelledGraph.vertices G in
  let n := length V in
  ∃ data,
    classcall_private_graph G None = Ok (data, V)
    ∧ square n data
    ∧ (∀ a, (a < n)%nat → entry data a a = 1)
    ∧ (∀ a b, (a < b)%nat → (b < n)%nat → entry data b a = entry data a b)
    ∧ (∀ a b u v, (a < b)%nat → (b < n)%nat → V !! a = Some u → V !! b = Some v →
         (∀ lab, ledges G !! (u, v) = Some lab →
                 coxeter_label lab = Ok (entry data a b))
         ∧ (ledges G !! (u, v) = None → entry data a b = 2)).
Proof.
  intros Hwf Hlabels V n.
  destruct (graph_edges_loop_spec n V (LabelledGraph.edges G) (vertices_Sorted G) eq_refl)
    as (data & Hdata & Hsq & Hdiag & Hsym & Hlab).
  { intros u v lab Hin%edges_elem.
    destruct (lgraph_wf_positions G u v lab Hwf Hin) as (i & k & Hik & Hk & Hi & Hk').
    destruct (Hlabels u v lab Hin) as [m Hm]. exists i, k, m. done. }
  { intros [u v] l1 l2 H1%edges_elem H2%edges_elem. congruence. }
  exists data. split.
  { unfold classcall_private_graph. rewrite <- vertices_length.
    fold V. fold n. rewrite Hdata. done. }
  split; [done|]. split; [done|]. split; [done|].
  intros a b u v Hab Hb Hu Hv. destruct (Hlab a b u v Hab Hb Hu Hv) as [H1 H2]. split.
  - intros lab Hin%edges_elem. by apply H1.
  - intros Hnone. apply H2. intros lab Hin%edges_elem. congruence.
Qed.

(** X8.  On a simple graph the graph branch raises [ValueError] exactly
    when some edge carries an integer label that is at most 1 and is not
    -1. *)
Theorem classcall_private_graph_error_iff (G : lgraph) (index_set : option (list Z)) :
  lgraph_wf G →
  (∃ msg, classcall_private_graph G index_set = ValueError msg)
  ↔ ∃ u v m, ledges G !! (u, v) = Some (LabelInt m) ∧ m <= 1 ∧ m ≠ -1.
Proof.
  intros Hwf. split.
  - intros [msg Hmsg].
    destruct (existsb (λ kl : Z * Z * edge_label,
                         match coxeter_label kl.2 with
                         | Ok _ => false
                         | ValueError _ => true
                         end) (map_to_list (ledges G))) eqn:E.
    + apply existsb_exists in E as ([[u v] lab] & Hin & Hbad). simpl in Hbad.
      apply list_elem_of_In, elem_of_map_to_list in Hin.
      destruct (coxeter_label_Ok lab) as [[m Hok]|(m & -> & Hm)].
      * rewrite Hok in Hbad. discriminate.
      * exists u, v, m. done.
    + destruct (classcall_private_graph_entries G Hwf) as (data & Hd & _).
      { intros u v lab Hin.
        destruct (coxeter_label_Ok lab) as [Hok|(m & -> & Hm)]; [done|].
        assert (existsb (λ kl : Z * Z * edge_label,
                         match coxeter_label kl.2 with
                         | Ok _ => false
                         | ValueError _ => true
                         end) (map_to_list (ledges G)) = true) as Habs;
          [|congruence].
        apply existsb_exists. exists (u, v, LabelInt m). split.
        - by apply list_elem_of_In, elem_of_map_to_list.
        - simpl. destruct (proj2 (coxeter_label_error (LabelInt m))) as [msg' Hm'];
            [eauto|]. simpl in Hm'. by rewrite Hm'. }
      exfalso. unfold classcall_private_graph in *.
      destruct (foldl _ _ _) as [d|msg']; simpl in *; [|done].
      destruct index_set; discriminate.
  - intros (u & v & m & Hin & Hle & Hne).
    destruct (graph_edges_loop_error (LabelledGraph.vertices G)
                (LabelledGraph.edges G)
                (Ok (map (λ i, map (λ j, if (i =? j)%nat then 1 else 2)
                                   (seq 0 (LabelledGraph.num_verts G)))
                         (seq 0 (LabelledGraph.num_verts G))))
                (u, v, LabelInt m)) as [msg Hmsg].
    + by apply edges_elem.
    + apply coxeter_label_error. eauto.
    + exists msg. unfold classcall_private_graph. by rewrite Hmsg.
Qed.

Lemma classcall_private_graph_error_iff_witness :
  ∃ msg, classcall_private_graph
           (LabelledGraph.add_edge 0 1 (LabelInt 1) LabelledGraph.empty) None
         = ValueError msg.
Proof.
  apply (classcall_private_graph_error_iff
           (LabelledGraph.add_edge 0 1 (LabelInt 1) LabelledGraph.empty) None).
  - intros u v lab Hlab. simpl in Hlab.
    apply lookup_insert_Some in Hlab as [[[= <- <-] _]|[_ Hlab]].
    + split; [lia|]. split; apply elem_of_union_r; set_solver.
    + rewrite lookup_empty in Hlab. discriminate Hlab.
  - exists 0, 1, 1. split; [reflexivity|lia].
Defined.

Lemma labels_admissible (G : lgraph) :
  (∀ u v m, ledges G !! (u, v) = Some (LabelInt m) → 1 < m ∨ m = -1) →
  ∀ u v lab, ledges G !! (u, v) = Some lab → ∃ m, coxeter_label lab = Ok m.
Proof.
  intros Hgood u v lab Hlab.
  destruct (coxeter_label_Ok lab) as [Hok|(m & -> & Hle & Hne)]; [done|].
  destruct (Hgood u v m Hlab); lia.
Qed.

(** X9.  From a simple graph whose integer labels are above 1 or -1, the
    graph branch returns the sorted vertex list as index set and a valid
    Coxeter matrix, which the matrix branch then accepts unchanged. *)
Theorem classcall_private_graph_valid (G : lgraph) :
  lgraph_wf G →
  (∀ u v m, ledges G !! (u, v) = Some (LabelInt m) → 1 < m ∨ m = -1) →
  ∃ M, classcall_private_graph G None = Ok (M, LabelledGraph.vertices G)
       ∧ coxeter_matrix_valid (LabelledGraph.num_verts G) M
       ∧ classcall_private_matrix M (Some (LabelledGraph.vertices G))
         = Ok (M, LabelledGraph.vertices G).
Proof.
  intros Hwf Hgood.
  destruct (classcall_private_graph_entries G Hwf (labels_admissible G Hgood))
    as (M & HM & Hsq & Hdiag & Hsym & Hlab).
  rewrite vertices_length in *.
  assert (Hv : coxeter_matrix_valid (LabelledGraph.num_verts G) M).
  { split; [done|..|done|].
    - intros i j Hi Hj. destruct (Nat.lt_total i j) as [Hlt|[->|Hlt]]; [|done|].
      + symmetry. by apply Hsym.
      + by apply Hsym.
    - assert (Hup : ∀ a b, (a < b)%nat → (b < LabelledGraph.num_verts G)%nat →
                2 <= entry M a b ∨ entry M a b = -1).
      { intros a b Hab Hb.
        destruct (lookup_lt_is_Some_2 (LabelledGraph.vertices G) a) as [u Hu];
          [rewrite vertices_length; lia|].
        destruct (lookup_lt_is_Some_2 (LabelledGraph.vertices G) b) as [v Hv];
          [rewrite vertices_length; lia|].
        destruct (Hlab a b u v Hab Hb Hu Hv) as [H1 H2].
        destruct (ledges G !! (u, v)) as [lab|] eqn:E.
        - by apply (coxeter_label_range lab), H1.
        - rewrite H2 by done. lia. }
      intros i j Hi Hj Hne. destruct (Nat.lt_total i j) as [Hlt|[->|Hlt]]; [|done|].
      + by apply Hup.
      + rewrite Hsym by done. by apply Hup. }
  exists M. split; [done|]. split; [done|].
  by apply (classcall_private_matrix_valid (LabelledGraph.num_verts G)).
Qed.

Lemma classcall_private_graph_valid_witness :
  ∃ M, classcall_private_graph
         (LabelledGraph.add_edge 0 1 (LabelInt 4) LabelledGraph.empty) None
       = Ok (M, LabelledGraph.vertices
                  (LabelledGraph.add_edge 0 1 (LabelInt 4) LabelledGraph.empty)).
Proof.
  destruct (classcall_private_graph_valid
              (LabelledGraph.add_edge 0 1 (LabelInt 4) LabelledGraph.empty))
    as (M & HM & _).
  - intros u v lab Hlab. simpl in Hlab.
    apply lookup_insert_Some in Hlab as [[[= <- <-] _]|[_ Hlab]].
    + split; [lia|]. split; apply elem_of_union_r; set_solver.
    + rewrite lookup_empty in Hlab. discriminate Hlab.
  - intros u v m Hlab. simpl in Hlab.
    apply lookup_insert_Some in Hlab as [[_ [= <-]]|[_ Hlab]].
    + lia.
    + rewrite lookup_empty in Hlab. discriminate Hlab.
  - exists M. exact HM.
Defined.

Lemma canonical_label_diagram (lab : edge_label) (m : Z) :
  canonical_label lab → coxeter_label lab = Ok m → diagram_label m = Some lab.
Proof.
  unfold canonical_label, coxeter_label, diagram_label.
  destruct lab as [|m'|]; intros Hc.
  - by intros [= <-].
  - rewrite !bool_decide_false by lia. intros [= <-].
    rewrite bool_decide_false, bool_decide_true by lia. done.
  - by intros [= <-].
Qed.

(** X10.  Graph to matrix to graph: for a simple graph whose labels are the
    ones [coxeter_graph] writes (none for 3, integers above 3, infinity),
    the Coxeter graph of the group built from the graph is the graph
    itself. *)
Theorem coxeter_graph_of_graph (G : lgraph) :
  lgraph_wf G →
  (∀ u v lab, ledges G !! (u, v) = Some lab → canonical_label lab) →
  ∃ M, classcall_private_graph G None = Ok (M, LabelledGraph.vertices G)
       ∧ coxeter_graph M (LabelledGraph.vertices G) = Some G.
Proof.
  intros Hwf Hcan.
  assert (Hgood : ∀ u v m, ledges G !! (u, v) = Some (LabelInt m) → 1 < m ∨ m = -1).
  { intros u v m Hlab. specialize (Hcan u v _ Hlab). simpl in Hcan. lia. }
  destruct (classcall_private_graph_valid G Hwf Hgood) as (M & HM & Hv & _).
  destruct (classcall_private_graph_entries G Hwf (labels_admissible G Hgood))
    as (M' & HM' & _ & _ & _ & Hlab).
  assert (M' = M) as -> by congruence.
  exists M. split; [done|].
  destruct (coxeter_graph_spec _ M (LabelledGraph.vertices G) Hv
              (vertices_length G) (vertices_Sorted G)) as (G' & HG' & Hverts & Hedges).
  rewrite HG'. f_equal. destruct G as [V E], G' as [V' E']. simpl in *. f_equal.
  - rewrite Hverts. apply set_eq. intros v.
    rewrite elem_of_list_to_set. apply (vertices_elem (LGraph V E)).
  - apply map_eq. intros [u v]. apply option_eq. intros lab.
    rewrite Hedges. split.
    + intros (i & k & u' & v' & Hik & Hk & Hu & Hv' & [= -> ->] & Hd).
      rewrite <- (vertices_length (LGraph V E)) in Hk.
      destruct (Hlab i k u' v' Hik Hk Hu Hv') as [H1 H2].
      destruct (E !! (u', v')) as [lab'|] eqn:El.
      * rewrite <- Hd. f_equal. symmetry.
        apply canonical_label_diagram; [by apply (Hcan u' v')|by apply H1].
      * rewrite H2 in Hd by done. discriminate.
    + intros Hin.
      destruct (lgraph_wf_positions (LGraph V E) u v lab Hwf Hin)
        as (i & k & Hik & Hk & Hi & Hk').
      destruct (Hlab i k u v Hik Hk Hi Hk') as [H1 _].
      exists i, k, u, v. rewrite <- (vertices_length (LGraph V E)).
      split_and!; try done.
      apply canonical_label_diagram; [by apply (Hcan u v)|by apply H1].
Qed.

Lemma coxeter_graph_of_graph_witness :
  ∃ M, classcall_private_graph
         (LabelledGraph.add_edge 0 1 (LabelInt 4) LabelledGraph.empty) None
       = Ok (M, LabelledGraph.vertices
                  (LabelledGraph.add_edge 0 1 (LabelInt 4) LabelledGraph.empty))
       ∧ coxeter_graph M (LabelledGraph.vertices
                  (LabelledGraph.add_edge 0 1 (LabelInt 4) LabelledGraph.empty))
         = Some (LabelledGraph.add_edge 0 1 (LabelInt 4) LabelledGraph.empty).
Proof.
  apply (coxeter_graph_of_graph
           (LabelledGraph.add_edge 0 1 (LabelInt 4) LabelledGraph.empty)).
  - intros u v lab Hlab. simpl in Hlab.
    apply lookup_insert_Some in Hlab as [[[= <- <-] _]|[_ Hlab]].
    + split; [lia|]. split; apply elem_of_union_r; set_solver.
    + rewrite lookup_empty in Hlab. discriminate Hlab.
  - intros u v lab Hlab. simpl in Hlab.
    apply lookup_insert_Some in Hlab as [[_ <-]|[_ Hlab]].
    + simpl. lia.
    + rewrite lookup_empty in Hlab. discriminate Hlab.
Defined.

(** ** The finite-type test as a whole *)

(** X11.  The finite-type test never raises: it always sets the flag, and
    the flag is true exactly when every connected component of the diagram
    passes the component test (the comment of the loop: "the group is finite
    if and only if this holds for every comp"). *)
Theorem finite_iff_components (M : matrix) :
  ∃ b, finite M = Some b ∧
    (b = true ↔
     ∀ comp, comp ∈ GraphServices.connected_components (diagram_graph M) →
             component_finite M (diagram_graph M) comp = Some true).
Proof.
  destruct (finite_total M) as [b Hb]. exists b. split; [done|].
  unfold finite in Hb. rewrite <- finite_loop_true, Hb.
  split; [by intros ->|by intros [= ->]].
Qed.

(** ** Connected components are closed under adjacency *)

Section components_closed.
Import GraphServices.
Implicit Types (G : graph) (S : list nat).

Lemma filter_length_le {A} (P Q : A → bool) (l : list A) :
  (∀ x, P x = true → Q x = true) →
  (length (List.filter P l) <= length (List.filter Q l))%nat.
Proof.
  intros HPQ. induction l as [|x l IH]; simpl; [done|].
  destruct (P x) eqn:EP.
  - rewrite (HPQ x EP). simpl. lia.
  - destruct (Q x); simpl; lia.
Qed.

Lemma filter_length_eq {A} (P Q : A → bool) (l : list A) :
  (∀ x, P x = true → Q x = true) →
  length (List.filter P l) = length (List.filter Q l) →
  List.filter P l = List.filter Q l.
Proof.
  intros HPQ. induction l as [|x l IH]; simpl; [done|].
  pose proof (filter_length_le P Q l HPQ) as Hle.
  destruct (P x) eqn:EP.
  - rewrite (HPQ x EP). simpl. intros [= Hlen]. f_equal. by apply IH.
  - destruct (Q x); simpl; [lia|]. by apply IH.
Qed.

Lemma filter_mem_self (Q : nat → bool) (V : list nat) :
  List.filter (λ w, bool_decide (w ∈ List.filter Q V)) V = List.filter Q V.
Proof.
  apply filter_ext_in. intros v Hv. destruct (Q v) eqn:E.
  - apply bool_decide_eq_true, list_elem_of_In, filter_In. done.
  - apply bool_decide_eq_false. intros Hin%list_elem_of_In%filter_In.
    destruct Hin. congruence.
Qed.

(** A ball either grows by at least one vertex or has stopped growing. *)
Lemma ball_grow_or_stable G u k :
  ball G u (S k) = ball G u k
  ∨ (length (ball G u k) < length (ball G u (S k)))%nat.
Proof.
  destruct (ball_is_filter G u k) as [Q HQ].
  change (ball G u (S k)) with (grow G (ball G u k)).
  pose proof (filter_mem_self Q (vertices G)) as Hself. rewrite <- HQ in Hself.
  pose proof (filter_length_le
                (λ w, bool_decide (w ∈ ball G u k))
                (λ w, bool_decide (w ∈ ball G u k)
                      || existsb (λ v, has_edge G v w) (ball G u k))
                (vertices G)) as Hle.
  rewrite Hself in Hle. unfold grow.
  destruct (decide (length (ball G u k)
                    = length (List.filter
                        (λ w, bool_decide (w ∈ ball G u k)
                              || existsb (λ v, has_edge G v w) (ball G u k))
                        (vertices G)))) as [Heq|Hne].
  - left.
    transitivity (List.filter (λ w, bool_decide (w ∈ ball G u k)) (vertices G));
      [|exact Hself].
    symmetry. apply filter_length_eq.
    + intros x ->. done.
    + by rewrite Hself.
  - right. specialize (Hle ltac:(by intros x ->)). lia.
Qed.

Lemma ball_stable_forever G u k d :
  ball G u (S k) = ball G u k → ball G u (k + d) = ball G u k.
Proof.
  intros Hst. induction d as [|d IH]; [by rewrite Nat.add_0_r|].
  replace (k + S d)%nat with (S (k + d)) by lia.
  change (ball G u (S (k + d))) with (grow G (ball G u (k + d))).
  rewrite IH. exact Hst.
Qed.

Lemma ball_length_bound G u k :
  (length (ball G u k) <= length (vertices G))%nat.
Proof.
  destruct (ball_is_filter G u k) as [Q ->]. apply List.filter_length_le.
Qed.

Lemma ball_stabilises G u k :
  (∃ k', (k' < k)%nat ∧ ball G u (S k') = ball G u k')
  ∨ (length (ball G u 0) + k <= length (ball G u k))%nat.
Proof.
  induction k as [|k IH]; [right; lia|].
  destruct IH as [(k' & Hk' & Hst)|Hlen]; [left; exists k'; split; [lia|done]|].
  destruct (ball_grow_or_stable G u k) as [Hst|Hgrow].
  - left. exists k. split; [lia|done].
  - right. lia.
Qed.

(** After as many rounds as there are vertices the ball has stopped
    growing. *)
Lemma component_stable G v :
  v ∈ vertices G →
  grow G (connected_component_containing_vertex G v)
  = connected_component_containing_vertex G v.
Proof.
  intros Hv. unfold connected_component_containing_vertex.
  set (N := length (vertices G)).
  destruct (ball_stabilises G v N) as [(k & Hk & Hst)|Hlen].
  - change (grow G (ball G v N)) with (ball G v (S N)).
    replace (S N) with (k + (S N - k))%nat by lia.
    replace N with (k + (N - k))%nat at 2 by lia.
    by rewrite !ball_stable_forever.
  - exfalso. pose proof (ball_length_bound G v N) as Hb. fold N in Hb.
    pose proof (ball_centre G v 0 Hv) as Hc.
    destruct (ball G v 0); [by apply elem_of_nil in Hc|]. simpl in Hlen. lia.
Qed.

Lemma component_closed G v i j :
  v ∈ vertices G → j ∈ vertices G →
  i ∈ connected_component_containing_vertex G v → has_edge G i j = true →
  j ∈ connected_component_containing_vertex G v.
Proof.
  intros Hv Hj Hi Hadj. rewrite <- (component_stable G v Hv).
  apply list_elem_of_In, filter_In. split; [by apply list_elem_of_In|].
  apply orb_true_iff. right. apply existsb_exists. exists i.
  split; [by apply list_elem_of_In|done].
Qed.

Lemma components_from_cover G vs seen v :
  (∀ x, x ∈ vs → x ∈ vertices G) → v ∈ vs → v ∉ seen →
  ∃ c, c ∈ components_from G vs seen ∧ v ∈ c.
Proof.
  revert seen. induction vs as [|v' vs IH]; intros seen Hsub Hv Hseen.
  - by apply elem_of_nil in Hv.
  - simpl. case_bool_decide as Hv'.
    + apply elem_of_cons in Hv as [->|Hv]; [done|].
      apply IH; [|done|done]. intros x Hx. apply Hsub. set_solver.
    + destruct (decide (v ∈ connected_component_containing_vertex G v')) as [Hin|Hnin].
      * eexists. split; [apply list_elem_of_here|done].
      * apply elem_of_cons in Hv as [->|Hv].
        { exfalso. apply Hnin, ball_centre, Hsub. set_solver. }
        destruct (IH (seen ++ connected_component_containing_vertex G v'))
          as (c & Hc & Hvc); [intros x Hx; apply Hsub; set_solver|done|set_solver|].
        exists c. split; [by apply list_elem_of_further|done].
Qed.

(** Every vertex lies in a component, and a component contains the
    neighbours of its vertices. *)
Lemma connected_components_cover G v :
  v ∈ vertices G →
  ∃ c, c ∈ connected_components G ∧ v ∈ c
       ∧ ∀ i j, i ∈ c → j ∈ vertices G → has_edge G i j = true → j ∈ c.
Proof.
  intros Hv.
  destruct (components_from_cover G (vertices G) [] v) as (c & Hc & Hvc);
    [done|done|apply not_elem_of_nil|].
  exists c. split; [unfold connected_components; by rewrite sorted_elem_of|].
  split; [done|].
  apply components_from_elem in Hc as (v0 & Hv0 & ->).
  intros i j Hi Hj Hadj. by apply (component_closed G v0 i j).
Qed.
End components_closed.

(** ** An infinite label makes the group infinite *)

Lemma mentries_contains (n : nat) (M : matrix) (comp : list nat) (i j : nat) :
  coxeter_matrix_valid n M → (i < n)%nat → (j < n)%nat → i ≠ j →
  i ∈ comp → j ∈ comp → entry M i j ∈ mentries M comp.
Proof.
  intros Hv Hi Hj Hne [p Hp]%list_elem_of_lookup [q Hq]%list_elem_of_lookup.
  apply mentries_elem.
  assert (nth p comp 0%nat = i) as Hnp by (by rewrite nth_lookup, Hp).
  assert (nth q comp 0%nat = j) as Hnq by (by rewrite nth_lookup, Hq).
  pose proof (lookup_lt_Some _ _ _ Hp). pose proof (lookup_lt_Some _ _ _ Hq).
  destruct (Nat.lt_total p q) as [Hlt|[->|Hlt]]; [|congruence|].
  - exists p, q. by rewrite Hnp, Hnq.
  - exists q, p. rewrite Hnp, Hnq. split_and!; [done|done|].
    by apply (cm_sym n M Hv).
Qed.

Lemma component_finite_infinite_label (M : matrix) (G : graph) (comp : list nat) :
  is_Some (component_finite M G comp) →
  (2 <= length comp)%nat → -1 ∈ mentries M comp →
  component_finite M G comp = Some false.
Proof.
  intros Htot Hlen Hin.
  destruct comp as [|c0 [|c1 [|c2 [|c3 [|c4 rest]]]]]; simpl in Hlen; try lia.
  - change (mentries M [c0; c1]) with [entry M c0 c1] in Hin.
    apply list_elem_of_singleton in Hin. simpl. rewrite <- Hin.
    by rewrite bool_decide_false by lia.
  - change (mentries M [c0; c1; c2])
      with [entry M c0 c1; entry M c0 c2; entry M c1 c2] in Hin.
    unfold component_finite, Py.index in *.
    set (s := Py.sorted Z.leb _) in *.
    destruct (s !! 0%nat) as [s0|] eqn:E0; [|by destruct Htot].
    pose proof (sorted_Z_first_le _ _ _ E0 Hin) as Hle. simpl.
    destruct (s !! 1%nat) as [s1|]; [|by destruct Htot]. simpl.
    destruct (s !! 2%nat) as [s2|]; [|by destruct Htot]. simpl.
    by rewrite (bool_decide_false (s0 = 2)) by lia.
  - rewrite (mentries_four M c0 c1 c2 c3) in Hin.
    unfold component_finite, Py.index in *.
    set (s := Py.sorted Z.leb _) in *.
    case_bool_decide as Htake; [|done]. exfalso.
    assert (s !! 0%nat = Some 2) as E0.
    { rewrite <- (lookup_take_lt s 5 0) by lia. by rewrite Htake. }
    pose proof (sorted_Z_first_le _ _ _ E0 Hin). lia.
  - apply large_component_reject; [done|]. left. exists (-1). split; [done|lia].
Qed.

(** X12.  A valid Coxeter matrix with an infinity label anywhere is
    classified infinite, whatever the size of the component the label lies
    in. *)
Theorem finite_infinite_label (n : nat) (M : matrix) (i j : nat) :
  coxeter_matrix_valid n M → (i < n)%nat → (j < n)%nat → i ≠ j →
  entry M i j = -1 →
  finite M = Some false.
Proof.
  intros Hv Hi Hj Hne Hinf. pose proof (valid_nrows n M Hv) as Hn.
  assert (Hverts : ∀ x, x ∈ vertices (diagram_graph M) ↔ (x < n)%nat).
  { intros x. simpl. unfold Py.range. rewrite Hn, elem_of_seq. lia. }
  destruct (connected_components_cover (diagram_graph M) i) as (c & Hc & Hic & Hcl);
    [by apply Hverts|].
  assert (j ∈ c) as Hjc.
  { apply (Hcl i j); [done|by apply Hverts|].
    simpl. unfold adjmat. rewrite Hinf. reflexivity. }
  assert (Hnd : NoDup c).
  { apply connected_components_filter in Hc as (_ & Q & ->).
    apply NoDup_List_filter, NoDup_seq. }
  unfold finite.
  apply (finite_loop_false M _ _ c); [apply component_finite_total|done|].
  apply component_finite_infinite_label.
  - by apply component_finite_total.
  - destruct c as [|c0 [|c1 c]]; simpl; [by apply elem_of_nil in Hic| |lia].
    apply list_elem_of_singleton in Hic, Hjc. congruence.
  - rewrite <- Hinf. by apply (mentries_contains n).
Qed.

Lemma finite_infinite_label_witness :
  finite [[1;3;-1];[3;1;4];[-1;4;1]] = Some false.
Proof.
  apply (finite_infinite_label 3 [[1;3;-1];[3;1;4];[-1;4;1]] 0 2).
  - apply coxeter_matrix_validb_spec. reflexivity.
  - lia.
  - lia.
  - lia.
  - reflexivity.
Defined.

(** ** Rank two *)

Lemma square_two (M : matrix) :
  square 2 M → ∃ a b c d, M = [[a; b]; [c; d]].
Proof.
  intros [Hlen Hrows]. destruct M as [|r0 [|r1 [|r2 M]]]; try discriminate.
  apply Forall_cons in Hrows as [H0 Hrows]. apply Forall_cons in Hrows as [H1 _].
  destruct r0 as [|a [|b [|? ?]]]; try discriminate.
  destruct r1 as [|c [|d [|? ?]]]; try discriminate. eauto.
Qed.

(** X13.  A valid Coxeter matrix of size two (a dihedral group) is
    classified finite unless its label is the infinity sentinel. *)
Theorem finite_rank_two (M : matrix) :
  coxeter_matrix_valid 2 M →
  finite M = Some (bool_decide (entry M 0 1 ≠ -1)).
Proof.
  intros Hv. destruct (square_two M (cm_square 2 M Hv)) as (a & b & c & d & ->).
  pose proof (cm_diag 2 _ Hv 0%nat ltac:(lia)) as Ha.
  pose proof (cm_diag 2 _ Hv 1%nat ltac:(lia)) as Hd.
  pose proof (cm_sym 2 _ Hv 0%nat 1%nat ltac:(lia) ltac:(lia)) as Hs.
  pose proof (cm_off 2 _ Hv 0%nat 1%nat ltac:(lia) ltac:(lia) ltac:(lia)) as Ho.
  cbv [entry nth] in Ha, Hd, Hs, Ho. subst a d c.
  change (entry [[1; b]; [b; 1]] 0 1) with b.
  destruct (decide (b = 2)) as [->|Hb2]; [reflexivity|].
  destruct (decide (b = -1)) as [->|Hbi]; [reflexivity|].
  rewrite bool_decide_true by done.
  assert (Hb : bool_decide (b ∈ [1; 2]) = false).
  { apply bool_decide_eq_false. rewrite !elem_of_cons, elem_of_nil. lia. }
  assert (H01 : adjmat [[1; b]; [b; 1]] 0 1 = true).
  { unfold adjmat. change (entry _ 0 1) with b. by rewrite Hb. }
  assert (H10 : adjmat [[1; b]; [b; 1]] 1 0 = true).
  { unfold adjmat. change (entry _ 1 0) with b. by rewrite Hb. }
  assert (H00 : adjmat [[1; b]; [b; 1]] 0 0 = false) by reflexivity.
  assert (H11 : adjmat [[1; b]; [b; 1]] 1 1 = false) by reflexivity.
  unfold finite, diagram_graph.
  set (A := adjmat [[1; b]; [b; 1]]) in *.
  assert (GraphServices.connected_components
            (Graph (Py.range (nrows [[1; b]; [b; 1]])) A) = [[0; 1]]%nat) as ->.
  { cbv -[A]. rewrite ?H00, ?H01, ?H10, ?H11.
    cbv -[A]. rewrite ?H00, ?H01, ?H10, ?H11. reflexivity. }
  simpl. change (entry [[1; b]; [b; 1]] 0 1) with b.
  by rewrite bool_decide_true by lia.
Qed.

Lemma finite_rank_two_witness :
  finite [[1;7];[7;1]] = Some (bool_decide (entry [[1;7];[7;1]] 0 1 ≠ -1)).
Proof.
  apply (finite_rank_two [[1;7];[7;1]]).
  apply coxeter_matrix_validb_spec. reflexivity.
Defined.

(** ** String lengths *)

Section string_length.
Context {X : Type}.
Implicit Types (op : X → option X) (x : X).

Lemma string_length_loop_shift op fuel x c :
  string_length_loop op fuel x c = (λ k, (c + k)%nat) <$> string_length_loop op fuel x 0.
Proof.
  revert x c. induction fuel as [|fuel IH]; intros x c; simpl; [done|].
  destruct (op x) as [x'|]; simpl; [|by rewrite Nat.add_0_r].
  rewrite (IH x' (S c)), (IH x' 1%nat).
  destruct (string_length_loop op fuel x' 0); simpl; [|done]. f_equal. lia.
Qed.

Lemma string_length_loop_Some op fuel x k :
  string_length_loop op fuel x 0 = Some k ↔
  (k < fuel)%nat ∧ ∃ y, apply_times op k x = Some y ∧ op y = None.
Proof.
  revert x k. induction fuel as [|fuel IH]; intros x k; simpl.
  - split; [done|]. intros [? _]. lia.
  - destruct (op x) as [x'|] eqn:E.
    + rewrite string_length_loop_shift. split.
      * destruct (string_length_loop op fuel x' 0) as [k'|] eqn:E'; [|done].
        intros [= <-]. apply IH in E' as (Hk' & y & Hy & Hnone).
        split; [lia|]. exists y. simpl. rewrite E. done.
      * intros (Hk & y & Hy & Hnone). destruct k as [|k].
        { simpl in Hy. injection Hy as <-. congruence. }
        simpl in Hy. rewrite E in Hy. simpl in Hy.
        assert (string_length_loop op fuel x' 0 = Some k) as ->.
        { apply IH. split; [lia|eauto]. }
        done.
    + split.
      * intros [= <-]. split; [lia|]. exists x. done.
      * intros (Hk & y & Hy & Hnone). destruct k as [|k]; [done|].
        simpl in Hy. rewrite E in Hy. discriminate.
Qed.

Lemma string_length_loop_None op fuel x :
  string_length_loop op fuel x 0 = None ↔
  ∀ k, (k < fuel)%nat → ∃ y z, apply_times op k x = Some y ∧ op y = Some z.
Proof.
  revert x. induction fuel as [|fuel IH]; intros x; simpl.
  - split; [intros _ k Hk; lia|done].
  - destruct (op x) as [x'|] eqn:E.
    + rewrite string_length_loop_shift.
      destruct (string_length_loop op fuel x' 0) as [k'|] eqn:E'; simpl.
      * split; [done|]. intros Hall. exfalso.
        apply string_length_loop_Some in E' as (Hk' & y & Hy & Hnone).
        destruct (Hall (S k') ltac:(lia)) as (y' & z & Hy' & Hz).
        simpl in Hy'. rewrite E in Hy'. simpl in Hy'. congruence.
      * split; [|done]. intros _ k Hk. destruct k as [|k].
        { exists x, x'. done. }
        destruct (proj1 (IH x') E' k ltac:(lia)) as (y & z & Hy & Hz).
        exists y, z. simpl. rewrite E. done.
    + split; [done|]. intros Hall.
      destruct (Hall 0%nat ltac:(lia)) as (y & z & [= <-] & Hz). congruence.
Qed.
End string_length.

(** X14.  [phi(i)] of an element is the number of times the lowering
    operator can be applied to it: the loop returns [k] exactly when [k]
    successive applications succeed and the next one returns [None]; it is
    still running after [fuel] rounds exactly when the first [fuel]
    applications all succeed.  In particular the value is 0 exactly when
    the first application returns [None]. *)
Theorem phi_spec {X : Type} (C : crystal X) (fuel : nat) (x : X) (i : Z) :
  (∀ k, phi C fuel x i = Some k ↔
        (k < fuel)%nat ∧ ∃ y, apply_times (λ z, f C z i) k x = Some y
                              ∧ f C y i = None)
  ∧ (phi C fuel x i = None ↔
     ∀ k, (k < fuel)%nat →
          ∃ y z, apply_times (λ z, f C z i) k x = Some y ∧ f C y i = Some z)
  ∧ ((0 < fuel)%nat → (phi C fuel x i = Some 0%nat ↔ f C x i = None)).
Proof.
  unfold phi. split_and!.
  - intros k. apply string_length_loop_Some.
  - apply string_length_loop_None.
  - intros Hfuel. rewrite string_length_loop_Some. split.
    + intros (_ & y & [= <-] & Hnone). done.
    + intros Hnone. split; [done|]. exists x. done.
Qed.

Lemma phi_spec_witness :
  phi one_arrow 5 0%nat 2 = Some 1%nat.
Proof.
  destruct (phi_spec one_arrow 5 0%nat 2) as (H & _ & _).
  apply H. split; [lia|]. exists 1%nat. split; reflexivity.
Defined.

(** X15.  [epsilon(i)] satisfies the same description for the raising
    operators, and one successful application shifts the value by one:
    when [e(i)] sends [y] to [x], [epsilon(i)] of [y] is one more than that
    of [x]. *)
Theorem epsilon_spec {X : Type} (e : X → Z → option X) (fuel : nat) (x y : X) (i : Z) :
  (∀ k, epsilon e fuel x i = Some k ↔
        (k < fuel)%nat ∧ ∃ z, apply_times (λ z, e z i) k x = Some z
                              ∧ e z i = None)
  ∧ (e y i = Some x →
     epsilon e (S fuel) y i = S <$> epsilon e fuel x i).
Proof.
  unfold epsilon. split.
  - intros k. apply string_length_loop_Some.
  - intros Hy. simpl. rewrite Hy. apply string_length_loop_shift.
Qed.

Lemma epsilon_spec_witness :
  epsilon (λ (x : nat) (_ : Z), if (x =? 0)%nat then None else Some (x - 1)%nat)
          4 2%nat 1
  = S <$> epsilon (λ (x : nat) (_ : Z), if (x =? 0)%nat then None else Some (x - 1)%nat)
                  3 1%nat 1.
Proof.
  destruct (epsilon_spec
              (λ (x : nat) (_ : Z), if (x =? 0)%nat then None else Some (x - 1)%nat)
              3 1%nat 2%nat 1) as [_ H].
  apply H. reflexivity.
Defined.

(** ** Labels that a component of three or more vertices rejects *)

Lemma component_finite_reject (M : matrix) (G : graph) (comp : list nat) :
  is_Some (component_finite M G comp) →
  (3 <= length comp)%nat →
  (∃ p q a b, p ≠ q ∧ mentries M comp !! p = Some a
              ∧ mentries M comp !! q = Some b ∧ a > 3 ∧ b > 3)
  ∨ (∃ m, m ∈ mentries M comp ∧ m > 5) →
  component_finite M G comp = Some false.
Proof.
  intros Htot Hlen Hbad.
  destruct comp as [|c0 [|c1 [|c2 [|c3 [|c4 rest]]]]]; simpl in Hlen; try lia.
  - change (mentries M [c0; c1; c2])
      with [entry M c0 c1; entry M c0 c2; entry M c1 c2] in Hbad.
    unfold component_finite, Py.index in *.
    set (l := [entry M c0 c1; entry M c0 c2; entry M c1 c2]) in *.
    assert (Hl : length (Py.sorted Z.leb l) = 3%nat) by (by rewrite sorted_length).
    destruct (Py.sorted Z.leb l !! 0%nat) as [s0|] eqn:E0; [|by destruct Htot].
    destruct (Py.sorted Z.leb l !! 1%nat) as [s1|] eqn:E1; [|by destruct Htot].
    destruct (Py.sorted Z.leb l !! 2%nat) as [s2|] eqn:E2; [|by destruct Htot].
    simpl. f_equal.
    assert (H1 : Py.index_neg (Py.sorted Z.leb l) 1 = Some s2).
    { rewrite index_neg_lookup by lia. by rewrite Hl. }
    assert (H2 : Py.index_neg (Py.sorted Z.leb l) 2 = Some s1).
    { rewrite index_neg_lookup by lia. by rewrite Hl. }
    destruct Hbad as [(p & q & a & b & Hpq & Hp & Hq & Ha & Hb)|(m & Hm & Hgt)].
    + pose proof (sorted_Z_second_last_ge _ _ _ _ _ _ H2 Hpq Hp Hq).
      rewrite (bool_decide_false (s1 = 3)) by lia.
      by rewrite andb_false_r.
    + pose proof (sorted_Z_last_ge _ _ _ H1 Hm).
      rewrite (bool_decide_false (s2 ∈ [3; 4; 5])).
      * by rewrite andb_false_r.
      * rewrite !elem_of_cons, elem_of_nil. lia.
  - unfold component_finite, Py.index in *.
    set (l := [entry M c0 c1; entry M c0 c2; entry M c0 c3;
               entry M c1 c2; entry M c1 c3; entry M c2 c3]) in *.
    assert (Hs : Py.sorted Z.leb l = Py.sorted Z.leb (mentries M [c0; c1; c2; c3])).
    { apply sorted_Z_perm_eq. symmetry. apply mentries_four. }
    assert (Hl : length (Py.sorted Z.leb l) = 6%nat) by (by rewrite sorted_length).
    case_bool_decide as Htake; [|done].
    assert (E4 : Py.sorted Z.leb l !! 4%nat = Some 3).
    { rewrite <- (lookup_take_lt _ 5 4) by lia. by rewrite Htake. }
    destruct (Py.sorted Z.leb l !! 5%nat) as [s5|] eqn:E5; [|by destruct Htot].
    simpl.
    assert (H1 : Py.index_neg (Py.sorted Z.leb (mentries M [c0; c1; c2; c3])) 1 = Some s5).
    { rewrite <- Hs. rewrite index_neg_lookup by lia. by rewrite Hl. }
    assert (H2 : Py.index_neg (Py.sorted Z.leb (mentries M [c0; c1; c2; c3])) 2 = Some 3).
    { rewrite <- Hs. rewrite index_neg_lookup by lia. by rewrite Hl. }
    destruct Hbad as [(p & q & a & b & Hpq & Hp & Hq & Ha & Hb)|(m & Hm & Hgt)].
    + pose proof (sorted_Z_second_last_ge _ _ _ _ _ _ H2 Hpq Hp Hq). lia.
    + pose proof (sorted_Z_last_ge _ _ _ H1 Hm).
      rewrite (bool_decide_false (s5 = 3)) by lia.
      rewrite (bool_decide_false (s5 ∈ [4; 5])); [done|].
      rewrite !elem_of_cons, elem_of_nil. lia.
  - apply large_component_reject; [done|]. tauto.
Qed.

Lemma tri_mono a b : (a <= b)%nat → (tri a <= tri b)%nat.
Proof. induction 1; simpl; lia. Qed.

Lemma tri_index_inj a b a' b' :
  (a < b)%nat → (a' < b')%nat → (tri b + a = tri b' + a')%nat → a = a' ∧ b = b'.
Proof.
  intros Ha Ha' Heq.
  destruct (lt_eq_lt_dec b b') as [[Hlt| ->]|Hlt].
  - pose proof (tri_mono (S b) b' ltac:(lia)). simpl in *. lia.
  - lia.
  - pose proof (tri_mono (S b') b ltac:(lia)). simpl in *. lia.
Qed.

Lemma bind_singleton_fmap {A B} (h : A → B) (l : list A) :
  (i ← l; [h i]) = h <$> l.
Proof. induction l as [|x l IH]; csimpl; [done|]. by rewrite IH. Qed.

Lemma bind_seq_tri_length {A} (g : nat → list A) (L : nat) :
  (∀ j, length (g j) = j) → length (j ← seq 0 L; g j) = tri L.
Proof.
  intros Hg. induction L as [|L IH]; [done|].
  rewrite seq_S, bind_app, length_app, IH. csimpl.
  rewrite app_nil_r, Hg. done.
Qed.

Lemma bind_seq_tri_lookup {A} (g : nat → list A) (L a b : nat) :
  (∀ j, length (g j) = j) → (a < b)%nat → (b < L)%nat →
  (j ← seq 0 L; g j) !! (tri b + a)%nat = g b !! a.
Proof.
  intros Hg Ha. induction L as [|L IH]; intros Hb; [lia|].
  rewrite seq_S, bind_app. csimpl. rewrite app_nil_r.
  destruct (decide (b = L)) as [->|Hne].
  - rewrite lookup_app_r by (rewrite bind_seq_tri_length by done; lia).
    rewrite bind_seq_tri_length by done. f_equal. lia.
  - rewrite lookup_app_l.
    + apply IH. lia.
    + rewrite bind_seq_tri_length by done.
      pose proof (tri_mono (S b) L ltac:(lia)). simpl in *. lia.
Qed.

Lemma mentries_lookup (M : matrix) (comp : list nat) (a b : nat) :
  (a < b)%nat → (b < length comp)%nat →
  mentries M comp !! (tri b + a)%nat
  = Some (entry M (nth a comp 0%nat) (nth b comp 0%nat)).
Proof.
  intros Ha Hb. unfold mentries, Py.range.
  rewrite (bind_seq_tri_lookup
             (λ j, i ← seq 0 j; [entry M (nth i comp 0%nat) (nth j comp 0%nat)])).
  - rewrite bind_singleton_fmap, list_lookup_fmap, lookup_seq_lt by done. done.
  - intros j. by rewrite bind_singleton_fmap, length_fmap, length_seq.
  - done.
  - done.
Qed.

Lemma mentries_position (n : nat) (M : matrix) (c : list nat) (x y : nat) :
  coxeter_matrix_valid n M → (x < n)%nat → (y < n)%nat → x ≠ y →
  x ∈ c → y ∈ c →
  ∃ a b, (a < b)%nat ∧ (b < length c)%nat
         ∧ ((nth a c 0%nat = x ∧ nth b c 0%nat = y)
            ∨ (nth a c 0%nat = y ∧ nth b c 0%nat = x))
         ∧ mentries M c !! (tri b + a)%nat = Some (entry M x y).
Proof.
  intros Hv Hx Hy Hne [p Hp]%list_elem_of_lookup [q Hq]%list_elem_of_lookup.
  assert (nth p c 0%nat = x) as Hnp by (by rewrite nth_lookup, Hp).
  assert (nth q c 0%nat = y) as Hnq by (by rewrite nth_lookup, Hq).
  pose proof (lookup_lt_Some _ _ _ Hp). pose proof (lookup_lt_Some _ _ _ Hq).
  assert (p ≠ q) by congruence.
  destruct (decide (p < q)%nat).
  - exists p, q. split_and!; [lia|lia|tauto|].
    rewrite mentries_lookup by lia. by rewrite Hnp, Hnq.
  - exists q, p. split_and!; [lia|lia|tauto|].
    rewrite mentries_lookup by lia. rewrite Hnp, Hnq.
    f_equal. by apply (cm_sym n M Hv).
Qed.

Lemma three_members_length (c : list nat) (i j k : nat) :
  i ≠ j → i ≠ k → j ≠ k → i ∈ c → j ∈ c → k ∈ c → (3 <= length c)%nat.
Proof.
  intros Hij Hik Hjk Hi Hj Hk.
  destruct c as [|c0 [|c1 [|c2 c]]]; simpl; [| | |lia].
  - by apply elem_of_nil in Hi.
  - apply list_elem_of_singleton in Hi, Hj. congruence.
  - rewrite !elem_of_cons, elem_of_nil in Hi, Hj, Hk. lia.
Qed.

Lemma adjmat_off_diagonal (n : nat) (M : matrix) (i j : nat) :
  coxeter_matrix_valid n M → (i < n)%nat → (j < n)%nat → i ≠ j →
  adjmat M i j = negb (bool_decide (entry M i j = 2)).
Proof.
  intros Hv Hi Hj Hne. unfold adjmat. f_equal.
  pose proof (cm_off n M Hv i j Hi Hj Hne).
  apply bool_decide_ext. rewrite !elem_of_cons, elem_of_nil. lia.
Qed.

(** X16.  The label conditions that reject a large component reject a
    component of three or four vertices as well: a component with at least
    three vertices that carries two labels greater than 3, or a label
    greater than 5, makes the finiteness flag false. *)
Theorem finite_component_reject (n : nat) (M : matrix) (comp : list nat) :
  coxeter_matrix_valid n M →
  comp ∈ GraphServices.connected_components (diagram_graph M) →
  (3 <= length comp)%nat →
  (∃ p q a b, p ≠ q ∧ mentries M comp !! p = Some a
              ∧ mentries M comp !! q = Some b ∧ a > 3 ∧ b > 3)
  ∨ (∃ m, m ∈ mentries M comp ∧ m > 5) →
  finite M = Some false.
Proof.
  intros _ Hcomp Hl Hbad. unfold finite.
  apply (finite_loop_false M _ _ comp); [apply component_finite_total|done|].
  apply component_finite_reject; [by apply component_finite_total|done|done].
Qed.

Lemma finite_component_reject_witness :
  finite [[1;4;2];[4;1;4];[2;4;1]] = Some false.
Proof.
  apply (finite_component_reject 3 [[1;4;2];[4;1;4];[2;4;1]] [0; 1; 2]%nat).
  - apply coxeter_matrix_validb_spec. reflexivity.
  - apply list_elem_of_In. vm_compute. left. reflexivity.
  - simpl. lia.
  - left. exists 0%nat, 2%nat, 4, 4. split_and!; [lia|reflexivity|reflexivity|lia|lia].
Defined.

Section three_vertices.
Context (n : nat) (M : matrix) (i j k : nat).
Hypothesis Hv : coxeter_matrix_valid n M.
Hypothesis (Hi : (i < n)%nat) (Hj : (j < n)%nat) (Hk : (k < n)%nat).
Hypothesis (Hij : i ≠ j) (Hik : i ≠ k) (Hjk : j ≠ k).

(** Three vertices joined by two edges lie in one component, which has at
    least three vertices. *)
Lemma common_component :
  entry M i j ≠ 2 → entry M j k ≠ 2 →
  ∃ c, c ∈ GraphServices.connected_components (diagram_graph M)
       ∧ i ∈ c ∧ j ∈ c ∧ k ∈ c ∧ (3 <= length c)%nat.
Proof.
  intros Eij Ejk. pose proof (valid_nrows n M Hv) as Hn.
  assert (Hverts : ∀ x, x ∈ vertices (diagram_graph M) ↔ (x < n)%nat).
  { intros x. simpl. unfold Py.range. rewrite Hn, elem_of_seq. lia. }
  destruct (connected_components_cover (diagram_graph M) i) as (c & Hc & Hic & Hcl);
    [by apply Hverts|].
  assert (j ∈ c) as Hjc.
  { apply (Hcl i j); [done|by apply Hverts|].
    simpl. rewrite (adjmat_off_diagonal n) by done.
    by rewrite bool_decide_false. }
  assert (k ∈ c) as Hkc.
  { apply (Hcl j k); [done|by apply Hverts|].
    simpl. rewrite (adjmat_off_diagonal n) by done.
    by rewrite bool_decide_false. }
  exists c. split_and!; try done. by apply (three_members_length c i j k).
Qed.
End three_vertices.

(** X17.  A label of 6 or more is only accepted in a component with two
    vertices: when one of its two vertices is joined to a third vertex, the
    matrix is classified infinite. *)
Theorem finite_large_label (n : nat) (M : matrix) (i j k : nat) :
  coxeter_matrix_valid n M → (i < n)%nat → (j < n)%nat → (k < n)%nat →
  i ≠ j → i ≠ k → j ≠ k →
  entry M i j > 5 → entry M j k ≠ 2 →
  finite M = Some false.
Proof.
  intros Hv Hi Hj Hk Hij Hik Hjk Hbig Hedge.
  destruct (common_component n M i j k) as (c & Hc & Hic & Hjc & Hkc & Hlen);
    [done..|lia|done|].
  unfold finite.
  apply (finite_loop_false M _ _ c); [apply component_finite_total|done|].
  apply component_finite_reject; [by apply component_finite_total|done|].
  right. exists (entry M i j). split; [|done]. by apply (mentries_contains n).
Qed.

Lemma finite_large_label_witness :
  finite [[1;6;2];[6;1;3];[2;3;1]] = Some false.
Proof.
  apply (finite_large_label 3 [[1;6;2];[6;1;3];[2;3;1]] 0 1 2).
  - apply coxeter_matrix_validb_spec. reflexivity.
  - lia.
  - lia.
  - lia.
  - lia.
  - lia.
  - lia.
  - reflexivity.
  - discriminate.
Defined.

(** X18.  Two labels greater than 3 on edges that share a vertex make the
    finiteness flag false. *)
Theorem finite_two_large_labels (n : nat) (M : matrix) (i j k : nat) :
  coxeter_matrix_valid n M → (i < n)%nat → (j < n)%nat → (k < n)%nat →
  i ≠ j → i ≠ k → j ≠ k →
  entry M i j > 3 → entry M j k > 3 →
  finite M = Some false.
Proof.
  intros Hv Hi Hj Hk Hij Hik Hjk Hbig1 Hbig2.
  destruct (common_component n M i j k) as (c & Hc & Hic & Hjc & Hkc & Hlen);
    [done..|lia|lia|].
  unfold finite.
  apply (finite_loop_false M _ _ c); [apply component_finite_total|done|].
  apply component_finite_reject; [by apply component_finite_total|done|].
  left.
  destruct (mentries_position n M c i j Hv Hi Hj Hij Hic Hjc)
    as (a & b & Hab & Hb & Hpos & Hlook).
  destruct (mentries_position n M c j k Hv Hj Hk Hjk Hjc Hkc)
    as (a' & b' & Hab' & Hb' & Hpos' & Hlook').
  exists (tri b + a)%nat, (tri b' + a')%nat, (entry M i j), (entry M j k).
  split_and!; try done.
  intros Heq. apply tri_index_inj in Heq as [-> ->]; [|done|done].
  destruct Hpos as [[? ?]|[? ?]], Hpos' as [[? ?]|[? ?]]; congruence.
Qed.

Lemma finite_two_large_labels_witness :
  finite [[1;4;2;2];[4;1;4;2];[2;4;1;3];[2;2;3;1]] = Some false.
Proof.
  apply (finite_two_large_labels 4 [[1;4;2;2];[4;1;4;2];[2;4;1;3];[2;2;3;1]] 0 1 2).
  - apply coxeter_matrix_validb_spec. reflexivity.
  - lia.
  - lia.
  - lia.
  - lia.
  - lia.
  - lia.
  - reflexivity.
  - reflexivity.
Defined.

(** ** The Coxeter graph for an arbitrary index set *)

Lemma coxeter_graph_step_None (index_set : list Z) (G : lgraph) i k val :
  (i < k)%nat →
  coxeter_graph_step index_set G (i, k, val) = None ↔
  is_Some (diagram_label val) ∧ (length index_set <= k)%nat.
Proof.
  intros Hik. destruct (index_set !! k) as [v|] eqn:Ek.
  - pose proof (lookup_lt_Some _ _ _ Ek).
    destruct (lookup_lt_is_Some_2 index_set i) as [u Eu]; [lia|].
    rewrite (coxeter_graph_step_spec index_set G i k val u v Eu Ek).
    split; [done|]. intros [_ ?]. lia.
  - pose proof (proj1 (lookup_ge_None _ _) Ek) as Hge.
    unfold coxeter_graph_step, diagram_label. rewrite Ek.
    destruct (index_set !! i) as [u|]; simpl;
      repeat case_bool_decide; simpl; split; try done;
      try (intros _; split; [by eexists|done]);
      intros [[? [=]] _].
Qed.

Lemma coxeter_graph_loop_None_absorb (index_set : list Z) (ts : list (nat * nat * Z)) :
  foldl (λ r t, G ← r; coxeter_graph_step index_set G t) None ts = None.
Proof. induction ts as [|t ts IH]; [done|]. simpl. exact IH. Qed.

Lemma coxeter_graph_loop_None (index_set : list Z) (ts : list (nat * nat * Z)) G0 :
  (∀ i k val, (i, k, val) ∈ ts → (i < k)%nat) →
  foldl (λ r t, G ← r; coxeter_graph_step index_set G t) (Some G0) ts = None ↔
  ∃ i k val, (i, k, val) ∈ ts ∧ is_Some (diagram_label val)
             ∧ (length index_set <= k)%nat.
Proof.
  revert G0. induction ts as [|[[i k] val] ts IH]; intros G0 Hlt.
  - simpl. split; [done|]. intros (i & k & val & Hin & _). by apply elem_of_nil in Hin.
  - change (foldl ?g (Some G0) ((i, k, val) :: ts))
      with (foldl g (coxeter_graph_step index_set G0 (i, k, val)) ts).
    destruct (coxeter_graph_step index_set G0 (i, k, val)) as [G1|] eqn:E.
    + rewrite IH by (intros i' k' val' Hin; apply (Hlt i' k' val'); set_solver).
      split.
      * intros (i' & k' & val' & Hin & Hrest). exists i', k', val'.
        split; [set_solver|done].
      * intros (i' & k' & val' & Hin & Hlab & Hlen).
        apply elem_of_cons in Hin as [[= -> -> ->]|Hin].
        -- assert (coxeter_graph_step index_set G0 (i, k, val) = None) as Hn.
           { apply coxeter_graph_step_None; [|done]. apply (Hlt i k val). set_solver. }
           congruence.
        -- exists i', k', val'. done.
    + rewrite coxeter_graph_loop_None_absorb. split; [|done]. intros _.
      apply coxeter_graph_step_None in E as [Hlab Hlen];
        [|apply (Hlt i k val); set_solver].
      exists i, k, val. split; [set_solver|done].
Qed.

Lemma min_max_pair_eq (u v u' v' : Z) :
  (Z.min u v, Z.max u v) = (Z.min u' v', Z.max u' v') →
  (u = u' ∧ v = v') ∨ (u = v' ∧ v = u').
Proof. intros [= Hmin Hmax]. lia. Qed.

Lemma coxeter_graph_loop_spec_NoDup (index_set : list Z) (ts : list (nat * nat * Z)) :
  NoDup index_set →
  (∀ i k val, (i, k, val) ∈ ts → (i < k)%nat ∧ (k < length index_set)%nat) →
  (∀ i k v1 v2, (i, k, v1) ∈ ts → (i, k, v2) ∈ ts → v1 = v2) →
  ∃ G,
    foldl (λ r t, G ← r; coxeter_graph_step index_set G t)
          (Some (LabelledGraph.add_vertices index_set LabelledGraph.empty)) ts
    = Some G
    ∧ lverts G = list_to_set index_set
    ∧ ∀ κ lab, ledges G !! κ = Some lab ↔
        ∃ i k val u v, (i, k, val) ∈ ts ∧ index_set !! i = Some u
                       ∧ index_set !! k = Some v
                       ∧ κ = (Z.min u v, Z.max u v)
                       ∧ diagram_label val = Some lab.
Proof.
  intros Hnd. induction ts as [|[[i k] val] ts IH] using rev_ind; intros Hrange Hfun.
  - eexists. split; [done|]. split.
    + simpl. apply union_empty_l_L.
    + intros κ lab. simpl. rewrite lookup_empty. split; [done|].
      intros (i & k & val & u & v & Hin & _). by apply elem_of_nil in Hin.
  - destruct IH as (G & HG & Hverts & Hedges).
    { intros i' k' val' Hin. apply (Hrange i' k' val'). set_solver. }
    { intros i' k' v1 v2 H1 H2. apply (Hfun i' k'); set_solver. }
    destruct (Hrange i k val) as [Hik Hk]; [set_solver|].
    destruct (lookup_lt_is_Some_2 index_set i) as [u Hu]; [lia|].
    destruct (lookup_lt_is_Some_2 index_set k) as [v Hv]; [lia|].
    rewrite foldl_app, HG.
    change (foldl _ (Some G) [(i, k, val)])
      with (coxeter_graph_step index_set G (i, k, val)).
    rewrite (coxeter_graph_step_spec index_set G i k val u v Hu Hv).
    eexists. split; [done|].
    destruct (diagram_label val) as [lab_t|] eqn:Elab.
    + split.
      * simpl. rewrite Hverts.
        assert (u ∈ index_set) by (apply list_elem_of_lookup; eauto).
        assert (v ∈ index_set) by (apply list_elem_of_lookup; eauto).
        set_solver.
      * intros κ lab. simpl.
        rewrite lookup_insert. case_decide as Hκ.
        -- subst κ. split.
           ++ intros [= <-]. exists i, k, val, u, v. split_and!; try done. set_solver.
           ++ intros (i' & k' & val' & u' & v' & Hin & Hu' & Hv' & Heq & Hlab).
              destruct (Hrange i' k' val' Hin) as [Hik' _].
              apply min_max_pair_eq in Heq as [[-> ->]|[-> ->]].
              ** assert (i' = i) as -> by (by apply (NoDup_lookup index_set _ _ u')).
                 assert (k' = k) as -> by (by apply (NoDup_lookup index_set _ _ v')).
                 assert (val' = val) as ->; [|congruence].
                 apply (Hfun i k); [done|set_solver].
              ** assert (i' = k) as -> by (by apply (NoDup_lookup index_set _ _ u')).
                 assert (k' = i) as -> by (by apply (NoDup_lookup index_set _ _ v')).
                 lia.
        -- rewrite Hedges. split.
           ++ intros (i' & k' & val' & u' & v' & Hin & Hrest).
              exists i', k', val', u', v'. split; [set_solver|done].
           ++ intros (i' & k' & val' & u' & v' & Hin & Hu' & Hv' & -> & Hlab).
              exists i', k', val', u', v'. split_and!; try done.
              apply elem_of_app in Hin as [Hin|Hin]; [done|].
              apply list_elem_of_singleton in Hin as [= -> -> ->].
              congruence.
    + split; [done|]. intros κ lab. rewrite Hedges. split.
      * intros (i' & k' & val' & u' & v' & Hin & Hrest).
        exists i', k', val', u', v'. split; [set_solver|done].
      * intros (i' & k' & val' & u' & v' & Hin & Hu' & Hv' & -> & Hlab).
        exists i', k', val', u', v'. split_and!; try done.
        apply elem_of_app in Hin as [Hin|Hin]; [done|].
        apply list_elem_of_singleton in Hin as [= -> -> ->].
        congruence.
Qed.

Lemma diagram_label_is_Some (val : Z) :
  is_Some (diagram_label val) ↔ val = 3 ∨ val > 3 ∨ val = -1.
Proof.
  unfold diagram_label. repeat case_bool_decide; split;
    try (intros [? [=]]); try (intros _; by eexists); try tauto; lia.
Qed.

Lemma diagram_label_canonical (val : Z) (lab : edge_label) :
  diagram_label val = Some lab → canonical_label lab.
Proof.
  unfold diagram_label. repeat case_bool_decide; intros [= <-]; simpl; [done|lia|done].
Qed.

(** X19.  For a square matrix and an index set of the same length without
    repetitions, [coxeter_graph] returns a simple graph on the index set:
    every edge joins two distinct labels of the index set, carries no
    label, an integer above 3 or [infinity], and the pair of the labels at
    positions [i < k] is an edge exactly when the entry [M[i][k]] is 3,
    greater than 3 or -1, with the label that entry prescribes.  The index
    set need not be increasing. *)
Theorem coxeter_graph_simple (n : nat) (M : matrix) (index_set : list Z) :
  square n M → length index_set = n → NoDup index_set →
  ∃ G, coxeter_graph M index_set = Some G
    ∧ lverts G = list_to_set index_set
    ∧ lgraph_wf G
    ∧ (∀ κ lab, ledges G !! κ = Some lab → canonical_label lab)
    ∧ ∀ i k u v, (i < k)%nat → (k < n)%nat →
        index_set !! i = Some u → index_set !! k = Some v →
        ledges G !! (Z.min u v, Z.max u v) = diagram_label (entry M i k).
Proof.
  intros Hsq Hlen Hnd.
  destruct (coxeter_graph_loop_spec_NoDup index_set (upper_entries M) Hnd)
    as (G & HG & Hverts & Hedges).
  - intros i k val Hin%(upper_entries_elem n); [|done]. lia.
  - intros i k v1 v2 H1%(upper_entries_elem n) H2%(upper_entries_elem n); try done.
    destruct H1 as (_ & _ & ->). by destruct H2 as (_ & _ & ->).
  - exists G. split_and!; [done|done|..].
    + intros u v lab (i & k & val & u' & v' & Hin & Hu & Hv & [= -> ->] & _)%Hedges.
      apply (upper_entries_elem n) in Hin as (Hik & _ & _); [|done].
      assert (u' ≠ v').
      { intros ->. pose proof (NoDup_lookup _ _ _ _ Hnd Hu Hv). lia. }
      assert (u' ∈ index_set) by (apply list_elem_of_lookup; eauto).
      assert (v' ∈ index_set) by (apply list_elem_of_lookup; eauto).
      rewrite Hverts, !elem_of_list_to_set. split_and!; [lia| |].
      * destruct (Z.min_spec u' v') as [[_ ->]|[_ ->]]; done.
      * destruct (Z.max_spec u' v') as [[_ ->]|[_ ->]]; done.
    + intros κ lab (i & k & val & u & v & _ & _ & _ & _ & Hlab)%Hedges.
      by apply (diagram_label_canonical val).
    + intros i k u v Hik Hk Hu Hv.
      destruct (diagram_label (entry M i k)) as [lab|] eqn:Elab.
      * apply Hedges. exists i, k, (entry M i k), u, v. split_and!; try done.
        by apply (upper_entries_elem n).
      * destruct (ledges G !! (Z.min u v, Z.max u v)) as [lab|] eqn:E; [|done].
        apply Hedges in E
          as (i' & k' & val' & u' & v' & Hin & Hu' & Hv' & Heq & Hlab).
        apply (upper_entries_elem n) in Hin as (Hik' & _ & ->); [|done].
        apply min_max_pair_eq in Heq as [[-> ->]|[-> ->]].
        -- assert (i' = i) as -> by (by apply (NoDup_lookup index_set _ _ u')).
           assert (k' = k) as -> by (by apply (NoDup_lookup index_set _ _ v')).
           congruence.
        -- assert (i' = k) as -> by (by apply (NoDup_lookup index_set _ _ u')).
           assert (k' = i) as -> by (by apply (NoDup_lookup index_set _ _ v')).
           lia.
Qed.

Lemma coxeter_graph_simple_witness :
  ∃ G, coxeter_graph [[1;3;2];[3;1;5];[2;5;1]] [7; 2; 4] = Some G
    ∧ lverts G = list_to_set [7; 2; 4]
    ∧ lgraph_wf G
    ∧ (∀ κ lab, ledges G !! κ = Some lab → canonical_label lab)
    ∧ ∀ i k u v, (i < k)%nat → (k < 3)%nat →
        [7; 2; 4] !! i = Some u → [7; 2; 4] !! k = Some v →
        ledges G !! (Z.min u v, Z.max u v)
        = diagram_label (entry [[1;3;2];[3;1;5];[2;5;1]] i k).
Proof.
  apply (coxeter_graph_simple 3 [[1;3;2];[3;1;5];[2;5;1]] [7; 2; 4]).
  - apply squareb_spec. reflexivity.
  - reflexivity.
  - apply (bool_decide_unpack _). vm_compute. exact I.
Defined.

(** X20.  Nothing checks the length of the index set against the matrix:
    [coxeter_graph] raises [IndexError] exactly when some entry above the
    diagonal that needs an edge (3, greater than 3, or -1) lies in a column
    beyond the end of the index set. *)
Theorem coxeter_graph_index_error (n : nat) (M : matrix) (index_set : list Z) :
  square n M → NoDup index_set →
  coxeter_graph M index_set = None ↔
  ∃ i k, (i < k)%nat ∧ (k < n)%nat ∧ (length index_set <= k)%nat
         ∧ (entry M i k = 3 ∨ entry M i k > 3 ∨ entry M i k = -1).
Proof.
  intros Hsq _. unfold coxeter_graph.
  rewrite coxeter_graph_loop_None.
  - split.
    + intros (i & k & val & Hin & Hlab & Hlen).
      apply (upper_entries_elem n) in Hin as (Hik & Hk & ->); [|done].
      exists i, k. split_and!; try done. by apply diagram_label_is_Some.
    + intros (i & k & Hik & Hk & Hlen & Hlab).
      exists i, k, (entry M i k). split_and!; [|by apply diagram_label_is_Some|done].
      by apply (upper_entries_elem n).
  - intros i k val Hin%(upper_entries_elem n); [|done]. lia.
Qed.

Lemma coxeter_graph_index_error_witness :
  coxeter_graph [[1;3];[3;1]] [1] = None.
Proof.
  apply (coxeter_graph_index_error 2 [[1;3];[3;1]] [1]).
  - apply squareb_spec. reflexivity.
  - apply (bool_decide_unpack _). vm_compute. exact I.
  - exists 0%nat, 1%nat. split_and!; [lia|lia|simpl; lia|left; reflexivity].
Defined.
